(** * A verification development of the engagehub C++ extensions

    Shallow embeddings of the event processor's Count-Min Sketch,
    HyperLogLog and lock-free ring buffer, and of the leaderboard's time
    decay, indexed skip list, leaderboard and JSON snapshot, with the
    properties of their specification. *)

From Stdlib Require Import ZArith String Ascii PrimFloat Uint63.
From Stdlib Require SpecFloat FloatOps FloatAxioms.
From Stdlib Require Import Sorting.Sorted.
From stdpp Require Import base list gmap strings.

Open Scope Z_scope.

(* ================================================================== *)
(** ** Machine words *)

Module Word.

(** Unsigned 64-bit arithmetic ([std::uint64_t], [std::size_t]). *)
Definition u64 (x : Z) : Z := x mod 2 ^ 64.
Definition UINT64_MAX : Z := 2 ^ 64 - 1.

(** [static_cast<intptr_t>] of a 64-bit unsigned value. *)
Definition to_signed64 (x : Z) : Z :=
  let y := u64 x in if y <? 2 ^ 63 then y else y - 2 ^ 64.

Definition INT64_MIN : Z := - 2 ^ 63.
Definition INT64_MAX : Z := 2 ^ 63 - 1.
Definition in_int64 (x : Z) : Prop := INT64_MIN <= x <= INT64_MAX.

(** [rotl64] of the sources (both copies are identical). *)
Definition rotl64 (x r : Z) : Z :=
  Z.lor (u64 (Z.shiftl x r)) (Z.shiftr x (64 - r)).

Definition fmix64 (k : Z) : Z :=
  let k := Z.lxor k (Z.shiftr k 33) in
  let k := u64 (k * 0xff51afd7ed558ccd) in
  let k := Z.lxor k (Z.shiftr k 33) in
  let k := u64 (k * 0xc4ceb9fe1a85ec53) in
  Z.lxor k (Z.shiftr k 33).

End Word.
Import Word.

(* ================================================================== *)
(** ** MurmurHash3 x64-128 folded to 64 bits ([murmurhash3_64]) *)

Module Murmur.

(** A [std::string] as its bytes. *)
Definition bytes_of (s : string) : list Z :=
  map (fun c => Z.of_N (N_of_ascii c)) (list_ascii_of_string s).

Definition c1 : Z := 0x87c37b91114253d5.
Definition c2 : Z := 0x4cf5ad432745937f.

(** [blocks[i]]: a little-endian 64-bit load of 8 bytes. *)
Fixpoint le64 (bs : list Z) : Z :=
  match bs with
  | [] => 0
  | b :: bs' => b + 256 * le64 bs'
  end.

Definition mix_k1 (k1 : Z) : Z :=
  u64 (rotl64 (u64 (k1 * c1)) 31 * c2).
Definition mix_k2 (k2 : Z) : Z :=
  u64 (rotl64 (u64 (k2 * c2)) 33 * c1).

(** One 16-byte block of the body loop. *)
Definition body_step (h : Z * Z) (k1 k2 : Z) : Z * Z :=
  let '(h1, h2) := h in
  let h1 := Z.lxor h1 (mix_k1 k1) in
  let h1 := rotl64 h1 27 in
  let h1 := u64 (h1 + h2) in
  let h1 := u64 (h1 * 5 + 0x52dce729) in
  let h2 := Z.lxor h2 (mix_k2 k2) in
  let h2 := rotl64 h2 31 in
  let h2 := u64 (h2 + h1) in
  let h2 := u64 (h2 * 5 + 0x38495ab5) in
  (h1, h2).

Fixpoint body (fuel : nat) (h : Z * Z) (data : list Z) : (Z * Z) * list Z :=
  match fuel with
  | O => (h, data)
  | S fuel' =>
      if (16 <=? Z.of_nat (length data))%Z
      then body fuel' (body_step h (le64 (take 8 data)) (le64 (take 8 (drop 8 data))))
                (drop 16 data)
      else (h, data)
  end.

(** The tail switch on [len & 15]: bytes 8..14 go to [k2], bytes 0..7 to
    [k1]; each half is mixed in only when it received a byte. *)
Definition tail_step (h : Z * Z) (tl : list Z) : Z * Z :=
  let '(h1, h2) := h in
  let n := length tl in
  let h2 := if (9 <=? n)%nat then Z.lxor h2 (mix_k2 (le64 (drop 8 tl))) else h2 in
  let h1 := if (1 <=? n)%nat then Z.lxor h1 (mix_k1 (le64 (take 8 tl))) else h1 in
  (h1, h2).

Definition murmurhash3_64 (data : list Z) (seed : Z) : Z :=
  let len := Z.of_nat (length data) in
  let '(h, tl) := body (length data) (seed, seed) data in
  let '(h1, h2) := tail_step h tl in
  let h1 := Z.lxor h1 len in
  let h2 := Z.lxor h2 len in
  let h1 := u64 (h1 + h2) in
  let h2 := u64 (h2 + h1) in
  let h1 := fmix64 h1 in
  let h2 := fmix64 h2 in
  u64 (h1 + h2).

End Murmur.

(* ================================================================== *)
(** ** Count-Min Sketch ([count_min_sketch.cpp]) *)

Module CMS.

Record cms := mk_cms {
  width : Z;
  depth : Z;
  seed : Z;
  table : list Z
}.

(** The constructor: [table_(width * depth, 0)], then the two checks; [None]
    is the [std::invalid_argument] it throws. *)
Definition create (w d s : Z) : option cms :=
  if negb (Z.land w (u64 (w - 1)) =? 0) then None
  else if d =? 0 then None
  else Some (mk_cms w d s (replicate (Z.to_nat (u64 (w * d))) 0)).

Definition hash (c : cms) (key : string) (index : Z) : Z :=
  let salt := u64 (seed c + index * 0x9e3779b97f4a7c15) in
  Murmur.murmurhash3_64 (Murmur.bytes_of key) salt.

(** [(i * width_) + (h & (width_ - 1))]. *)
Definition cell (c : cms) (key : string) (i : Z) : Z :=
  u64 (i * width c + Z.land (hash c key i) (u64 (width c - 1))).

Definition rows (c : cms) : list Z := Z.of_nat <$> seq 0 (Z.to_nat (depth c)).

(** [table_[idx] += count] for every row. *)
Definition increment (c : cms) (key : string) (count : Z) : cms :=
  mk_cms (width c) (depth c) (seed c)
    (fold_left (fun t i =>
        let idx := Z.to_nat (cell c key i) in
        <[ idx := u64 (default 0 (t !! idx) + count) ]> t)
       (rows c) (table c)).

Definition estimate (c : cms) (key : string) : Z :=
  let result := fold_left (fun r i =>
        Z.min r (default 0 (table c !! Z.to_nat (cell c key i))))
        (rows c) UINT64_MAX in
  if result =? UINT64_MAX then 0 else result.

(** A sequence of [increment(key, count)] calls. *)
Definition run (c : cms) (ops : list (string * Z)) : cms :=
  fold_left (fun c '(k, n) => increment c k n) ops c.

(** The exact number of occurrences of [k] in a sequence of increments. *)
Fixpoint true_count (ops : list (string * Z)) (k : string) : Z :=
  match ops with
  | [] => 0
  | (k', n) :: ops' => (if String.eqb k' k then n else 0) + true_count ops' k
  end.

(** No u64 counter overflows: every count is a [std::uint64_t] and every
    counter addressed by an increment stays at most [UINT64_MAX]. *)
Fixpoint no_overflow (c : cms) (ops : list (string * Z)) : Prop :=
  match ops with
  | [] => True
  | (k, n) :: ops' =>
      (0 <= n <= UINT64_MAX) /\
      (forall i, 0 <= i < depth c ->
         default 0 (table c !! Z.to_nat (cell c k i)) + n <= UINT64_MAX) /\
      no_overflow (increment c k n) ops'
  end.

End CMS.

(* ================================================================== *)
(** ** HyperLogLog ([hyperloglog.cpp]) *)

Module HLL.

Record hll := mk_hll {
  precision : Z;
  registers : list Z
}.

(** The constructor; [None] is the [std::invalid_argument] it throws. *)
Definition create (p : Z) : option hll :=
  if (p <? 4) || (18 <? p) then None
  else Some (mk_hll p (replicate (Z.to_nat (2 ^ p)) 0)).

(** [rho]'s loop: [count] starts at 1 and the loop runs while
    [count <= max_bits]; [fuel] bounds its iterations. *)
Fixpoint rho_loop (fuel : nat) (x count max_bits : Z) : Z :=
  match fuel with
  | O => count
  | S fuel' =>
      if count <=? max_bits then
        if Z.testbit x 63 then count
        else rho_loop fuel' (u64 (Z.shiftl x 1)) (count + 1) max_bits
      else count
  end.

Definition rho (x max_bits : Z) : Z :=
  rho_loop (S (Z.to_nat max_bits)) x 1 max_bits.

Definition hash_value (value : string) : Z :=
  Murmur.murmurhash3_64 (Murmur.bytes_of value) 0xadc83b19.

Definition add (s : hll) (value : string) : hll :=
  let hash := hash_value value in
  let index := Z.to_nat (Z.shiftr hash (64 - precision s)) in
  let remaining := u64 (Z.shiftl hash (precision s)) in
  let rank := rho remaining (64 - precision s) in
  mk_hll (precision s)
    (<[ index := Z.max (default 0 (registers s !! index)) rank ]> (registers s)).

(** A sequence of [add] calls. *)
Definition run (s : hll) (values : list string) : hll := fold_left add values s.


(** [merge]; [None] is the [std::invalid_argument] it throws. The loop
    runs over the [register_count_ = 1 << precision_] registers. *)
Definition merge (s other : hll) : option hll :=
  if negb (precision other =? precision s) then None
  else Some (mk_hll (precision s)
    (fold_left (fun regs i =>
        <[ i := Z.max (default 0 (regs !! i)) (default 0 (registers other !! i)) ]> regs)
       (seq 0 (Z.to_nat (2 ^ precision s))) (registers s))).

End HLL.

(* ================================================================== *)
(** ** Lock-free ring buffer, runtime-sized ([LockFreeRingBuffer<T, 0>]) *)

Module Ring.

(** [detail::round_up_to_power_of_two]. *)
Definition round_up_to_power_of_two (value : Z) : Z :=
  if value <=? 1 then 1
  else
    let v := fold_left (fun v i => Z.lor v (Z.shiftr v i)) [1; 2; 4; 8; 16; 32] (value - 1) in
    u64 (v + 1).

Section Ring.
Context {T : Type}.

(** The cells' [sequence] numbers and [storage] are two vectors indexed
    alike. *)
Record ring := mk_ring {
  size_ : Z;
  mask_ : Z;
  sequence : list Z;
  storage : list (option T);
  enqueue_pos_ : Z;
  dequeue_pos_ : Z
}.

Definition create (size : Z) : ring :=
  let s := round_up_to_power_of_two (if size =? 0 then 1 else size) in
  mk_ring s (u64 (s - 1)) (Z.of_nat <$> seq 0 (Z.to_nat s)) (replicate (Z.to_nat s) None) 0 0.

Definition cell (r : ring) (pos : Z) : nat := Z.to_nat (Z.land pos (mask_ r)).

(** [static_cast<intptr_t>(a) - static_cast<intptr_t>(b)], in two's
    complement. *)
Definition diff64 (a b : Z) : Z := to_signed64 (a - b).

Definition set_cell (r : ring) (i : nat) (sq : Z) (v : option T) (enq deq : Z) : ring :=
  mk_ring (size_ r) (mask_ r) (<[ i := sq ]> (sequence r)) (<[ i := v ]> (storage r)) enq deq.

(** The [for (;;)] loop of [emplace]: single-threaded, the
    [compare_exchange_weak] sees [enqueue_pos_ == pos]; a spurious failure
    only reloads the same [pos] and is not modelled. [None]: the loop is
    still running after [fuel] rounds. *)
Fixpoint emplace_loop (fuel : nat) (r : ring) (pos : Z) (value : T) : option (bool * ring) :=
  match fuel with
  | O => None
  | S fuel' =>
      let i := cell r pos in
      let sq := default 0 (sequence r !! i) in
      let diff := diff64 sq pos in
      if diff =? 0 then
        if enqueue_pos_ r =? pos
        then Some (true, set_cell r i (u64 (pos + 1)) (Some value) (u64 (pos + 1)) (dequeue_pos_ r))
        else emplace_loop fuel' r (enqueue_pos_ r) value
      else if diff <? 0 then Some (false, r)
      else emplace_loop fuel' r (enqueue_pos_ r) value
  end.

Definition push (fuel : nat) (r : ring) (value : T) : option (bool * ring) :=
  emplace_loop fuel r (enqueue_pos_ r) value.

(** [pop]'s loop; the result carries the value moved into [result]. *)
Fixpoint pop_loop (fuel : nat) (r : ring) (pos : Z) : option (bool * option T * ring) :=
  match fuel with
  | O => None
  | S fuel' =>
      let i := cell r pos in
      let sq := default 0 (sequence r !! i) in
      let diff := diff64 sq (u64 (pos + 1)) in
      if diff =? 0 then
        if dequeue_pos_ r =? pos
        then Some (true, default None (storage r !! i),
                   set_cell r i (u64 (pos + size_ r)) None (enqueue_pos_ r) (u64 (pos + 1)))
        else pop_loop fuel' r (dequeue_pos_ r)
      else if diff <? 0 then Some (false, None, r)
      else pop_loop fuel' r (dequeue_pos_ r)
  end.

Definition pop (fuel : nat) (r : ring) : option (bool * option T * ring) :=
  pop_loop fuel r (dequeue_pos_ r).

End Ring.
Arguments ring : clear implicits.

(** Single-threaded runs: pushes then pops, each given one round of its
    loop, with their results. *)
Fixpoint push_all {T} (r : ring T) (vs : list T) : option (list bool * ring T) :=
  match vs with
  | [] => Some ([], r)
  | v :: vs' =>
      match push 1 r v with
      | Some (b, r') =>
          match push_all r' vs' with
          | Some (bs, r'') => Some (b :: bs, r'')
          | None => None
          end
      | None => None
      end
  end.

Fixpoint pop_n {T} (n : nat) (r : ring T) : option (list (bool * option T) * ring T) :=
  match n with
  | O => Some ([], r)
  | S n' =>
      match pop 1 r with
      | Some (b, v, r') =>
          match pop_n n' r' with
          | Some (rs, r'') => Some ((b, v) :: rs, r'')
          | None => None
          end
      | None => None
      end
  end.


(** [empty()]. *)
Definition empty {T} (r : ring T) : bool := enqueue_pos_ r =? dequeue_pos_ r.

(** A call of the interface: [push(value)] or [pop(result)]. *)
Inductive op (T : Type) := Push (v : T) | Pop.
Arguments Push {T} v.
Arguments Pop {T}.

(** A single-threaded sequence of calls, each given one round of its loop
    ([None]: a loop needs another round); a [pop] also returns the value
    moved into [result]. *)
Fixpoint run {T} (r : ring T) (ops : list (op T)) : option (list (bool * option T) * ring T) :=
  match ops with
  | [] => Some ([], r)
  | Push v :: ops' =>
      match push 1 r v with
      | Some (b, r') =>
          match run r' ops' with
          | Some (outs, r'') => Some ((b, None) :: outs, r'')
          | None => None
          end
      | None => None
      end
  | Pop :: ops' =>
      match pop 1 r with
      | Some (b, v, r') =>
          match run r' ops' with
          | Some (outs, r'') => Some ((b, v) :: outs, r'')
          | None => None
          end
      | None => None
      end
  end.

(** The specification's side: a FIFO queue bounded by [cap]. *)
Definition fifo_step {T} (cap : Z) (q : list T) (o : op T) : (bool * option T) * list T :=
  match o with
  | Push v => if Z.of_nat (length q) <? cap then ((true, None), q ++ [v]) else ((false, None), q)
  | Pop => match q with [] => ((false, None), []) | v :: q' => ((true, Some v), q') end
  end.

Fixpoint fifo_run {T} (cap : Z) (q : list T) (ops : list (op T)) : list (bool * option T) * list T :=
  match ops with
  | [] => ([], q)
  | o :: ops' =>
      let '(out, q') := fifo_step cap q o in
      let '(outs, q'') := fifo_run cap q' ops' in
      (out :: outs, q'')
  end.

End Ring.

(* ================================================================== *)
(** ** Time decay ([time_decay.cpp]) *)

Module TimeDecay.

Record time_decay := mk_time_decay { decay_factor_ : float }.

(** The constructor; [None] is the [std::invalid_argument] it throws. *)
Definition create (decay_factor : float) : option time_decay :=
  if (decay_factor <=? 0)%float || (1 <? decay_factor)%float then None
  else Some (mk_time_decay decay_factor).

(** [static_cast<double>] of the difference, which [apply] only converts
    when it is positive (and below [2^63]): [of_uint63] rounds it to the
    nearest double, ties to even, as the C++ conversion does. *)
Definition double_of_delta (delta : Z) : float := of_uint63 (Uint63.of_Z delta).

Section Apply.
(** [std::pow]. *)
Variable pow : float -> float -> float.

(** [None]: [current_timestamp - last_update_timestamp] overflows
    [std::int64_t], which is undefined behaviour. *)
Definition apply (td : time_decay) (base_score : float)
    (last_update_timestamp current_timestamp : Z) : option float :=
  if current_timestamp <=? last_update_timestamp then Some base_score
  else
    let d := current_timestamp - last_update_timestamp in
    if negb ((INT64_MIN <=? d) && (d <=? INT64_MAX)) then None
    else
      let delta := double_of_delta d in
      let days := (delta / 86400)%float in
      if (days <=? 0)%float then Some base_score
      else Some (base_score * pow (decay_factor_ td) days)%float.

End Apply.

End TimeDecay.

(* ================================================================== *)
(** ** Indexed skip list ([leaderboard/src/skip_list.cpp]) *)

Module SkipList.

(** [operator<] of [std::string]: lexicographic, the characters compared
    as [unsigned char] ([std::char_traits<char>::lt]), a proper prefix
    first. *)
Fixpoint string_lt (a b : string) : bool :=
  match a, b with
  | EmptyString, EmptyString => false
  | EmptyString, String _ _ => true
  | String _ _, EmptyString => false
  | String c a', String d b' =>
      if (nat_of_ascii c <? nat_of_ascii d)%nat then true
      else if (nat_of_ascii d <? nat_of_ascii c)%nat then false
      else string_lt a' b'
  end.

(** [SkipList::Node]; [height] is [forward.size()], and where the
    [forward] pointers lead is kept level by level in [links] below. *)
Record node := mk_node {
  user_id : string;
  score : float;
  last_update : Z;
  height : nat }.

(** A [Node*]: [nullptr], [header_.get()], or a node of the heap. *)
Inductive ref := Null | Header | At (p : nat).

(** The members of [SkipList]. [rng_] is the sequence of the outcomes of
    [dist(rng_) < probability_] and [rng_pos] how many of them have been
    drawn; [links !! l] lists the nodes met following [forward[l]] from
    [header_]; [heap] holds the allocated nodes, [next_addr] is fresh. *)
Record skip_list := mk_skip_list {
  max_levels_ : Z;
  probability_ : float;
  current_level_ : Z;
  size_ : nat;
  rng_ : nat -> bool;
  rng_pos : nat;
  heap : gmap nat node;
  links : list (list nat);
  index_ : gmap string nat;
  next_addr : nat }.

Definition kMaxSupportedLevels : Z := 32.

(** The constructor; [None] is the [std::invalid_argument] it throws. *)
Definition create (max_levels : Z) (probability : float) (rng : nat -> bool)
    : option skip_list :=
  if (max_levels <=? 0) || (kMaxSupportedLevels <? max_levels) then None
  else if (probability <=? 0)%float || (1 <=? probability)%float then None
  else Some (mk_skip_list max_levels probability 1 0 rng 0 ∅
               (replicate (Z.to_nat max_levels) []) ∅ 0).

(** [random_level]: the level reached and the draws consumed. *)
Fixpoint random_level_loop (fuel : nat) (max_levels level : Z)
    (rng : nat -> bool) (pos : nat) : Z * nat :=
  match fuel with
  | O => (level, pos)
  | S fuel' =>
      if level <? max_levels then
        if rng pos then random_level_loop fuel' max_levels (level + 1) rng (S pos)
        else (level, S pos)
      else (level, pos)
  end.

Definition random_level (sl : skip_list) : Z * nat :=
  random_level_loop (Z.to_nat (max_levels_ sl)) (max_levels_ sl) 1 (rng_ sl) (rng_pos sl).

Definition comes_before (lhs : node) (score' : float) (uid : string) : bool :=
  if (score' <? score lhs)%float then true
  else if (score lhs <? score')%float then false
  else string_lt (user_id lhs) uid.

Definition chain (sl : skip_list) (l : nat) : list nat := default [] (links sl !! l).

Fixpoint succ_in (p : nat) (ch : list nat) : ref :=
  match ch with
  | [] => Null
  | q :: ch' =>
      if Nat.eqb q p then match ch' with r :: _ => At r | [] => Null end
      else succ_in p ch'
  end.

(** [r->forward[l]]; dereferencing [nullptr] is undefined and gives
    [Null] here. *)
Definition forward (sl : skip_list) (r : ref) (l : nat) : ref :=
  match r, links sl !! l with
  | Header, Some (q :: _) => At q
  | At p, Some ch => succ_in p ch
  | _, _ => Null
  end.

(** [while (current->forward[level] && go(current->forward[level]))
    current = current->forward[level];] *)
Fixpoint advance (fuel : nat) (sl : skip_list) (l : nat) (go : nat -> bool)
    (cur : ref) : ref :=
  match fuel with
  | O => cur
  | S fuel' =>
      match forward sl cur l with
      | At q => if go q then advance fuel' sl l go (At q) else cur
      | _ => cur
      end
  end.

Definition walk (sl : skip_list) (l : nat) (go : nat -> bool) (cur : ref) : ref :=
  advance (S (length (chain sl l))) sl l go cur.

(** The search loop shared by [upsert] and [erase], from level [k - 1]
    down to [0], filling [update]. *)
Fixpoint descend (sl : skip_list) (go : nat -> bool) (k : nat) (cur : ref)
    (update : list ref) : list ref :=
  match k with
  | O => update
  | S k' =>
      let cur' := walk sl k' go cur in
      descend sl go k' cur' (<[k' := cur']> update)
  end.

Definition search (sl : skip_list) (go : nat -> bool) : list ref :=
  descend sl go (Z.to_nat (current_level_ sl)) Header
    (replicate (Z.to_nat (max_levels_ sl)) Null).

(** [comes_before(current->forward[level], score, user_id)]. *)
Definition precedes (sl : skip_list) (score' : float) (uid : string) (q : nat) : bool :=
  match heap sl !! q with Some n => comes_before n score' uid | None => false end.

Fixpoint insert_after (p x : nat) (ch : list nat) : list nat :=
  match ch with
  | [] => []
  | q :: ch' => if Nat.eqb q p then q :: x :: ch' else q :: insert_after p x ch'
  end.

(** [node->forward[i] = u->forward[i]; u->forward[i] = node;] *)
Definition link_after (u : ref) (x : nat) (ch : list nat) : list nat :=
  match u with
  | Header => x :: ch
  | At p => insert_after p x ch
  | Null => ch
  end.

Definition insert_node (sl : skip_list) (x : nat) (level : nat) (update : list ref)
    : list (list nat) :=
  imap (fun i ch => if (i <? level)%nat then link_after (default Null (update !! i)) x ch
                    else ch) (links sl).

Fixpoint unlink_after (p t : nat) (ch : list nat) : option (list nat) :=
  match ch with
  | [] => None
  | q :: ch' =>
      if Nat.eqb q p then
        match ch' with
        | r :: ch'' => if Nat.eqb r t then Some (q :: ch'') else None
        | [] => None
        end
      else (fun c => q :: c) <$> unlink_after p t ch'
  end.

(** [if (u->forward[l] == target) u->forward[l] = target->forward[l];]
    [None] when the test fails. *)
Definition unlink (u : ref) (t : nat) (ch : list nat) : option (list nat) :=
  match u with
  | Header =>
      match ch with
      | q :: ch' => if Nat.eqb q t then Some ch' else None
      | [] => None
      end
  | At p => unlink_after p t ch
  | Null => None
  end.

(** The unlinking loop of [erase] over the [h] levels of the target, and
    its flag [removed]. *)
Definition unlink_levels (sl : skip_list) (t h : nat) (update : list ref)
    : list (list nat) * bool :=
  (imap (fun l ch => if (l <? h)%nat then default ch (unlink (default Null (update !! l)) t ch)
                     else ch) (links sl),
   existsb (fun l => match unlink (default Null (update !! l)) t (chain sl l) with
                     | Some _ => true | None => false end) (seq 0 h)).

(** [while (current_level_ > 1 && header_->forward[current_level_ - 1] == nullptr)
      --current_level_;] *)
Fixpoint shrink (fuel : nat) (lks : list (list nat)) (cl : Z) : Z :=
  match fuel with
  | O => cl
  | S fuel' =>
      if (1 <? cl) && match lks !! Z.to_nat (cl - 1) with Some [] => true | _ => false end
      then shrink fuel' lks (cl - 1) else cl
  end.

(** [erase]: its result and the list after it. [size_] is a [std::size_t];
    it is only decremented with the node of an index entry removed. *)
Definition erase (sl : skip_list) (uid : string) : bool * skip_list :=
  match index_ sl !! uid with
  | None => (false, sl)
  | Some t =>
      match heap sl !! t with
      | None => (false, sl)
      | Some tn =>
          let update := search sl (fun q => negb (Nat.eqb q t) &&
                                            precedes sl (score tn) (user_id tn) q) in
          let '(lks, removed) := unlink_levels sl t (height tn) update in
          if negb removed then (false, sl)
          else (true, mk_skip_list (max_levels_ sl) (probability_ sl)
                        (shrink (Z.to_nat (current_level_ sl)) lks (current_level_ sl))
                        (pred (size_ sl)) (rng_ sl) (rng_pos sl)
                        (delete t (heap sl)) lks (delete uid (index_ sl)) (next_addr sl))
      end
  end.

(** [upsert]; the new node is allocated at the fresh address [next_addr]. *)
Definition upsert (sl0 : skip_list) (uid : string) (score' : float) (timestamp : Z)
    : skip_list :=
  let sl := snd (erase sl0 uid) in
  let '(node_level, pos) := random_level sl in
  let x := next_addr sl in
  let nd := mk_node uid score' timestamp (Z.to_nat node_level) in
  let update := search sl (precedes sl score' uid) in
  let cl := current_level_ sl in
  let update := if cl <? node_level then
                  imap (fun i u => if (Z.to_nat cl <=? i)%nat && (i <? Z.to_nat node_level)%nat
                                   then Header else u) update
                else update in
  let cl := if cl <? node_level then node_level else cl in
  mk_skip_list (max_levels_ sl) (probability_ sl) cl (S (size_ sl)) (rng_ sl) pos
    (<[x := nd]> (heap sl)) (insert_node sl x (Z.to_nat node_level) update)
    (<[uid := x]> (index_ sl)) (S x).

Definition find (sl : skip_list) (uid : string) : option node :=
  index_ sl !! uid ≫= fun p => heap sl !! p.

Definition tail (sl : skip_list) : option node :=
  last (chain sl 0) ≫= fun p => heap sl !! p.

Definition clear (sl : skip_list) : skip_list :=
  mk_skip_list (max_levels_ sl) (probability_ sl) 1 0 (rng_ sl) (rng_pos sl) ∅
    (replicate (length (links sl)) []) ∅ (next_addr sl).

(** The nodes in the order of [for_each], [top_k] and [rank_of]: along
    [forward[0]]. *)
Definition nodes0 (sl : skip_list) : list node := omap (fun p => heap sl !! p) (chain sl 0).

Inductive op := Upsert (uid : string) (score : float) (timestamp : Z) | Erase (uid : string).

Definition step (sl : skip_list) (o : op) : skip_list :=
  match o with
  | Upsert uid s ts => upsert sl uid s ts
  | Erase uid => snd (erase sl uid)
  end.

Definition run (sl : skip_list) (ops : list op) : skip_list := fold_left step ops sl.

(** The specification's side: the present pairs, and their sort by
    [(- score, user_id)]. *)
Definition present (ops : list op) : gmap string float :=
  fold_left (fun m o => match o with
                        | Upsert uid s _ => <[uid := s]> m
                        | Erase uid => delete uid m
                        end) ops ∅.

Definition entry_before (a b : string * float) : bool :=
  (b.2 <? a.2)%float || ((a.2 =? b.2)%float && string_lt a.1 b.1).

Fixpoint insert_entry (a : string * float) (l : list (string * float)) :=
  match l with
  | [] => [a]
  | b :: l' => if entry_before a b then a :: l else b :: insert_entry a l'
  end.

Definition sort_entries (l : list (string * float)) := foldr insert_entry [] l.

Definition entries (sl : skip_list) : list (string * float) :=
  map (fun n => (user_id n, score n)) (nodes0 sl).


(** [top_k]: the loop along [forward[0]] while fewer than [k] nodes are
    collected. *)
Fixpoint top_k_loop (k : Z) (ns : list node) (results : list node) : list node :=
  match ns with
  | [] => results
  | n :: ns' =>
      if Z.of_nat (length results) <? k then top_k_loop k ns' (results ++ [n]) else results
  end.

Definition top_k (sl : skip_list) (k : Z) : list node := top_k_loop k (nodes0 sl) [].

(** [rank_of]: the position along [forward[0]] of the first node of the
    user, from [1]; [0] when there is none. *)
Fixpoint rank_of_loop (uid : string) (rank : Z) (ns : list node) : Z :=
  match ns with
  | [] => 0
  | n :: ns' => if String.eqb (user_id n) uid then rank else rank_of_loop uid (rank + 1) ns'
  end.

Definition rank_of (sl : skip_list) (uid : string) : Z := rank_of_loop uid 1 (nodes0 sl).

End SkipList.

(** Example runs of the skip list: all level draws fail. *)
Definition sl_example : SkipList.skip_list :=
  SkipList.mk_skip_list 16 0.5 1 0 (fun _ => false) 0 ∅ (replicate 16 []) ∅ 0.

Definition ops_example : list SkipList.op :=
  [SkipList.Upsert "a" 5 0; SkipList.Upsert "q" 3 0; SkipList.Upsert "c" 10 0;
   SkipList.Upsert "b" 1 0; SkipList.Erase "q"; SkipList.Upsert "a" 0.5 0].

Definition ops_nan : list SkipList.op :=
  [SkipList.Upsert "a" 5 0; SkipList.Upsert "b" nan 0; SkipList.Upsert "c" 10 0;
   SkipList.Upsert "b" 1 0].

(* ================================================================== *)
(** ** Leaderboard ([leaderboard/src/leaderboard.cpp]) *)

Module Leaderboard.

(** [skip_list_], [decay_] and [max_users_] (a [std::size_t]). The clock
    [clock_fn_] is read only when [update_user] gets no positive
    timestamp: its value is an argument of [update_user]. *)
Record leaderboard := mk_leaderboard {
  skip_list_ : SkipList.skip_list;
  decay_ : TimeDecay.time_decay;
  max_users_ : Z }.

(** The constructor: [skip_list_(16, 0.5)] with its random stream,
    [decay_(decay_factor)]. [None]: one of them throws. *)
Definition create (decay_factor : float) (max_users : Z) (rng : nat -> bool)
    : option leaderboard :=
  match SkipList.create 16 0.5 rng, TimeDecay.create decay_factor with
  | Some sl, Some td => Some (mk_leaderboard sl td max_users)
  | _, _ => None
  end.

Section UpdateUser.
Variable pow : float -> float -> float.

Definition now_of (timestamp clock_now : Z) : Z :=
  if 0 <? timestamp then timestamp else clock_now.

(** [new_score]: [points], plus the decayed score of the user when it is
    stored. [None]: [decay_.apply] has undefined behaviour. *)
Definition new_score (lb : leaderboard) (user_id : string) (points : float) (now : Z)
    : option float :=
  match SkipList.find (skip_list_ lb) user_id with
  | Some existing =>
      match TimeDecay.apply pow (decay_ lb) (SkipList.score existing)
              (SkipList.last_update existing) now with
      | Some decayed => Some (decayed + points)%float
      | None => None
      end
  | None => Some points
  end.

(** The eviction step after the upsert. *)
Definition evict (max_users : Z) (user_id : string) (sl : SkipList.skip_list)
    : SkipList.skip_list :=
  if (0 <? max_users) && (max_users <? Z.of_nat (SkipList.size_ sl)) then
    match SkipList.tail sl with
    | Some tl =>
        if negb (String.eqb (SkipList.user_id tl) user_id)
           || (max_users <? Z.of_nat (SkipList.size_ sl))
        then snd (SkipList.erase sl (SkipList.user_id tl))
        else sl
    | None => sl
    end
  else sl.

Definition update_user (lb : leaderboard) (user_id : string) (points : float)
    (timestamp clock_now : Z) : option leaderboard :=
  let now := now_of timestamp clock_now in
  if (points =? 0)%float && negb (bool_decide (is_Some (SkipList.find (skip_list_ lb) user_id)))
  then Some lb
  else
    match new_score lb user_id points now with
    | None => None
    | Some ns =>
        let sl := SkipList.upsert (skip_list_ lb) user_id ns now in
        Some (mk_leaderboard (evict (max_users_ lb) user_id sl) (decay_ lb) (max_users_ lb))
    end.

(** A sequence of [update_user] calls: user, points, timestamp, clock. *)
Fixpoint update_users (lb : leaderboard) (calls : list (string * float * Z * Z))
    : option leaderboard :=
  match calls with
  | [] => Some lb
  | (uid, points, ts, clk) :: calls' =>
      match update_user lb uid points ts clk with
      | Some lb' => update_users lb' calls'
      | None => None
      end
  end.

End UpdateUser.


(** [RankEntry]; [RankInfo] is the same type. [rank] is a [std::size_t]. *)
Record rank_entry := mk_rank_entry {
  entry_user_id : string;
  entry_score : float;
  entry_rank : Z;
  entry_last_update : Z }.

Section Queries.
Variable pow : float -> float -> float.

(** The [updates] that [refresh_scores_locked] collects along [for_each].
    [None]: [decay_.apply] has undefined behaviour on a node. *)
Fixpoint collect_updates (td : TimeDecay.time_decay) (now : Z) (ns : list SkipList.node)
    : option (list (string * float)) :=
  match ns with
  | [] => Some []
  | n :: ns' =>
      match TimeDecay.apply pow td (SkipList.score n) (SkipList.last_update n) now with
      | None => None
      | Some decayed =>
          match collect_updates td now ns' with
          | None => None
          | Some ups =>
              if (1e-6 <? PrimFloat.abs (decayed - SkipList.score n))%float
                 || negb (SkipList.last_update n =? now)
              then Some ((SkipList.user_id n, decayed) :: ups)
              else Some ups
          end
      end
  end.

(** [refresh_scores_locked]: the collected updates, then one [upsert]
    each, in order. *)
Definition refresh_scores_locked (lb : leaderboard) (now : Z) : option leaderboard :=
  match collect_updates (decay_ lb) now (SkipList.nodes0 (skip_list_ lb)) with
  | None => None
  | Some updates =>
      Some (mk_leaderboard
              (fold_left (fun sl '(user, score) => SkipList.upsert sl user score now)
                 updates (skip_list_ lb))
              (decay_ lb) (max_users_ lb))
  end.

(** [get_top_users], [clock_now] the value of [clock_fn_()]; the
    leaderboard after the call. *)
Definition get_top_users (lb : leaderboard) (k clock_now : Z)
    : option (list rank_entry * leaderboard) :=
  match refresh_scores_locked lb clock_now with
  | None => None
  | Some lb' =>
      Some (imap (fun i n => mk_rank_entry (SkipList.user_id n) (SkipList.score n)
                               (Z.of_nat i + 1) (SkipList.last_update n))
              (SkipList.top_k (skip_list_ lb') k), lb')
  end.

(** [get_user_rank]; the inner [None] is [std::nullopt]. *)
Definition get_user_rank (lb : leaderboard) (user_id : string) (clock_now : Z)
    : option (option rank_entry * leaderboard) :=
  match refresh_scores_locked lb clock_now with
  | None => None
  | Some lb' =>
      match SkipList.find (skip_list_ lb') user_id with
      | None => Some (None, lb')
      | Some n =>
          Some (Some (mk_rank_entry (SkipList.user_id n) (SkipList.score n)
                        (SkipList.rank_of (skip_list_ lb') user_id) (SkipList.last_update n)),
                lb')
      end
  end.

End Queries.

End Leaderboard.

(** Example calls of [update_user]: a capacity of 2, all level draws fail. *)
Definition lb_example : Leaderboard.leaderboard :=
  Leaderboard.mk_leaderboard sl_example (TimeDecay.mk_time_decay 0.5) 2.

Definition calls_nan : list (string * float * Z * Z) :=
  [("a", 1%float, 1, 0); ("c", 10%float, 1, 0); ("b", nan, 1, 0)].

(* ================================================================== *)
(** ** Number input and output of the C++ library *)

(** What [save_to_json] and [load_from_json] use: [operator<<] on
    [double] (format ["%g"], precision 6), on [std::size_t] and on
    [std::int64_t]; [std::stod] ([strtod]), [std::stoull] and [std::stoll]
    (base 10), under the "C" locale. [None] is an exception of the
    conversion: [std::invalid_argument] (nothing converted) or
    [std::out_of_range] ([errno] set to [ERANGE]). *)
Module NumIO.

Fixpoint drop_while (p : ascii -> bool) (l : list ascii) : list ascii :=
  match l with
  | c :: l' => if p c then drop_while p l' else l
  | [] => []
  end.

Definition digit_char (d : Z) : ascii := ascii_of_nat (48 + Z.to_nat d).

(** The decimal digits of [n > 0], least significant first; [log2 n + 1]
    steps are enough. *)
Fixpoint digits_rev (fuel : nat) (n : Z) : list ascii :=
  match fuel with
  | O => []
  | S fuel' => if n <=? 0 then [] else digit_char (n mod 10) :: digits_rev fuel' (n / 10)
  end.

Definition decimal (n : Z) : list ascii := rev (digits_rev (S (Z.to_nat (Z.log2 n))) n).

(** [operator<<] on [std::size_t] (a value [n >= 0]). *)
Definition show_size (n : Z) : string :=
  if n =? 0 then "0" else string_of_list_ascii (decimal n).

(** [operator<<] on [std::int64_t]. *)
Definition show_int64 (n : Z) : string :=
  if n <? 0 then String "-" (show_size (- n)) else show_size n.

(** [10^k <= num / den], for [num, den > 0]. *)
Definition ge_pow10 (num den k : Z) : bool :=
  if 0 <=? k then den * 10 ^ k <=? num else den <=? num * 10 ^ (- k).

(** The decimal exponent [x] of [num / den]: [10^x <= num / den < 10^(x+1)]. *)
Definition dec_exp (num den : Z) : Z :=
  let g := Z.of_nat (length (decimal num)) - Z.of_nat (length (decimal den)) in
  if ge_pow10 num den g then g else g - 1.

(** [num / den] rounded to an integer, ties to even. *)
Definition round_div (num den : Z) : Z :=
  let q := num / den in
  match Z.compare (2 * (num mod den)) den with
  | Lt => q
  | Gt => q + 1
  | Eq => if Z.even q then q else q + 1
  end.

(** [num / den * 10^k] rounded to an integer, ties to even. *)
Definition scale_div (num den k : Z) : Z :=
  if 0 <=? k then round_div (num * 10 ^ k) den else round_div num (den * 10 ^ (- k)).

(** Removes the trailing zeros of a fractional part. *)
Definition strip_zeros (l : list ascii) : list ascii :=
  rev (drop_while (fun c => Ascii.eqb c "0"%char) (rev l)).

Definition with_point (ip fp : list ascii) : list ascii :=
  match strip_zeros fp with
  | [] => ip
  | fp' => ip ++ "."%char :: fp'
  end.

(** ["%g"] with precision [P = 6] of a positive [num / den]: the value
    rounded to 6 significant digits [d] with exponent [x]; style [f] with
    [5 - x] decimals when [-4 <= x < 6], style [e] otherwise (an exponent
    of at least two digits); trailing zeros and a trailing point removed. *)
Definition fmt_g_pos (num den : Z) : list ascii :=
  let x0 := dec_exp num den in
  let d0 := scale_div num den (5 - x0) in
  let '(x, d) := if d0 =? 10 ^ 6 then (x0 + 1, 10 ^ 5) else (x0, d0) in
  let ds := decimal d in
  if (-4 <=? x) && (x <? 6) then
    if 0 <=? x then with_point (firstn (S (Z.to_nat x)) ds) (skipn (S (Z.to_nat x)) ds)
    else with_point ["0"%char] (repeat "0"%char (Z.to_nat (- x - 1)) ++ ds)
  else
    with_point (firstn 1 ds) (skipn 1 ds) ++
    "e"%char :: (if x <? 0 then "-"%char else "+"%char) ::
    (if Z.abs x <? 10 then "0"%char :: decimal (Z.abs x) else decimal (Z.abs x)).

(** [operator<<] on [double]. A NaN prints as ["nan"] (glibc prints
    ["-nan"] when its sign bit is set, which [float] does not record). *)
Definition show_double (f : float) : string :=
  match FloatOps.Prim2SF f with
  | SpecFloat.S754_nan => "nan"
  | SpecFloat.S754_infinity s => if s then "-inf" else "inf"
  | SpecFloat.S754_zero s => if s then "-0" else "0"
  | SpecFloat.S754_finite s m e =>
      let num := Z.shiftl (Z.pos m) (Z.max e 0) in
      let den := Z.shiftl 1 (Z.max (- e) 0) in
      string_of_list_ascii ((if s then ["-"%char] else []) ++ fmt_g_pos num den)
  end.

(** *** Parsing *)

(** [isspace] in the "C" locale. *)
Definition is_space (c : ascii) : bool :=
  let n := nat_of_ascii c in (n =? 32)%nat || ((9 <=? n)%nat && (n <=? 13)%nat).

Definition digit_val (c : ascii) : option Z :=
  let n := nat_of_ascii c in
  if (48 <=? n)%nat && (n <=? 57)%nat then Some (Z.of_nat n - 48) else None.

Definition hex_val (c : ascii) : option Z :=
  let n := nat_of_ascii c in
  if (48 <=? n)%nat && (n <=? 57)%nat then Some (Z.of_nat n - 48)
  else if (97 <=? n)%nat && (n <=? 102)%nat then Some (Z.of_nat n - 87)
  else if (65 <=? n)%nat && (n <=? 70)%nat then Some (Z.of_nat n - 55)
  else None.

Definition lower (c : ascii) : ascii :=
  let n := nat_of_ascii c in
  if (65 <=? n)%nat && (n <=? 90)%nat then ascii_of_nat (n + 32) else c.

(** Reads the longest run of digits: the value (accumulated onto
    [acc]), the number of digits, the rest. *)
Fixpoint read_digits (val : ascii -> option Z) (base : Z) (l : list ascii) (acc : Z) (n : nat)
    : Z * nat * list ascii :=
  match l with
  | c :: l' =>
      match val c with
      | Some d => read_digits val base l' (acc * base + d) (S n)
      | None => (acc, n, l)
      end
  | [] => (acc, n, [])
  end.

(** A case-insensitive prefix. *)
Fixpoint prefix_ci (p l : list ascii) : bool :=
  match p, l with
  | [], _ => true
  | c :: p', d :: l' => Ascii.eqb c (lower d) && prefix_ci p' l'
  | _ :: _, [] => false
  end.

Definition skip_space (l : list ascii) : list ascii := drop_while is_space l.

(** An optional sign: negative, and the rest. *)
Definition read_sign (l : list ascii) : bool * list ascii :=
  match l with
  | "-"%char :: l' => (true, l')
  | "+"%char :: l' => (false, l')
  | _ => (false, l)
  end.

(** An optional exponent: a letter of [letters], an optional sign and at
    least one decimal digit; [0] when absent. *)
Definition read_exponent (letters : list ascii) (l : list ascii) : Z :=
  match l with
  | c :: l' =>
      if existsb (Ascii.eqb c) letters then
        let '(neg, l'') := read_sign l' in
        let '(v, n, _) := read_digits digit_val 10 l'' 0 0 in
        if (n =? 0)%nat then 0 else if neg then - v else v
      else 0
  | [] => 0
  end.

(** A mantissa: digits with an optional point; the value of all its
    digits, their number, the number of digits after the point, the rest. *)
Definition read_mantissa (val : ascii -> option Z) (base : Z) (l : list ascii)
    : Z * nat * nat * list ascii :=
  let '(m1, n1, r1) := read_digits val base l 0 0 in
  match r1 with
  | "."%char :: r1' =>
      let '(m2, n2, r2) := read_digits val base r1' m1 0 in (m2, (n1 + n2)%nat, n2, r2)
  | _ => (m1, n1, O, r1)
  end.

(** Rounds [num / den > 0] (with sign [neg]) to the nearest double, ties
    to even: the double and [ERANGE]. [ERANGE]: an overflow to infinity,
    or a result below [2^-1022] (zero or subnormal) that is inexact. *)
Definition round_q (neg : bool) (num den : Z) : float * bool :=
  let '(mz, ez, lz) := SpecFloat.SFdiv_core_binary FloatOps.prec FloatOps.emax num 0 den 0 in
  let r := SpecFloat.binary_round_aux FloatOps.prec FloatOps.emax neg mz ez lz in
  let erange :=
    match r with
    | SpecFloat.S754_infinity _ | SpecFloat.S754_zero _ => true
    | SpecFloat.S754_finite _ m e =>
        (Z.pos (SpecFloat.digits2_pos m) <? FloatOps.prec) &&
        negb (Z.shiftl num (Z.max (- e) 0) =? Z.pos m * Z.shiftl den (Z.max e 0))
    | SpecFloat.S754_nan => false
    end in
  (FloatOps.SF2Prim r, erange).

Definition signed_zero (neg : bool) : float := if neg then (-0)%float else 0%float.

(** [strtod]: [None] when nothing is converted; else the double and
    [ERANGE]. Decimal and hexadecimal forms, [inf], [infinity] and [nan]
    (any case; [nan(...)] reads the same). *)
Definition strtod (s : string) : option (float * bool) :=
  let '(neg, l) := read_sign (skip_space (list_ascii_of_string s)) in
  let value (m : Z) (num_den : Z * Z) :=
    if m =? 0 then (signed_zero neg, false) else round_q neg num_den.1 num_den.2 in
  if prefix_ci ["i"; "n"; "f"]%char l then
    Some (if neg then (- PrimFloat.infinity)%float else PrimFloat.infinity, false)
  else if prefix_ci ["n"; "a"; "n"]%char l then Some (PrimFloat.nan, false)
  else
    match l with
    | "0"%char :: x :: l' =>
        if Ascii.eqb (lower x) "x"%char then
          let '(m, n, frac, r) := read_mantissa hex_val 16 l' in
          if (n =? 0)%nat then Some (signed_zero neg, false)
          else
            let b := read_exponent ["p"; "P"]%char r - 4 * Z.of_nat frac in
            Some (value m (Z.shiftl m (Z.max b 0), Z.shiftl 1 (Z.max (- b) 0)))
        else
          let '(m, n, frac, r) := read_mantissa digit_val 10 l in
          let e := read_exponent ["e"; "E"]%char r - Z.of_nat frac in
          Some (value m (m * 10 ^ Z.max e 0, 10 ^ Z.max (- e) 0))
    | _ =>
        let '(m, n, frac, r) := read_mantissa digit_val 10 l in
        if (n =? 0)%nat then None
        else
          let e := read_exponent ["e"; "E"]%char r - Z.of_nat frac in
          Some (value m (m * 10 ^ Z.max e 0, 10 ^ Z.max (- e) 0))
    end.

(** [std::stod]. *)
Definition stod (s : string) : option float :=
  match strtod s with
  | Some (f, false) => Some f
  | _ => None
  end.

(** [std::stoull]: [strtoull] in base 10; a minus sign negates the value
    modulo [2^64]; a magnitude above [2^64 - 1] is [ERANGE]. *)
Definition stoull (s : string) : option Z :=
  let '(neg, l) := read_sign (skip_space (list_ascii_of_string s)) in
  let '(v, n, _) := read_digits digit_val 10 l 0 0 in
  if (n =? 0)%nat then None
  else if 2 ^ 64 - 1 <? v then None
  else Some (if neg then (2 ^ 64 - v) mod 2 ^ 64 else v).

(** [std::stoll]: [strtoll] in base 10; a value outside [std::int64_t] is
    [ERANGE]. *)
Definition stoll (s : string) : option Z :=
  let '(neg, l) := read_sign (skip_space (list_ascii_of_string s)) in
  let '(v, n, _) := read_digits digit_val 10 l 0 0 in
  let v := if neg then - v else v in
  if (n =? 0)%nat then None
  else if (v <? - 2 ^ 63) || (2 ^ 63 - 1 <? v) then None
  else Some v.

End NumIO.

(* ================================================================== *)
(** ** JSON snapshot ([Leaderboard::save_to_json], [load_from_json]) *)

(** The file is its content, a string; opening it is not modelled (the
    claims are about files that open). *)
Module Snapshot.
Import Leaderboard NumIO.
Local Open Scope string_scope.

Definition dq : ascii := "034".
Definition bs : ascii := "092".
Definition nl : ascii := "010".

(** A string between quotes: the JSON key [key] is [quoted key]. *)
Definition quoted (s : string) : string := String dq (s ++ String dq EmptyString).

(** [escape_json]: a quote and a backslash are preceded by a backslash. *)
Fixpoint escape_json (s : string) : string :=
  match s with
  | EmptyString => EmptyString
  | String c s' =>
      if Ascii.eqb c dq then String bs (String dq (escape_json s'))
      else if Ascii.eqb c bs then String bs (String bs (escape_json s'))
      else String c (escape_json s')
  end.

(** *** Strings *)

(** [s.find(needle, pos)]: the first occurrence at or after [pos]. *)
Definition find (s needle : string) (pos : nat) : option nat := String.index pos needle s.

Definition find_char (s : string) (c : ascii) (pos : nat) : option nat :=
  find s (String c EmptyString) pos.

(** [s.find_first_of(set, pos)]. *)
Fixpoint find_first_of_go (set : list ascii) (s : string) (pos i : nat) : option nat :=
  match s with
  | EmptyString => None
  | String c s' =>
      if (pos <=? i)%nat && existsb (Ascii.eqb c) set then Some i
      else find_first_of_go set s' pos (S i)
  end.

Definition find_first_of (s : string) (set : list ascii) (pos : nat) : option nat :=
  find_first_of_go set s pos 0.

(** [s.substr(pos, len)], for [pos <= s.size()] (as in every call here):
    at most [len] characters from [pos]. *)
Definition substr (s : string) (pos len : nat) : string := substring pos len s.

(** [trim]: [substr] from [find_first_not_of(" \t\n\r")] to
    [find_last_not_of(" \t\n\r")]; [""] when there is no such character. *)
Definition is_blank (c : ascii) : bool :=
  existsb (Ascii.eqb c) [" "%char; "009"%char; nl; "013"%char].

Definition trim (s : string) : string :=
  string_of_list_ascii (rev (drop_while is_blank (rev (drop_while is_blank
    (list_ascii_of_string s))))).

(** [s.substr(colon + 1, end - colon - 1)] with [end] from
    [find_first_of]: up to [end], or to the end of [s] when [end] is
    [npos] (the length [npos - colon - 1] then exceeds what is left). *)
Definition value_after (s : string) (colon : nat) : string :=
  match find_first_of s [","%char; "}"%char; nl] (S colon) with
  | Some e => substr s (S colon) (e - colon - 1)
  | None => substr s (S colon) (String.length s - S colon)
  end.

(** *** [save_to_json] *)

Definition entry_line (n : SkipList.node) : string :=
  "    {" ++ quoted "user_id" ++ ": " ++ quoted (escape_json (SkipList.user_id n)) ++ ", " ++
  quoted "score" ++ ": " ++ show_double (SkipList.score n) ++ ", " ++
  quoted "last_update" ++ ": " ++ show_int64 (SkipList.last_update n) ++ "}".

(** The content written: [for_each] visits the nodes along [forward[0]]. *)
Definition save_to_json (lb : leaderboard) : string :=
  "{" ++ String nl EmptyString ++
  "  " ++ quoted "decay_factor" ++ ": " ++ show_double (TimeDecay.decay_factor_ (decay_ lb)) ++
    "," ++ String nl EmptyString ++
  "  " ++ quoted "max_users" ++ ": " ++ show_size (max_users_ lb) ++ "," ++ String nl EmptyString ++
  "  " ++ quoted "entries" ++ ": [" ++ String nl EmptyString ++
  String.concat ("," ++ String nl EmptyString) (map entry_line (SkipList.nodes0 (skip_list_ lb))) ++
  String nl EmptyString ++ "  ]" ++ String nl EmptyString ++
  "}" ++ String nl EmptyString.

(** *** [load_from_json] *)

(** [Threw]: an exception leaves [load_from_json]; the state is the one
    reached when it was thrown. *)
Inductive outcome := Returned | Threw.

(** The lambda [extract_numeric]. *)
Definition extract_numeric (content key : string) : option string :=
  match find content (quoted key) 0 with
  | None => None
  | Some key_pos =>
      match find_char content ":" key_pos with
      | None => None
      | Some colon => Some (trim (value_after content colon))
      end
  end.

(** The lambda [extract_value] on one object. *)
Definition extract_value (obj key : string) : option string :=
  match find obj (quoted key) 0 with
  | None => None
  | Some key_position =>
      match find_char obj ":" key_position with
      | None => None
      | Some colon_pos =>
          if String.eqb key "user_id" then
            match find_char obj dq (S colon_pos) with
            | None => None
            | Some first_quote =>
                match find_char obj dq (S first_quote) with
                | None => None
                | Some second_quote =>
                    Some (substr obj (S first_quote) (second_quote - first_quote - 1))
                end
            end
          else Some (trim (value_after obj colon_pos))
      end
  end.

(** The three fields of an object, when all are present. *)
Definition fields (obj : string) : option (string * string * string) :=
  match extract_value obj "user_id", extract_value obj "score",
        extract_value obj "last_update" with
  | Some user, Some score, Some ts => Some (user, score, ts)
  | _, _, _ => None
  end.

Definition set_skip_list (lb : leaderboard) (sl : SkipList.skip_list) : leaderboard :=
  mk_leaderboard sl (decay_ lb) (max_users_ lb).

(** The header: [decay_factor], then [max_users]. *)
Definition load_header (lb : leaderboard) (content : string) : outcome * leaderboard :=
  let lb1 :=
    match extract_numeric content "decay_factor" with
    | None => Some lb
    | Some v =>
        match stod v with
        | None => None
        | Some d =>
            match TimeDecay.create d with
            | None => None
            | Some td => Some (mk_leaderboard (skip_list_ lb) td (max_users_ lb))
            end
        end
    end in
  match lb1 with
  | None => (Threw, lb)
  | Some lb1 =>
      match extract_numeric content "max_users" with
      | None => (Returned, lb1)
      | Some v =>
          match stoull v with
          | None => (Threw, lb1)
          | Some m => (Returned, mk_leaderboard (skip_list_ lb1) (decay_ lb1) m)
          end
      end
  end.

(** The [entries] array: the text between its brackets. *)
Definition entries_block (content : string) : option string :=
  match find content (quoted "entries") 0 with
  | None => None
  | Some entries_pos =>
      match find_char content "[" entries_pos with
      | None => None
      | Some array_start =>
          match find_char content "]" array_start with
          | None => None
          | Some array_end => Some (substr content (S array_start) (array_end - array_start - 1))
          end
      end
  end.

(** The [while (true)] loop over the objects of the block; [pos] grows at
    each round, so [S (length block)] rounds are enough. *)
Fixpoint load_entries (fuel : nat) (block : string) (pos : nat) (sl : SkipList.skip_list)
    : outcome * SkipList.skip_list :=
  match fuel with
  | O => (Returned, sl)
  | S fuel' =>
      match find_char block "{" pos with
      | None => (Returned, sl)
      | Some obj_start =>
          match find_char block "}" obj_start with
          | None => (Returned, sl)
          | Some obj_end =>
              let obj := substr block (S obj_start) (obj_end - obj_start - 1) in
              match fields obj with
              | Some (user, score_s, ts_s) =>
                  match stod score_s with
                  | None => (Threw, sl)
                  | Some score =>
                      match stoll ts_s with
                      | None => (Threw, sl)
                      | Some ts =>
                          load_entries fuel' block (S obj_end) (SkipList.upsert sl user score ts)
                      end
                  end
              | None => load_entries fuel' block (S obj_end) sl
              end
          end
      end
  end.

(** The objects the loop visits. *)
Fixpoint objects (fuel : nat) (block : string) (pos : nat) : list string :=
  match fuel with
  | O => []
  | S fuel' =>
      match find_char block "{" pos with
      | None => []
      | Some obj_start =>
          match find_char block "}" obj_start with
          | None => []
          | Some obj_end =>
              substr block (S obj_start) (obj_end - obj_start - 1) ::
              objects fuel' block (S obj_end)
          end
      end
  end.

Definition file_objects (content : string) : list string :=
  match entries_block content with
  | None => []
  | Some block => objects (S (String.length block)) block 0
  end.

Definition load_from_json (lb : leaderboard) (content : string) : outcome * leaderboard :=
  match load_header lb content with
  | (Threw, lb1) => (Threw, lb1)
  | (Returned, lb1) =>
      let sl := SkipList.clear (skip_list_ lb1) in
      match entries_block content with
      | None => (Returned, set_skip_list lb1 sl)
      | Some block =>
          let '(o, sl') := load_entries (S (String.length block)) block 0 sl in
          (o, set_skip_list lb1 sl')
      end
  end.

End Snapshot.

(** Example leaderboards and snapshot files. *)
Definition lb_quote : Leaderboard.leaderboard :=
  Leaderboard.mk_leaderboard
    (SkipList.upsert sl_example (String "a" (String Snapshot.dq (String "b" EmptyString))) 1 1)
    (TimeDecay.mk_time_decay 0.5) 10.

Definition lb_backslash : Leaderboard.leaderboard :=
  Leaderboard.mk_leaderboard
    (SkipList.upsert sl_example (String "a" (String Snapshot.bs (String "b" EmptyString))) 1 1)
    (TimeDecay.mk_time_decay 0.5) 10.

Definition lb_one : Leaderboard.leaderboard :=
  Leaderboard.mk_leaderboard (SkipList.upsert sl_example "a" 1 1) (TimeDecay.mk_time_decay 0.5) 10.

Definition content_no_entries : string :=
  ("{" ++ Snapshot.quoted "decay_factor" ++ ": 0.25}")%string.

Definition content_bad_max_users : string :=
  ("{" ++ Snapshot.quoted "decay_factor" ++ ": 0.25, " ++ Snapshot.quoted "max_users" ++ ": x}")%string.


(** An example leaderboard for the queries: the list of [ops_example]. *)
Definition lb_queries_example : Leaderboard.leaderboard :=
  Leaderboard.mk_leaderboard (SkipList.run sl_example ops_example)
    (TimeDecay.mk_time_decay 0.5) 10.

(** The list of [ops_example] (users "c", "a", "b") at a capacity of 3:
    the leaderboard is full. *)
Definition lb_full : Leaderboard.leaderboard :=
  Leaderboard.mk_leaderboard (SkipList.run sl_example ops_example)
    (TimeDecay.mk_time_decay 0.5) 3.

(** The same three users at a capacity of 2, as a snapshot file. *)
Definition content_over_capacity : string :=
  Snapshot.save_to_json
    (Leaderboard.mk_leaderboard (SkipList.run sl_example ops_example)
       (TimeDecay.mk_time_decay 0.5) 2).

(* ================================================================== *)
(** ** Event statistics ([event_processor/src/event_processor.cpp]) *)

Module EventProcessor.

Definition kWindowSpanSeconds : Z := 3600.
Definition kBucketSpanSeconds : Z := 60.

(** [bucket_start]; [clock_now] is the value of [system_clock::now()] in
    seconds, read when [timestamp <= 0]. The division truncates. *)
Definition bucket_start (timestamp clock_now : Z) : Z :=
  let timestamp := if timestamp <=? 0 then clock_now else timestamp in
  Z.quot timestamp kBucketSpanSeconds * kBucketSpanSeconds.

Record event := mk_event {
  event_type : string;
  user_id : string;
  channel_id : string;
  timestamp : Z }.

(** [HyperLogLogWindow]. *)
Record window := mk_window {
  window_start : Z;
  sketch : HLL.hll }.

(** The members guarded by [stats_mutex_], with [channel_frequency_]. *)
Record stats := mk_stats {
  channel_frequency_ : CMS.cms;
  windows_ : list window;
  channel_counts_ : gmap string Z }.

(** [HyperLogLog()]: the precision [14]. *)
Definition hll_default : HLL.hll := HLL.mk_hll 14 (replicate (Z.to_nat (2 ^ 14)) 0).

(** The loop popping the windows in front that start before [cutoff]. *)
Fixpoint drop_old (cutoff : Z) (ws : list window) : list window :=
  match ws with
  | w :: ws' => if window_start w <? cutoff then drop_old cutoff ws' else ws
  | [] => []
  end.

(** [std::sort] by [window_start]: where it is called, the starts are
    distinct, so every sort gives this result. *)
Fixpoint insert_window (w : window) (ws : list window) : list window :=
  match ws with
  | [] => [w]
  | v :: ws' => if window_start w <=? window_start v then w :: ws else v :: insert_window w ws'
  end.

Definition sort_windows (ws : list window) : list window := foldr insert_window [] ws.

(** [process_event]; [clock_now] as in [bucket_start]. [channel_counts_]
    holds [std::uint64_t] counters. *)
Definition process_event (st : stats) (e : event) (clock_now : Z) : stats :=
  let bucket := bucket_start (timestamp e) clock_now in
  let cutoff := bucket - kWindowSpanSeconds in
  let cf := CMS.increment (channel_frequency_ st) (channel_id e) 1 in
  let counts := <[ channel_id e := u64 (default 0 (channel_counts_ st !! channel_id e) + 1) ]>
                  (channel_counts_ st) in
  let ws := drop_old cutoff (windows_ st) in
  let ws :=
    match list_find (fun w => window_start w = bucket) ws with
    | None => sort_windows (ws ++ [mk_window bucket (HLL.add hll_default (user_id e))])
    | Some (i, w) => <[ i := mk_window (window_start w) (HLL.add (sketch w) (user_id e)) ]> ws
    end in
  mk_stats cf ws counts.

(** [process_event] on a sequence of events, each with its clock value. *)
Definition process_events (st : stats) (evs : list (event * Z)) : stats :=
  fold_left (fun st '(e, clk) => process_event st e clk) evs st.

(** What [get_unique_users_last_hour] computes before [cardinality()]:
    the windows left after popping those older than an hour, and
    [aggregate] after merging their sketches ([None]: a [merge] throws). *)
Definition unique_users_aggregate (st : stats) (now_seconds : Z) : option HLL.hll * stats :=
  let cutoff := now_seconds - kWindowSpanSeconds in
  let ws := drop_old cutoff (windows_ st) in
  (fold_left (fun acc w => acc ≫= fun a => HLL.merge a (sketch w)) ws (Some hll_default),
   mk_stats (channel_frequency_ st) ws (channel_counts_ st)).

End EventProcessor.

(** The statistics of a new [EventStreamProcessor]: [CountMinSketch()]
    and no windows, no counts. *)
Definition stats_example : EventProcessor.stats :=
  EventProcessor.mk_stats (CMS.mk_cms 2048 4 12345 (replicate (Z.to_nat (2048 * 4)) 0)) [] ∅.

Definition events_example : list (EventProcessor.event * Z) :=
  [(EventProcessor.mk_event "view" "u1" "c1" 7210, 0);
   (EventProcessor.mk_event "view" "u2" "c1" 100, 0);
   (EventProcessor.mk_event "like" "u3" "c2" 7230, 0)].
(* ================================================================== *)
(** * Properties *)

(* ------------------------------------------------------------------ *)
(** ** Count-Min Sketch *)

Module CMSFacts.
Import CMS.

(** A loop that rewrites, at pairwise distinct indices, each addressed
    element through [g]. *)
Lemma fold_write_lookup {A} (f : A -> nat) (g : Z -> Z) (rs : list A) (t : list Z) (j : nat) :
  NoDup (f <$> rs) ->
  fold_left (fun t i => <[ f i := g (default 0 (t !! f i)) ]> t) rs t !! j =
  if decide (j ∈ f <$> rs) then g <$> (t !! j) else t !! j.
Proof.
  revert t. induction rs as [|r rs IH]; intros t Hnd; simpl.
  - destruct (decide (j ∈ [])) as [Hin|]; [inversion Hin|reflexivity].
  - inversion Hnd as [|? ? Hnotin Hnd']; subst.
    rewrite IH by exact Hnd'.
    destruct (decide (j = f r)) as [->|Hne].
    + rewrite (decide_False (P := f r ∈ f <$> rs)) by exact Hnotin.
      rewrite decide_True by (simpl; left).
      destruct (decide (f r < length t)%nat) as [Hlt|Hge].
      * rewrite list_lookup_insert_eq by exact Hlt.
        destruct (lookup_lt_is_Some_2 t (f r) Hlt) as [v Hv]. rewrite Hv. reflexivity.
      * rewrite list_insert_ge by lia. rewrite lookup_ge_None_2 by lia. reflexivity.
    + rewrite list_lookup_insert_ne by congruence.
      destruct (decide (j ∈ f <$> rs)) as [Hin|Hin].
      * rewrite decide_True by (simpl; right; exact Hin). reflexivity.
      * rewrite decide_False; [reflexivity|].
        simpl. intros Hin'. apply elem_of_cons in Hin' as [?|?]; contradiction.
Qed.

Lemma fold_write_length {A} (f : A -> nat) (g : Z -> Z) (rs : list A) (t : list Z) :
  length (fold_left (fun t i => <[ f i := g (default 0 (t !! f i)) ]> t) rs t) = length t.
Proof.
  revert t. induction rs as [|r rs IH]; intros t; simpl; [reflexivity|].
  rewrite IH. apply length_insert.
Qed.

Definition valid_dims (w d : Z) : Prop :=
  (exists j, 0 <= j /\ w = 2 ^ j) /\ 1 <= d /\ w * d <= UINT64_MAX.

Lemma cell_bounds (c : cms) (k : string) (i : Z) :
  valid_dims (width c) (depth c) -> 0 <= i < depth c ->
  cell c k i = i * width c + hash c k i mod width c /\
  i * width c <= cell c k i < i * width c + width c.
Proof.
  intros [[j [Hj Hw]] [Hd Hwd]] Hi. unfold cell.
  assert (Hwpos : 0 < width c) by (rewrite Hw; apply Z.pow_pos_nonneg; lia).
  assert (Hm : u64 (width c - 1) = Z.ones j).
  { unfold u64. rewrite Z.ones_equiv, <- Hw. apply Z.mod_small. unfold UINT64_MAX in Hwd. nia. }
  rewrite Hm, Z.land_ones by exact Hj. rewrite <- Hw.
  pose proof (Z.mod_pos_bound (hash c k i) (width c) Hwpos).
  assert (Hlt : i * width c + width c <= width c * depth c) by nia.
  unfold u64. rewrite Z.mod_small by (unfold UINT64_MAX in Hwd; nia).
  split; [reflexivity|lia].
Qed.

Lemma cells_nodup (c : cms) (k : string) :
  valid_dims (width c) (depth c) ->
  NoDup ((fun i => Z.to_nat (cell c k i)) <$> rows c).
Proof.
  intros Hv. unfold rows. rewrite <- list_fmap_compose.
  apply NoDup_fmap_2_strong; [|apply NoDup_seq].
  intros x y Hx Hy Heq.
  apply elem_of_seq in Hx, Hy.
  pose proof (cell_bounds c k (Z.of_nat x) Hv ltac:(lia)) as [_ Bx].
  pose proof (cell_bounds c k (Z.of_nat y) Hv ltac:(lia)) as [_ By].
  destruct (decide (x = y)) as [|Hne]; [assumption|exfalso].
  destruct Hv as [[j [Hj Hw]] _].
  assert (0 < width c) by (rewrite Hw; apply Z.pow_pos_nonneg; lia).
  assert (Hc : cell c k (Z.of_nat x) = cell c k (Z.of_nat y)).
  { apply Z2Nat.inj; [nia|nia|exact Heq]. }
  destruct (Nat.lt_ge_cases x y); nia.
Qed.

Lemma in_rows (c : cms) (i : Z) :
  0 <= depth c -> (i ∈ rows c <-> 0 <= i < depth c).
Proof.
  intros Hd. unfold rows. rewrite list_elem_of_fmap. split.
  - intros [n [-> Hn]]. apply elem_of_seq in Hn. lia.
  - intros Hi. exists (Z.to_nat i). split; [lia|]. apply elem_of_seq. lia.
Qed.

Lemma increment_lookup (c : cms) (k : string) (n : Z) (j : nat) :
  valid_dims (width c) (depth c) ->
  table (increment c k n) !! j =
  if decide (j ∈ (fun i => Z.to_nat (cell c k i)) <$> rows c)
  then (fun v => u64 (v + n)) <$> (table c !! j) else table c !! j.
Proof.
  intros Hv. unfold increment. simpl.
  apply (fold_write_lookup (fun i => Z.to_nat (cell c k i)) (fun v => u64 (v + n))).
  apply cells_nodup, Hv.
Qed.

(** The invariant of a reachable sketch, with [lb k] a lower bound of every
    counter addressed by [k]. *)
Definition inv (w d : Z) (c : cms) (lb : string -> Z) : Prop :=
  width c = w /\ depth c = d /\ length (table c) = Z.to_nat (w * d) /\
  (forall j v, table c !! j = Some v -> 0 <= v <= UINT64_MAX) /\
  (forall k i, 0 <= i < d ->
     exists v, table c !! Z.to_nat (cell c k i) = Some v /\ lb k <= v).

Lemma cell_in_table (c : cms) (k : string) (i : Z) :
  valid_dims (width c) (depth c) -> 0 <= i < depth c ->
  (Z.to_nat (cell c k i) < Z.to_nat (width c * depth c))%nat.
Proof.
  intros Hv Hi. pose proof (cell_bounds c k i Hv Hi) as [_ B].
  destruct Hv as [[j [Hj Hw]] _].
  assert (0 < width c) by (rewrite Hw; apply Z.pow_pos_nonneg; lia).
  apply Z2Nat.inj_lt; nia.
Qed.

Lemma inv_increment (w d : Z) (c : cms) (lb : string -> Z) (k : string) (n : Z) :
  valid_dims w d -> inv w d c lb -> 0 <= n <= UINT64_MAX ->
  (forall i, 0 <= i < depth c ->
     default 0 (table c !! Z.to_nat (cell c k i)) + n <= UINT64_MAX) ->
  inv w d (increment c k n) (fun k' => lb k' + if String.eqb k k' then n else 0).
Proof.
  intros Hv (Hw & Hd & Hlen & Hrange & Hlb) Hn Hno.
  assert (Hv' : valid_dims (width c) (depth c)) by (rewrite Hw, Hd; exact Hv).
  split; [exact Hw|]. split; [exact Hd|].
  split; [unfold increment; simpl; rewrite (fold_write_length (fun i => Z.to_nat (cell c k i)) (fun v => u64 (v + n))); exact Hlen|].
  split.
  - intros j v Hj. rewrite increment_lookup in Hj by exact Hv'.
    destruct (decide _).
    + destruct (table c !! j) as [v0|]; simpl in Hj; [|discriminate].
      injection Hj as <-. unfold u64, UINT64_MAX. pose proof (Z.mod_pos_bound (v0 + n) (2^64)). lia.
    + eapply Hrange. exact Hj.
  - intros k' i Hi.
    assert (Hcell : cell (increment c k n) k' i = cell c k' i) by reflexivity.
    rewrite Hcell, increment_lookup by exact Hv'.
    destruct (Hlb k' i Hi) as [v [Hv0 Hle]].
    destruct (decide _) as [Hin|Hnin].
    + rewrite Hv0. simpl.
      apply list_elem_of_fmap in Hin as [i' [Hi'eq Hi']].
      apply in_rows in Hi'; [|lia].
      specialize (Hno i' Hi'). rewrite <- Hi'eq, Hv0 in Hno. simpl in Hno.
      pose proof (Hrange _ _ Hv0).
      eexists. split; [reflexivity|].
      unfold u64. rewrite Z.mod_small by (unfold UINT64_MAX in Hno; lia).
      destruct (String.eqb k k'); lia.
    + exists v. split; [exact Hv0|].
      destruct (String.eqb_spec k k') as [<-|]; [|lia].
      exfalso. apply Hnin. apply list_elem_of_fmap. exists i. split; [reflexivity|].
      apply in_rows; lia.
Qed.

Lemma inv_ext (w d : Z) (c : cms) (lb lb' : string -> Z) :
  (forall k, lb k = lb' k) -> inv w d c lb -> inv w d c lb'.
Proof.
  intros Heq (H1 & H2 & H3 & H4 & H5). repeat (split; [assumption|]).
  intros k i Hi. destruct (H5 k i Hi) as [v [Hv Hle]]. exists v. rewrite <- Heq. auto.
Qed.

Lemma inv_run (w d : Z) (ops : list (string * Z)) :
  valid_dims w d ->
  forall c lb, inv w d c lb -> no_overflow c ops ->
  inv w d (run c ops) (fun k => lb k + true_count ops k).
Proof.
  intros Hv. induction ops as [|[k' n] ops IH]; intros c lb Hinv Hno; simpl.
  - eapply inv_ext; [|exact Hinv]. intros k. simpl. lia.
  - destruct Hno as (Hn & Hcells & Hno).
    pose proof (inv_increment w d c lb k' n Hv Hinv Hn Hcells) as Hinv'.
    specialize (IH _ _ Hinv' Hno).
    eapply inv_ext; [|exact IH]. intros k. simpl. lia.
Qed.

Lemma inv_create (w d s : Z) (c : cms) :
  create w d s = Some c -> valid_dims w d -> inv w d c (fun _ => 0).
Proof.
  unfold create. intros Hc Hv.
  destruct (negb _); [discriminate|]. destruct (d =? 0); [discriminate|].
  injection Hc as <-.
  pose proof Hv as [[j [Hj Hw]] [Hd Hwd]].
  assert (0 < w) by (rewrite Hw; apply Z.pow_pos_nonneg; lia).
  assert (Hu : u64 (w * d) = w * d).
  { unfold u64. apply Z.mod_small. unfold UINT64_MAX in Hwd. nia. }
  simpl. rewrite Hu. split; [reflexivity|]. split; [reflexivity|].
  split; [apply length_replicate|]. split.
  - intros jj v Hjj. apply lookup_replicate in Hjj as [-> _]. unfold UINT64_MAX. lia.
  - intros k i Hi. exists 0. split; [|lia].
    apply lookup_replicate. split; [reflexivity|].
    apply (cell_in_table (mk_cms w d s (replicate (Z.to_nat (w * d)) 0)) k i); simpl; auto.
Qed.

Lemma fold_min_le (g : Z -> Z) (rs : list Z) (r0 : Z) :
  fold_left (fun r i => Z.min r (g i)) rs r0 <= r0 /\
  (forall i, i ∈ rs -> fold_left (fun r i => Z.min r (g i)) rs r0 <= g i).
Proof.
  revert r0. induction rs as [|x rs IH]; intros r0; simpl.
  - split; [lia|]. intros i Hi. inversion Hi.
  - destruct (IH (Z.min r0 (g x))) as [H1 H2]. split; [lia|].
    intros i Hi. apply elem_of_cons in Hi as [->|Hi]; [lia|auto].
Qed.

Lemma fold_min_ge (g : Z -> Z) (rs : list Z) (r0 lb : Z) :
  lb <= r0 -> (forall i, i ∈ rs -> lb <= g i) ->
  lb <= fold_left (fun r i => Z.min r (g i)) rs r0.
Proof.
  revert r0. induction rs as [|x rs IH]; intros r0 H0 Hg; simpl; [exact H0|].
  apply IH; [|intros i Hi; apply Hg; right; exact Hi].
  apply Z.min_glb; [exact H0|]. apply Hg. left.
Qed.

Lemma estimate_spec (w d : Z) (c : cms) (lb : string -> Z) (k : string) :
  valid_dims w d -> inv w d c lb ->
  lb k <= estimate c k \/
  ((forall i, 0 <= i < d -> table c !! Z.to_nat (cell c k i) = Some UINT64_MAX) /\
   estimate c k = 0).
Proof.
  intros Hv (Hw & Hd & Hlen & Hrange & Hlb).
  pose proof Hv as (_ & Hd1 & _).
  set (g := fun i => default 0 (table c !! Z.to_nat (cell c k i))).
  assert (Hg : forall i, 0 <= i < d -> lb k <= g i /\ g i <= UINT64_MAX).
  { intros i Hi. destruct (Hlb k i Hi) as [v [Hv' Hle]]. unfold g. rewrite Hv'.
    simpl. pose proof (Hrange _ _ Hv'). lia. }
  assert (Hrows : forall i, i ∈ rows c <-> 0 <= i < d).
  { intros i. rewrite <- Hd. apply in_rows. lia. }
  assert (Hest : estimate c k =
    let r := fold_left (fun r i => Z.min r (g i)) (rows c) UINT64_MAX in
    if r =? UINT64_MAX then 0 else r) by reflexivity.
  rewrite Hest. cbv zeta.
  destruct (fold_min_le g (rows c) UINT64_MAX) as [Hle0 Hlei].
  destruct (Z.eqb_spec (fold_left (fun r i => Z.min r (g i)) (rows c) UINT64_MAX) UINT64_MAX)
    as [Heq|Hne].
  - right. split; [|reflexivity].
    intros i Hi. specialize (Hlei i (proj2 (Hrows i) Hi)). rewrite Heq in Hlei.
    destruct (Hlb k i Hi) as [v [Hv' _]]. unfold g in Hlei. rewrite Hv' in Hlei |- *.
    simpl in Hlei. pose proof (Hrange _ _ Hv'). f_equal. lia.
  - left. apply fold_min_ge.
    + destruct (Hg 0 ltac:(lia)). lia.
    + intros i Hi. apply Hg, Hrows, Hi.
Qed.

End CMSFacts.

(* ------------------------------------------------------------------ *)
(** ** HyperLogLog *)

Module HLLFacts.
Import HLL.

Lemma rho_loop_zero (fuel : nat) (c m : Z) :
  c <= m + 1 -> (Z.to_nat (m + 1 - c) < fuel)%nat -> rho_loop fuel 0 c m = m + 1.
Proof.
  revert c. induction fuel as [|fuel IH]; intros c Hc Hf; [lia|].
  cbn [rho_loop]. destruct (Z.leb_spec c m) as [Hle|Hgt].
  - try rewrite Z.testbit_0_l.
    try (replace (u64 (Z.shiftl 0 1)) with 0 by reflexivity). apply IH; lia.
  - lia.
Qed.

Lemma rho_loop_le (fuel : nat) (x c m t : Z) :
  0 <= x < 2 ^ 64 -> 0 <= t <= 63 -> c + t <= m -> Z.testbit x (63 - t) = true ->
  (Z.to_nat t < fuel)%nat -> rho_loop fuel x c m <= c + t.
Proof.
  revert x c t. induction fuel as [|fuel IH]; intros x c t Hx Ht Hct Hbit Hf; [lia|].
  cbn [rho_loop]. rewrite (proj2 (Z.leb_le c m)) by lia.
  destruct (Z.testbit x 63) eqn:H63; [lia|].
  assert (Ht0 : t <> 0) by (intros ->; rewrite Z.sub_0_r in Hbit; congruence).
  assert (IHapp : rho_loop fuel (u64 (Z.shiftl x 1)) (c + 1) m <= c + 1 + (t - 1)).
  { apply IH; try lia.
    - unfold u64. apply Z.mod_pos_bound. lia.
    - unfold u64. rewrite Z.mod_pow2_bits_low by lia.
      rewrite Z.shiftl_spec by lia.
      replace (63 - (t - 1) - 1) with (63 - t) by lia. exact Hbit. }
  lia.
Qed.

Lemma rho_loop_bounds (fuel : nat) (x c m : Z) :
  1 <= c -> 1 <= rho_loop fuel x c m <= Z.max c (m + 1).
Proof.
  revert x c. induction fuel as [|fuel IH]; intros x c Hc; cbn [rho_loop]; [lia|].
  destruct (c <=? m) eqn:Hcm; [|lia].
  destruct (Z.testbit x 63); [lia|].
  apply Z.leb_le in Hcm. specialize (IH (u64 (Z.shiftl x 1)) (c + 1)). lia.
Qed.

(** The value [add] computes for a hash at precision [p]. *)
Lemma rho_remaining (p h : Z) :
  1 <= p <= 63 -> 0 <= h < 2 ^ 64 ->
  let remaining := u64 (Z.shiftl h p) in
  (remaining <> 0 /\ 1 <= rho remaining (64 - p) <= 64 - p) \/
  (remaining = 0 /\ rho remaining (64 - p) = 65 - p).
Proof.
  intros Hp Hh remaining.
  assert (Hr : 0 <= remaining < 2 ^ 64) by (apply Z.mod_pos_bound; lia).
  destruct (Z.eq_dec remaining 0) as [H0|Hn0].
  - right. split; [exact H0|]. unfold rho. rewrite H0.
    replace (65 - p) with (64 - p + 1) by lia. apply rho_loop_zero; lia.
  - left. split; [exact Hn0|].
    assert (Hmod : remaining mod 2 ^ p = 0).
    { unfold remaining, u64. rewrite Z.shiftl_mul_pow2 by lia.
      rewrite Z.mod_mod_divide
        by (exists (2 ^ (64 - p)); rewrite <- Z.pow_add_r by lia; f_equal; lia).
      apply Z.mod_mul. apply Z.pow_nonzero; lia. }
    assert (Hge : 2 ^ p <= remaining).
    { destruct (Z_lt_ge_dec remaining (2 ^ p)) as [Hlt|]; [|lia].
      rewrite Z.mod_small in Hmod by lia. contradiction. }
    assert (Hlog : p <= Z.log2 remaining).
    { rewrite <- (Z.log2_pow2 p) by lia. apply Z.log2_le_mono. exact Hge. }
    assert (Hlog' : Z.log2 remaining < 64) by (apply Z.log2_lt_pow2; lia).
    split.
    + pose proof (rho_loop_bounds (S (Z.to_nat (64 - p))) remaining 1 (64 - p)). unfold rho. lia.
    + unfold rho.
      pose proof (rho_loop_le (S (Z.to_nat (64 - p))) remaining 1 (64 - p) (63 - Z.log2 remaining)
                    Hr ltac:(lia) ltac:(lia)) as H.
      replace (63 - (63 - Z.log2 remaining)) with (Z.log2 remaining) in H by lia.
      specialize (H (Z.bit_log2 remaining ltac:(lia)) ltac:(lia)). lia.
Qed.


Lemma hash_value_range (v : string) : 0 <= hash_value v < 2 ^ 64.
Proof.
  unfold hash_value, Murmur.murmurhash3_64.
  destruct (Murmur.body _ _ _) as [h tl]. destruct (Murmur.tail_step h tl) as [h1 h2].
  apply Z.mod_pos_bound. lia.
Qed.

(** The register [add] selects and the value it offers it. *)
Definition idx (p : Z) (v : string) : nat := Z.to_nat (Z.shiftr (hash_value v) (64 - p)).
Definition rk (p : Z) (v : string) : Z := rho (u64 (Z.shiftl (hash_value v) p)) (64 - p).

Lemma precision_add (s : hll) (v : string) : precision (add s v) = precision s.
Proof. reflexivity. Qed.

Lemma hll_eq (a b : hll) : precision a = precision b -> registers a = registers b -> a = b.
Proof. destruct a, b; simpl; congruence. Qed.

Lemma add_lookup (s : hll) (v : string) (j : nat) :
  registers (add s v) !! j =
  if decide (idx (precision s) v = j)
  then (fun r0 => Z.max r0 (rk (precision s) v)) <$> registers s !! j
  else registers s !! j.
Proof.
  unfold add. cbn [registers precision]. fold (idx (precision s) v) (rk (precision s) v).
  destruct (decide (idx (precision s) v = j)) as [<-|Hne].
  - destruct (decide (idx (precision s) v < length (registers s))%nat) as [Hlt|Hge].
    + rewrite list_lookup_insert_eq by exact Hlt.
      destruct (lookup_lt_is_Some_2 _ _ Hlt) as [r Hr]. rewrite Hr. reflexivity.
    + rewrite list_insert_ge by lia. rewrite lookup_ge_None_2 by lia. reflexivity.
  - apply list_lookup_insert_ne. exact Hne.
Qed.

Lemma add_idem (s : hll) (v : string) : add (add s v) v = add s v.
Proof.
  apply hll_eq; [reflexivity|]. apply list_eq. intros j.
  repeat (rewrite add_lookup || rewrite precision_add).
  destruct (decide (idx (precision s) v = j)); [|reflexivity].
  destruct (registers s !! j); simpl; [f_equal; lia|reflexivity].
Qed.

Lemma add_comm (s : hll) (u v : string) : add (add s u) v = add (add s v) u.
Proof.
  apply hll_eq; [reflexivity|]. apply list_eq. intros j.
  repeat (rewrite add_lookup || rewrite precision_add).
  destruct (decide (idx (precision s) u = j)), (decide (idx (precision s) v = j));
    destruct (registers s !! j); simpl; try reflexivity; f_equal; lia.
Qed.

(** The greatest of [r0] and the elements of a list. *)
Lemma fold_max_ub (l : list Z) (r0 : Z) :
  r0 <= fold_left Z.max l r0 /\ (forall x, x ∈ l -> x <= fold_left Z.max l r0).
Proof.
  revert r0. induction l as [|y l IH]; intros r0; simpl.
  - split; [lia|]. intros x Hx. inversion Hx.
  - destruct (IH (Z.max r0 y)) as [H1 H2]. split; [lia|].
    intros x Hx. apply elem_of_cons in Hx as [->|Hx]; [lia|]. apply H2, Hx.
Qed.

Lemma fold_max_cases (l : list Z) (r0 : Z) :
  fold_left Z.max l r0 = r0 \/ fold_left Z.max l r0 ∈ l.
Proof.
  revert r0. induction l as [|y l IH]; intros r0; simpl; [left; reflexivity|].
  destruct (IH (Z.max r0 y)) as [->|Hin].
  - destruct (Z.max_spec r0 y) as [[_ ->]|[_ ->]]; [right; left|left; reflexivity].
  - right. right. exact Hin.
Qed.

Lemma fold_max_same (l1 l2 : list Z) (r0 : Z) :
  (forall x, x ∈ l1 <-> x ∈ l2) -> fold_left Z.max l1 r0 = fold_left Z.max l2 r0.
Proof.
  intros Hsame.
  destruct (fold_max_ub l1 r0) as [Ha1 Hb1], (fold_max_ub l2 r0) as [Ha2 Hb2].
  apply Z.le_antisymm.
  - destruct (fold_max_cases l1 r0) as [->|Hin]; [exact Ha2|]. apply Hb2, Hsame, Hin.
  - destruct (fold_max_cases l2 r0) as [->|Hin]; [exact Ha1|]. apply Hb1, Hsame, Hin.
Qed.

Lemma run_precision (s : hll) (vs : list string) : precision (run s vs) = precision s.
Proof.
  unfold run. revert s. induction vs as [|v vs IH]; intros s; [reflexivity|].
  simpl. rewrite IH. reflexivity.
Qed.

(** Register [j] after a run: its start value raised to every rank offered
    to it. *)
Lemma run_lookup (s : hll) (vs : list string) (j : nat) :
  registers (run s vs) !! j =
  (fun r0 => fold_left Z.max (rk (precision s) <$> filter (fun v => idx (precision s) v = j) vs) r0)
    <$> registers s !! j.
Proof.
  unfold run. revert s. induction vs as [|v vs IH]; intros s.
  - simpl. destruct (registers s !! j); reflexivity.
  - cbn [fold_left]. rewrite IH, precision_add, add_lookup, filter_cons.
    destruct (decide (idx (precision s) v = j)); destruct (registers s !! j); reflexivity.
Qed.

End HLLFacts.

(* ------------------------------------------------------------------ *)
(** ** Ring buffer *)

Module RingFacts.
Import Ring.

(** A round of [pop]'s loop that sees [diff > 0] reloads [dequeue_pos_]
    and goes round again. *)
Lemma pop_loop_retry {T} (fuel : nat) (r : ring T) (pos : Z) :
  0 < diff64 (default 0 (sequence r !! cell r pos)) (u64 (pos + 1)) ->
  pop_loop (S fuel) r pos = pop_loop fuel r (dequeue_pos_ r).
Proof.
  intros Hd. cbn [pop_loop].
  destruct (Z.eqb_spec (diff64 (default 0 (sequence r !! cell r pos)) (u64 (pos + 1))) 0); [lia|].
  destruct (Z.ltb_spec (diff64 (default 0 (sequence r !! cell r pos)) (u64 (pos + 1))) 0); [lia|].
  reflexivity.
Qed.

(** A state where [pop] at the current [dequeue_pos_] sees [diff > 0]
    never returns. *)
Lemma pop_spins {T} (r : ring T) :
  0 < diff64 (default 0 (sequence r !! cell r (dequeue_pos_ r))) (u64 (dequeue_pos_ r + 1)) ->
  forall fuel, pop fuel r = None.
Proof.
  intros Hd fuel. unfold pop. induction fuel as [|fuel IH]; [reflexivity|].
  rewrite pop_loop_retry by exact Hd. exact IH.
Qed.

End RingFacts.

(* ------------------------------------------------------------------ *)
(** ** Positive doubles: enough of the binary64 rounding of [SpecFloat] *)

Module FloatFacts.
Import SpecFloat.




Lemma digits2_pos_size (p : positive) : digits2_pos p = Pos.size p.
Proof. induction p as [p IH|p IH|]; simpl; rewrite ?IH; reflexivity. Qed.

Lemma Zdigits2_log2 (m : Z) : 0 < m -> Zdigits2 m = Z.log2 m + 1.
Proof.
  intros Hm. destruct m as [|p|p]; try lia. simpl. rewrite digits2_pos_size.
  destruct p; simpl; lia.
Qed.

Lemma shr_1_m (mrs : shr_record) :
  0 <= shr_m mrs -> shr_m (shr_1 mrs) = Z.div2 (shr_m mrs).
Proof.
  destruct mrs as [m r s]. simpl. intros Hm.
  destruct m as [|[p|p|]|p]; simpl; try reflexivity; lia.
Qed.

Lemma iter_pos_nat {A} (f : A -> A) (p : positive) (x : A) :
  iter_pos f p x = Nat.iter (Pos.to_nat p) f x.
Proof.
  revert x. induction p as [p IH|p IH|]; intros x; cbn [iter_pos].
  - rewrite !IH, Pos2Nat.inj_xI, <- Nat.iter_add.
    replace (2 * Pos.to_nat p)%nat with (Pos.to_nat p + Pos.to_nat p)%nat by lia.
    rewrite Nat.iter_succ_r. reflexivity.
  - rewrite !IH, Pos2Nat.inj_xO, <- Nat.iter_add. f_equal. lia.
  - reflexivity.
Qed.

Lemma iter_shr_1_m (k : nat) (mrs : shr_record) :
  0 <= shr_m mrs -> shr_m (Nat.iter k shr_1 mrs) = Z.shiftr (shr_m mrs) (Z.of_nat k).
Proof.
  intros Hm. induction k as [|k IH].
  - simpl. rewrite Z.shiftr_0_r. reflexivity.
  - rewrite Nat.iter_succ. rewrite shr_1_m.
    + rewrite IH, Z.div2_spec, Z.shiftr_shiftr by lia. f_equal. lia.
    + rewrite IH. apply Z.shiftr_nonneg. exact Hm.
Qed.

Lemma shr_record_of_loc_m (m : Z) (l : location) : shr_m (shr_record_of_loc m l) = m.
Proof. destruct l as [|[]]; reflexivity. Qed.

(** [shr_fexp] on a positive mantissa whose exponent is in the normal
    range keeps it positive and keeps [digits + exponent]. *)
Lemma shr_fexp_normal (m e : Z) (l : location) :
  0 < m -> emin FloatOps.prec FloatOps.emax <= Zdigits2 m + e - FloatOps.prec ->
  0 < shr_m (fst (shr_fexp FloatOps.prec FloatOps.emax m e l)) /\
  Zdigits2 (shr_m (fst (shr_fexp FloatOps.prec FloatOps.emax m e l))) + snd (shr_fexp FloatOps.prec FloatOps.emax m e l)
    = Zdigits2 m + e.
Proof.
  intros Hm Hn. unfold shr_fexp, fexp. unfold emin in *.
  change FloatOps.prec with 53 in *. change FloatOps.emax with 1024 in *.
  rewrite Zdigits2_log2 in * by exact Hm.
  rewrite Z.max_l by lia.
  replace (Z.log2 m + 1 + e - 53 - e) with (Z.log2 m + 1 - 53) by lia.
  unfold shr. destruct (Z.log2 m + 1 - 53) as [|k|k] eqn:Hk; simpl fst; simpl snd.
  - rewrite shr_record_of_loc_m, Zdigits2_log2 by exact Hm. lia.
  - rewrite iter_pos_nat, iter_shr_1_m; rewrite shr_record_of_loc_m; [|lia].
    rewrite positive_nat_Z.
    assert (Hlog : Z.log2 (Z.shiftr m (Z.pos k)) = Z.log2 m - Z.pos k).
    { rewrite Z.log2_shiftr by lia. lia. }
    assert (Hpos : 0 < Z.shiftr m (Z.pos k)).
    { rewrite Z.shiftr_div_pow2 by lia. apply Z.div_str_pos.
      split; [apply Z.pow_pos_nonneg; lia|].
      apply Z.le_trans with (2 ^ Z.log2 m); [apply Z.pow_le_mono_r; lia|].
      apply Z.log2_spec. exact Hm. }
    split; [exact Hpos|]. rewrite Zdigits2_log2 by exact Hpos. lia.
  - rewrite shr_record_of_loc_m, Zdigits2_log2 by exact Hm. lia.
Qed.


Lemma Zdigits2_mono (a b : Z) : 0 < a <= b -> Zdigits2 a <= Zdigits2 b.
Proof.
  intros H. rewrite !Zdigits2_log2 by lia.
  pose proof (Z.log2_le_mono a b ltac:(lia)). lia.
Qed.

(** [binary_round_aux] of a positive mantissa in the normal range is a
    finite number (of the same sign, with no fewer digits above the point)
    or an infinity: never zero. *)
Lemma binary_round_aux_nonzero (sx : bool) (m e : Z) (l : location) :
  0 < m -> emin FloatOps.prec FloatOps.emax <= Zdigits2 m + e - FloatOps.prec ->
  (exists m' e', binary_round_aux FloatOps.prec FloatOps.emax sx m e l = S754_finite sx m' e' /\
                 Zdigits2 m + e <= Zdigits2 (Z.pos m') + e') \/
  binary_round_aux FloatOps.prec FloatOps.emax sx m e l = S754_infinity sx.
Proof.
  intros Hm Hn. unfold binary_round_aux.
  pose proof (shr_fexp_normal m e l Hm Hn) as [Hp1 Hd1].
  destruct (shr_fexp FloatOps.prec FloatOps.emax m e l) as [mrs' e'] eqn:H1. simpl in Hp1, Hd1.
  set (m2 := round_nearest_even (shr_m mrs') (loc_of_shr_record mrs')).
  assert (Hm2 : shr_m mrs' <= m2).
  { unfold m2, round_nearest_even.
    destruct (loc_of_shr_record mrs') as [|[]]; try lia. destruct (Z.even (shr_m mrs')); lia. }
  pose proof (Zdigits2_mono (shr_m mrs') m2 ltac:(lia)) as Hdm.
  pose proof (shr_fexp_normal m2 e' loc_Exact ltac:(lia) ltac:(lia)) as [Hp2 Hd2].
  destruct (shr_fexp FloatOps.prec FloatOps.emax m2 e' loc_Exact) as [mrs'' e''] eqn:H2.
  simpl in Hp2, Hd2.
  destruct (shr_m mrs'') as [|p|p] eqn:Hm3; try lia.
  destruct (e'' <=? FloatOps.emax - FloatOps.prec).
  - left. exists p, e''. split; [reflexivity|]. lia.
  - right. reflexivity.
Qed.

Lemma Pos_iter_xO (p k : positive) : Z.pos (Pos.iter xO p k) = Z.pos p * 2 ^ Z.pos k.
Proof.
  induction k as [|k IH] using Pos.peano_ind.
  - simpl. lia.
  - rewrite Pos.iter_succ, Pos2Z.inj_succ, Z.pow_succ_r by lia.
    change (Z.pos (Pos.iter xO p k)~0) with (2 * Z.pos (Pos.iter xO p k)). rewrite IH. lia.
Qed.

(** The conversion of a positive integer is a positive finite double (or
    an infinity), with at least one digit above the point. *)
Lemma of_uint63_pos (n : Uint63.int) :
  0 < Uint63.to_Z n ->
  (exists m e, FloatOps.Prim2SF (of_uint63 n) = S754_finite false m e /\ 1 <= Zdigits2 (Z.pos m) + e) \/
  FloatOps.Prim2SF (of_uint63 n) = S754_infinity false.
Proof.
  intros Hn. rewrite FloatAxioms.of_uint63_spec.
  destruct (Uint63.to_Z n) as [|p|p] eqn:Hp; try lia.
  unfold binary_normalize, binary_round.
  destruct (shl_align p 0 (fexp FloatOps.prec FloatOps.emax (Z.pos (digits2_pos p) + 0))) as [mz ez] eqn:Hs.
  assert (Hsum : Zdigits2 (Z.pos mz) + ez = Zdigits2 (Z.pos p)).
  { unfold shl_align in Hs.
    destruct (fexp FloatOps.prec FloatOps.emax (Z.pos (digits2_pos p) + 0) - 0) as [|d|d] eqn:Hd;
      injection Hs as <- <-; try lia.
    rewrite !Zdigits2_log2 by (try rewrite Pos_iter_xO; lia).
    rewrite Pos_iter_xO, Z.log2_mul_pow2 by lia. lia. }
  assert (H1 : 1 <= Zdigits2 (Z.pos p)) by (rewrite Zdigits2_log2 by lia; pose proof (Z.log2_nonneg (Z.pos p)); lia).
  destruct (binary_round_aux_nonzero false (Z.pos mz) ez loc_Exact ltac:(lia))
    as [[m' [e' [Hr Hd']]]|Hr].
  - unfold emin. change FloatOps.prec with 53. change FloatOps.emax with 1024. lia.
  - left. exists m', e'. split; [exact Hr|lia].
  - right. exact Hr.
Qed.

(** A positive integer number of seconds divided by [86400.0] is not
    [<= 0.0]. *)
Lemma days_not_le_zero (n : Uint63.int) :
  0 < Uint63.to_Z n -> ((of_uint63 n / 86400) <=? 0)%float = false.
Proof.
  intros Hn. rewrite FloatAxioms.leb_spec, FloatAxioms.div_spec.
  assert (H86 : FloatOps.Prim2SF 86400%float = S754_finite false 5937362789990400 (-36)) by reflexivity.
  assert (H0 : FloatOps.Prim2SF 0%float = S754_zero false) by reflexivity.
  rewrite H86, H0.
  destruct (of_uint63_pos n Hn) as [[m1 [e1 [Hx Hd]]]|Hx]; rewrite Hx; [|reflexivity].
  pose proof (FloatAxioms.Prim2SF_valid (of_uint63 n)) as Hv. rewrite Hx in Hv.
  unfold valid_binary, bounded, canonical_mantissa in Hv.
  apply andb_prop in Hv as [Hv _]. apply Z.eqb_eq in Hv.
  change (Z.pos (digits2_pos m1)) with (Zdigits2 (Z.pos m1)) in Hv.
  unfold fexp, emin in Hv. change FloatOps.prec with 53 in Hv. change FloatOps.emax with 1024 in Hv.
  set (d1 := Zdigits2 (Z.pos m1)) in *.
  assert (Hd1 : d1 <= 53) by lia.
  unfold FloatAxioms.SF64div, SFdiv, SFdiv_core_binary.
  change (Zdigits2 (Z.pos 5937362789990400)) with 53.
  fold d1.
  assert (He' : Z.min (fexp FloatOps.prec FloatOps.emax (d1 + e1 - (53 + -36))) (e1 - -36) = d1 + e1 - 70).
  { unfold fexp, emin. change FloatOps.prec with 53. change FloatOps.emax with 1024. lia. }
  rewrite He'.
  replace (e1 - -36 - (d1 + e1 - 70)) with (106 - d1) by lia.
  destruct (106 - d1) as [|k|k] eqn:Hk; try lia.
  destruct (Z.div_eucl (Z.shiftl (Z.pos m1) (Z.pos k)) 5937362789990400) as [q r] eqn:Hq.
  assert (Hqd : q = Z.shiftl (Z.pos m1) (Z.pos k) / 5937362789990400)
    by (unfold Z.div; rewrite Hq; reflexivity).
  assert (Hm1 : 2 ^ (d1 - 1) <= Z.pos m1).
  { unfold d1. rewrite Zdigits2_log2 by lia. replace (Z.log2 (Z.pos m1) + 1 - 1) with (Z.log2 (Z.pos m1)) by lia.
    apply Z.log2_spec. lia. }
  assert (Hq52 : 2 ^ 52 <= q).
  { rewrite Hqd. apply Z.div_le_lower_bound; [lia|].
    rewrite Z.shiftl_mul_pow2 by lia.
    assert (Hpow : 2 ^ 105 = 2 ^ (d1 - 1) * 2 ^ Z.pos k)
      by (rewrite <- Z.pow_add_r by lia; f_equal; lia).
    assert (0 <= 2 ^ Z.pos k) by (apply Z.pow_nonneg; lia).
    assert (5937362789990400 * 2 ^ 52 <= 2 ^ 105) by (vm_compute; discriminate).
    nia. }
  assert (Hdq : 53 <= Zdigits2 q).
  { rewrite Zdigits2_log2 by lia. assert (52 <= Z.log2 q); [|lia].
    rewrite <- (Z.log2_pow2 52) by lia. apply Z.log2_le_mono. exact Hq52. }
  destruct (binary_round_aux_nonzero (xorb false false) q (d1 + e1 - 70)
              (new_location 5937362789990400 r) ltac:(lia)) as [[m' [e' [Hr _]]]|Hr].
  - unfold emin. change FloatOps.prec with 53. change FloatOps.emax with 1024. lia.
  - rewrite Hr. reflexivity.
  - rewrite Hr. reflexivity.
Qed.

End FloatFacts.

(* ------------------------------------------------------------------ *)
(** ** Indexed skip list *)

Module SkipListOrder.
Import SkipList.

(** ** Orders *)

(** [SFcompare] on numbers that are not NaN is the lexicographic order of
    these keys. *)
Definition fkey (f : SpecFloat.spec_float) : Z * Z * Z :=
  match f with
  | SpecFloat.S754_zero _ => (0, 0, 0)
  | SpecFloat.S754_infinity s => (if s then -2 else 2, 0, 0)
  | SpecFloat.S754_nan => (0, 0, 0)
  | SpecFloat.S754_finite s m e => if s then (-1, - e, - Z.pos m) else (1, e, Z.pos m)
  end.

Definition klt (a b : Z * Z * Z) : Prop :=
  let '(a1, a2, a3) := a in
  let '(b1, b2, b3) := b in
  a1 < b1 \/ (a1 = b1 /\ (a2 < b2 \/ (a2 = b2 /\ a3 < b3))).

Definition key (x : float) : Z * Z * Z := fkey (FloatOps.Prim2SF x).

Lemma not_nan_SF x : is_nan x = false -> FloatOps.Prim2SF x <> SpecFloat.S754_nan.
Proof.
  unfold is_nan. rewrite FloatAxioms.eqb_spec. intros H E. rewrite E in H. discriminate.
Qed.

Lemma ltb_key x y :
  is_nan x = false -> is_nan y = false ->
  (x <? y)%float = true <-> klt (key x) (key y).
Proof.
  intros Hx Hy. apply not_nan_SF in Hx, Hy. unfold key.
  rewrite FloatAxioms.ltb_spec. unfold SpecFloat.SFltb.
  destruct (FloatOps.Prim2SF x) as [sx|sx| |sx mx ex]; try congruence;
  destruct (FloatOps.Prim2SF y) as [sy|sy| |sy my ey]; try congruence;
  try destruct sx; try destruct sy; cbn;
  try (split; intros; first [lia | discriminate]);
  destruct (Z.compare_spec ex ey); subst; cbn;
  try (split; intros; first [lia | discriminate]);
  change (Pos.compare_cont Eq mx my) with (Pos.compare mx my);
  destruct (Pos.compare_spec mx my); subst; cbn;
  split; intros; first [lia | discriminate].
Qed.

Lemma klt_irrefl a : ~ klt a a.
Proof. destruct a as [[a1 a2] a3]; cbn; lia. Qed.

Lemma klt_trans a b c : klt a b -> klt b c -> klt a c.
Proof. destruct a as [[a1 a2] a3], b as [[b1 b2] b3], c as [[c1 c2] c3]; cbn; lia. Qed.

Lemma klt_total a b : a <> b -> klt a b \/ klt b a.
Proof.
  destruct a as [[a1 a2] a3], b as [[b1 b2] b3]; cbn; intros H.
  destruct (Z.lt_total a1 b1) as [?|[?|?]]; [lia| |lia]; subst.
  destruct (Z.lt_total a2 b2) as [?|[?|?]]; [lia| |lia]; subst.
  destruct (Z.lt_total a3 b3) as [?|[?|?]]; [lia| |lia]; subst. congruence.
Qed.

Lemma string_lt_irrefl a : string_lt a a = false.
Proof. induction a as [|x a IH]; [reflexivity|]. cbn [string_lt]. rewrite Nat.ltb_irrefl. exact IH. Qed.

Ltac nat_cmp :=
  repeat match goal with
  | |- context [Nat.ltb ?x ?y] => destruct (Nat.ltb_spec x y)
  | H : context [Nat.ltb ?x ?y] |- _ => destruct (Nat.ltb_spec x y)
  end.

Lemma string_lt_trans a b c :
  string_lt a b = true -> string_lt b c = true -> string_lt a c = true.
Proof.
  revert b c; induction a as [|x a IH]; intros [|y b] [|z c]; cbn [string_lt];
    try discriminate; try reflexivity; nat_cmp; try lia; try discriminate;
    try reflexivity; eauto.
Qed.

Lemma string_lt_total a b : a <> b -> string_lt a b = true \/ string_lt b a = true.
Proof.
  revert b; induction a as [|x a IH]; intros [|y b] H; cbn [string_lt]; auto; nat_cmp; auto; try lia.
  assert (x = y).
  { rewrite <- (ascii_nat_embedding x), <- (ascii_nat_embedding y). f_equal; lia. }
  subst. apply IH. congruence.
Qed.

Definition ok_score (x : float) : Prop := is_nan x = false.

(** The order of [comes_before] between two nodes. *)
Definition cb (a b : node) : bool := comes_before a (score b) (user_id b).

Lemma cb_key a b :
  ok_score (score a) -> ok_score (score b) ->
  cb a b = true <->
  klt (key (score b)) (key (score a)) \/
  (key (score a) = key (score b) /\ string_lt (user_id a) (user_id b) = true).
Proof.
  unfold ok_score, cb, comes_before. intros Ha Hb.
  destruct (score b <? score a)%float eqn:E1.
  - apply ltb_key in E1; auto. tauto.
  - assert (N1 : ~ klt (key (score b)) (key (score a))).
    { rewrite <- ltb_key by auto. congruence. }
    destruct (score a <? score b)%float eqn:E2.
    + apply ltb_key in E2; auto. split; [discriminate|].
      intros [?|[Heq _]]; [tauto|]. rewrite Heq in E2. exfalso; eapply klt_irrefl; eauto.
    + assert (N2 : ~ klt (key (score a)) (key (score b))).
      { rewrite <- ltb_key by auto. congruence. }
      assert (key (score a) = key (score b)).
      { destruct (decide (key (score a) = key (score b))) as [?|Hne]; auto.
        destruct (klt_total _ _ Hne); tauto. }
      tauto.
Qed.

Lemma cb_irrefl a : ok_score (score a) -> cb a a = false.
Proof.
  intros Ha. destruct (cb a a) eqn:E; auto. apply cb_key in E; auto.
  destruct E as [E|[_ E]]; [exfalso; eapply klt_irrefl; eauto|].
  rewrite string_lt_irrefl in E. discriminate.
Qed.

Lemma cb_trans a b c :
  ok_score (score a) -> ok_score (score b) -> ok_score (score c) ->
  cb a b = true -> cb b c = true -> cb a c = true.
Proof.
  intros Ha Hb Hc H1 H2. apply cb_key in H1, H2; auto. apply cb_key; auto.
  destruct H1 as [H1|[E1 H1]], H2 as [H2|[E2 H2]].
  - left. eapply klt_trans; eauto.
  - left. rewrite <- E2. exact H1.
  - left. rewrite E1. exact H2.
  - right. split; [congruence|]. eapply string_lt_trans; eauto.
Qed.

Lemma cb_total a b :
  ok_score (score a) -> ok_score (score b) -> user_id a <> user_id b ->
  cb a b = true \/ cb b a = true.
Proof.
  intros Ha Hb Hne. rewrite !cb_key by auto.
  destruct (decide (key (score a) = key (score b))) as [E|E].
  - destruct (string_lt_total _ _ Hne); auto.
  - destruct (klt_total _ _ E); auto.
Qed.

Lemma cb_asym a b :
  ok_score (score a) -> ok_score (score b) -> cb a b = true -> cb b a = false.
Proof.
  intros Ha Hb H. destruct (cb b a) eqn:E; auto.
  pose proof (cb_trans a b a Ha Hb Ha H E). rewrite cb_irrefl in H0 by auto. discriminate.
Qed.

End SkipListOrder.

Module SkipListChains.
Import SkipList.

Definition head_ref (r : list nat) : ref :=
  match r with q :: _ => At q | [] => Null end.

Definition last_ref (a : list nat) : ref :=
  match last a with Some p => At p | None => Header end.

Lemma last_ref_snoc a p : last_ref (a ++ [p]) = At p.
Proof. unfold last_ref. rewrite last_snoc. reflexivity. Qed.

Lemma last_ref_nil_or a : last_ref a = Header /\ a = [] \/ exists a' p, a = a' ++ [p] /\ last_ref a = At p.
Proof.
  destruct a as [|x a] using rev_ind; [left; auto|].
  right. exists a, x. split; [reflexivity|]. apply last_ref_snoc.
Qed.

Lemma succ_in_app a p r :
  p ∉ a -> succ_in p (a ++ p :: r) = head_ref r.
Proof.
  induction a as [|q a IH]; intros Hp; cbn.
  - rewrite Nat.eqb_refl. destruct r; reflexivity.
  - destruct (Nat.eqb_spec q p); [subst; set_solver|]. apply IH. set_solver.
Qed.

Lemma forward_last_ref sl l a r :
  links sl !! l = Some (a ++ r) -> NoDup (a ++ r) ->
  forward sl (last_ref a) l = head_ref r.
Proof.
  intros Hl Hnd. destruct (last_ref_nil_or a) as [[-> ->]|(a' & p & -> & ->)].
  - unfold forward. rewrite Hl. destruct r; reflexivity.
  - unfold forward. rewrite Hl. rewrite <- app_assoc. cbn. apply succ_in_app.
    rewrite <- app_assoc in Hnd. apply NoDup_app in Hnd as (_ & Hd & _).
    intros Hin. apply (Hd p Hin). set_solver.
Qed.

Lemma advance_prefix sl l go fuel a b r :
  links sl !! l = Some (a ++ b ++ r) -> NoDup (a ++ b ++ r) ->
  Forall (fun q => go q = true) b ->
  (forall q, head r = Some q -> go q = false) ->
  (length b < fuel)%nat ->
  advance fuel sl l go (last_ref a) = last_ref (a ++ b).
Proof.
  revert a fuel. induction b as [|x b IH]; intros a fuel Hl Hnd Hb Hr Hf;
    destruct fuel as [|fuel]; cbn in Hf; try lia; cbn [advance].
  - rewrite app_nil_r. cbn in Hl, Hnd. rewrite (forward_last_ref sl l a r Hl Hnd).
    destruct r as [|q r]; cbn; [reflexivity|]. rewrite (Hr q eq_refl). reflexivity.
  - rewrite (forward_last_ref sl l a (x :: b ++ r) Hl Hnd). cbn.
    inversion Hb as [|? ? Hx Hb']; subst. rewrite Hx.
    rewrite <- (last_ref_snoc a x).
    replace (a ++ x :: b) with ((a ++ [x]) ++ b) by (rewrite <- app_assoc; reflexivity).
    apply IH; auto; try (rewrite <- app_assoc; exact Hl); try (rewrite <- app_assoc; exact Hnd).
    lia.
Qed.

Section Partition.
Context {A : Type}.

Lemma filter_none (P : A -> Prop) `{!forall x, Decision (P x)} (l : list A) :
  Forall (fun x => ~ P x) l -> filter P l = [].
Proof.
  induction 1; [reflexivity|]. rewrite filter_cons_False by auto. assumption.
Qed.

Lemma filter_all (P : A -> Prop) `{!forall x, Decision (P x)} (l : list A) :
  Forall P l -> filter P l = l.
Proof.
  induction 1; [reflexivity|]. rewrite filter_cons_True by auto. f_equal. assumption.
Qed.

Lemma sorted_partition (R : A -> A -> Prop) (go : A -> bool) (ch : list A) :
  StronglySorted R ch ->
  (forall p q, p ∈ ch -> q ∈ ch -> R p q -> go q = true -> go p = true) ->
  ch = filter (fun q => go q = true) ch ++ filter (fun q => go q = false) ch.
Proof.
  induction 1 as [|x ch Hs IH Hall]; intros Hgo; [reflexivity|].
  destruct (go x) eqn:Ex.
  - rewrite filter_cons_True by auto. rewrite filter_cons_False by congruence.
    cbn. f_equal. apply IH. intros p q Hp Hq. apply Hgo; set_solver.
  - rewrite filter_cons_False by congruence. rewrite filter_cons_True by auto.
    assert (Hf : Forall (fun q => go q = false) ch).
    { rewrite Forall_forall in Hall |- *. intros y Hy.
      destruct (go y) eqn:Ey; auto.
      assert (go x = true) by (apply (Hgo x y); auto; set_solver). congruence. }
    rewrite filter_none by (eapply Forall_impl; [exact Hf|]; intros; congruence).
    rewrite filter_all by exact Hf. reflexivity.
Qed.

End Partition.

Definition pre (sl : skip_list) (go : nat -> bool) (i : nat) : list nat :=
  filter (fun q => go q = true) (chain sl i).
Definition post (sl : skip_list) (go : nat -> bool) (i : nat) : list nat :=
  filter (fun q => go q = false) (chain sl i).

Lemma last_ref_in a : last_ref a = Header \/ exists p, last_ref a = At p /\ p ∈ a.
Proof.
  unfold last_ref. destruct (last a) eqn:E; [right|left; reflexivity].
  eexists; split; [reflexivity|]. eapply last_Some_elem_of; eauto.
Qed.

Lemma walk_spec sl go k cur :
  links sl !! k = Some (chain sl k) -> NoDup (chain sl k) ->
  chain sl k = pre sl go k ++ post sl go k ->
  (cur = Header \/ exists p, cur = At p /\ p ∈ pre sl go k) ->
  walk sl k go cur = last_ref (pre sl go k).
Proof.
  intros Hl Hnd Hsplit Hcur. unfold walk.
  assert (Hb : forall b, b ⊆ pre sl go k -> Forall (fun q => go q = true) b).
  { intros b Hsub. apply Forall_forall. intros q Hq.
    apply Hsub, list_elem_of_filter in Hq. tauto. }
  assert (Hr : forall q, head (post sl go k) = Some q -> go q = false).
  { intros q Hq. apply head_Some_elem_of, list_elem_of_filter in Hq. tauto. }
  destruct Hcur as [->|(p & -> & Hp)].
  - change Header with (last_ref []).
    apply (advance_prefix sl k go _ [] (pre sl go k) (post sl go k)); cbn;
      try (rewrite <- Hsplit; assumption); auto.
    rewrite Hsplit, length_app. lia.
  - apply list_elem_of_split in Hp as (a0 & b & Hab).
    rewrite <- (last_ref_snoc a0 p). rewrite Hab.
    replace (a0 ++ p :: b) with ((a0 ++ [p]) ++ b) by (rewrite <- app_assoc; reflexivity).
    assert (Hch : chain sl k = (a0 ++ [p]) ++ b ++ post sl go k).
    { rewrite Hsplit, Hab, <- !app_assoc. reflexivity. }
    apply (advance_prefix sl k go _ _ _ (post sl go k)); try (rewrite <- Hch; assumption); auto.
    + apply Hb. rewrite Hab. set_solver.
    + rewrite Hch, !length_app. lia.
Qed.

Lemma descend_spec sl go k cur upd :
  (forall i, (i < k)%nat ->
     links sl !! i = Some (chain sl i) /\ NoDup (chain sl i) /\
     chain sl i = pre sl go i ++ post sl go i) ->
  (forall i j p, (i <= j < k)%nat -> p ∈ pre sl go j -> p ∈ pre sl go i) ->
  (cur = Header \/ exists p, cur = At p /\ forall i, (i < k)%nat -> p ∈ pre sl go i) ->
  forall i, descend sl go k cur upd !! i =
            if (i <? k)%nat && (i <? length upd)%nat then Some (last_ref (pre sl go i))
            else upd !! i.
Proof.
  revert cur upd. induction k as [|k IH]; intros cur upd Hlev Hnest Hcur i; cbn [descend].
  { destruct (i <? 0)%nat eqn:E; [apply Nat.ltb_lt in E; lia|reflexivity]. }
  assert (Hw : walk sl k go cur = last_ref (pre sl go k)).
  { destruct (Hlev k) as (H1 & H2 & H3); [lia|].
    apply walk_spec; auto. destruct Hcur as [?|(p & ? & Hp)]; [left; auto|right].
    exists p. split; auto. }
  rewrite Hw. rewrite IH.
  - rewrite length_insert.
    destruct (Nat.ltb_spec i k), (Nat.ltb_spec i (S k)), (Nat.ltb_spec i (length upd));
      cbn; try lia; try reflexivity;
      rewrite list_lookup_insert; destruct (decide _) as [[? ?]|?]; subst; try lia;
      reflexivity.
  - intros. apply Hlev. lia.
  - intros i0 j p H1 H2. apply (Hnest i0 j p); [lia|exact H2].
  - destruct (last_ref_in (pre sl go k)) as [->|(p & -> & Hp)]; [left; auto|right].
    exists p. split; auto. intros i0 Hi0. apply (Hnest i0 k p); [lia|exact Hp].
Qed.

Lemma insert_after_app p x a r :
  p ∉ a -> insert_after p x (a ++ p :: r) = a ++ p :: x :: r.
Proof.
  induction a as [|q a IH]; intros Hp; cbn.
  - rewrite Nat.eqb_refl. reflexivity.
  - destruct (Nat.eqb_spec q p); [subst; set_solver|]. f_equal. apply IH. set_solver.
Qed.

Lemma link_after_last_ref a r x :
  NoDup (a ++ r) -> link_after (last_ref a) x (a ++ r) = a ++ x :: r.
Proof.
  intros Hnd. destruct (last_ref_nil_or a) as [[-> ->]|(a' & p & -> & ->)]; [reflexivity|].
  cbn. rewrite <- !app_assoc. cbn. apply insert_after_app.
  rewrite <- app_assoc in Hnd. apply NoDup_app in Hnd as (_ & Hd & _).
  intros Hin. apply (Hd p Hin). set_solver.
Qed.

Lemma unlink_after_app p t a r :
  p ∉ a -> unlink_after p t (a ++ p :: t :: r) = Some (a ++ p :: r).
Proof.
  induction a as [|q a IH]; intros Hp; cbn.
  - rewrite !Nat.eqb_refl. reflexivity.
  - destruct (Nat.eqb_spec q p); [subst; set_solver|]. rewrite IH by set_solver. reflexivity.
Qed.

Lemma unlink_last_ref a t r :
  NoDup (a ++ t :: r) -> unlink (last_ref a) t (a ++ t :: r) = Some (a ++ r).
Proof.
  intros Hnd. destruct (last_ref_nil_or a) as [[-> ->]|(a' & p & -> & ->)].
  - cbn. rewrite Nat.eqb_refl. reflexivity.
  - cbn. rewrite <- !app_assoc. cbn. apply unlink_after_app.
    rewrite <- app_assoc in Hnd. apply NoDup_app in Hnd as (_ & Hd & _).
    intros Hin. apply (Hd p Hin). set_solver.
Qed.

End SkipListChains.

Module SkipListInv.
Import SkipList SkipListOrder SkipListChains.

(** ** Sorted lists *)

Section Sorted.
Context {A : Type}.

Lemma SS_impl (R R' : A -> A -> Prop) l :
  StronglySorted R l -> (forall x y, x ∈ l -> y ∈ l -> R x y -> R' x y) ->
  StronglySorted R' l.
Proof.
  induction 1 as [|x l Hs IH Hall]; intros H; constructor.
  - apply IH. intros. apply H; auto; set_solver.
  - rewrite Forall_forall in Hall |- *. intros y Hy. apply H; auto; set_solver.
Qed.

Lemma SS_filter (R : A -> A -> Prop) (P : A -> Prop) `{!forall x, Decision (P x)} l :
  StronglySorted R l -> StronglySorted R (filter P l).
Proof.
  induction 1 as [|x l Hs IH Hall]; [constructor|].
  destruct (decide (P x)).
  - rewrite filter_cons_True by auto. constructor; auto.
    rewrite Forall_forall in Hall |- *. intros y Hy.
    apply list_elem_of_filter in Hy. apply Hall. tauto.
  - rewrite filter_cons_False by auto. exact IH.
Qed.

Lemma SS_app (R : A -> A -> Prop) l1 l2 :
  StronglySorted R l1 -> StronglySorted R l2 ->
  (forall x y, x ∈ l1 -> y ∈ l2 -> R x y) -> StronglySorted R (l1 ++ l2).
Proof.
  induction 1 as [|x l Hs IH Hall]; intros H2 H; [exact H2|].
  cbn. constructor.
  - apply IH; auto. intros. apply H; auto; set_solver.
  - apply Forall_app. split; auto. apply Forall_forall. intros. apply H; set_solver.
Qed.

Lemma SS_app_inv_r (R : A -> A -> Prop) l1 l2 :
  StronglySorted R (l1 ++ l2) -> StronglySorted R l2.
Proof.
  induction l1 as [|x l1 IH]; intros H; [exact H|].
  apply StronglySorted_inv in H as [H _]. auto.
Qed.

Lemma SS_app_rel (R : A -> A -> Prop) l1 l2 x y :
  StronglySorted R (l1 ++ l2) -> x ∈ l1 -> y ∈ l2 -> R x y.
Proof.
  induction l1 as [|z l1 IH]; intros H Hx Hy; [set_solver|].
  apply StronglySorted_inv in H as [H Hall].
  apply elem_of_cons in Hx as [->|Hx]; auto.
  rewrite Forall_forall in Hall. apply Hall. set_solver.
Qed.

End Sorted.

Lemma filter_remove (t : nat) a r :
  t ∉ a -> t ∉ r -> filter (fun p => p <> t) (a ++ t :: r) = a ++ r.
Proof.
  intros Ha Hr. rewrite filter_app, filter_cons_False by auto.
  rewrite !filter_all; auto; apply Forall_forall; intros y Hy ->; auto.
Qed.

(** ** The invariant of a skip list *)

Definition hgt (sl : skip_list) (p : nat) : nat :=
  match heap sl !! p with Some n => height n | None => 0 end.

Definition prec (sl : skip_list) (p q : nat) : Prop :=
  match heap sl !! p, heap sl !! q with
  | Some a, Some b => cb a b = true
  | _, _ => False
  end.

Record Inv (sl : skip_list) : Prop := {
  inv_max : 1 <= max_levels_ sl;
  inv_len : length (links sl) = Z.to_nat (max_levels_ sl);
  inv_cl : 1 <= current_level_ sl <= max_levels_ sl;
  inv_links : forall l, (l < length (links sl))%nat ->
    links sl !! l = Some (filter (fun p => (l < hgt sl p)%nat) (chain sl 0));
  inv_nodup : NoDup (chain sl 0);
  inv_heap : forall p, p ∈ chain sl 0 <-> is_Some (heap sl !! p);
  inv_height : forall p n, heap sl !! p = Some n ->
    (1 <= height n <= Z.to_nat (current_level_ sl))%nat;
  inv_fresh : forall p, is_Some (heap sl !! p) -> (p < next_addr sl)%nat;
  inv_sorted : StronglySorted (prec sl) (chain sl 0);
  inv_index : forall uid p,
    index_ sl !! uid = Some p <-> exists n, heap sl !! p = Some n /\ user_id n = uid;
  inv_size : size_ sl = length (chain sl 0);
  inv_ok : forall p n, heap sl !! p = Some n -> ok_score (score n) }.

(** The present pairs of a skip list: each indexed user and its score. *)
Definition abs (sl : skip_list) : gmap string float :=
  omap (fun p => score <$> heap sl !! p) (index_ sl).

Section Inv.
Variable sl : skip_list.
Hypothesis HI : Inv sl.

Lemma chain_level l :
  (l < Z.to_nat (max_levels_ sl))%nat ->
  links sl !! l = Some (chain sl l) /\
  chain sl l = filter (fun p => (l < hgt sl p)%nat) (chain sl 0).
Proof.
  intros Hl. rewrite <- (inv_len _ HI) in Hl.
  pose proof (inv_links _ HI l Hl) as E.
  assert (Hc : chain sl l = filter (fun p => (l < hgt sl p)%nat) (chain sl 0)).
  { unfold chain at 1. rewrite E. reflexivity. }
  split; [rewrite E, Hc; reflexivity|exact Hc].
Qed.

Lemma chain_elem l p :
  (l < Z.to_nat (max_levels_ sl))%nat ->
  p ∈ chain sl l <-> p ∈ chain sl 0 /\ (l < hgt sl p)%nat.
Proof.
  intros Hl. destruct (chain_level l Hl) as [_ ->]. rewrite list_elem_of_filter. tauto.
Qed.

Lemma chain_nodup l : (l < Z.to_nat (max_levels_ sl))%nat -> NoDup (chain sl l).
Proof.
  intros Hl. destruct (chain_level l Hl) as [_ ->]. apply NoDup_filter, (inv_nodup _ HI).
Qed.

Lemma chain_sorted l :
  (l < Z.to_nat (max_levels_ sl))%nat -> StronglySorted (prec sl) (chain sl l).
Proof.
  intros Hl. destruct (chain_level l Hl) as [_ ->]. apply SS_filter, (inv_sorted _ HI).
Qed.

Lemma chain_above l :
  (Z.to_nat (current_level_ sl) <= l < Z.to_nat (max_levels_ sl))%nat -> chain sl l = [].
Proof.
  intros Hl. destruct (chain_level l ltac:(lia)) as [_ ->].
  apply filter_none, Forall_forall. intros p Hp. apply (inv_heap _ HI) in Hp as [n Hn].
  unfold hgt. rewrite Hn. pose proof (inv_height _ HI p n Hn). lia.
Qed.

Lemma heap_chain p n : heap sl !! p = Some n -> p ∈ chain sl 0.
Proof. intros Hn. apply (inv_heap _ HI). eauto. Qed.

(** A test that holds of a prefix of every chain: the search loop stops,
    on every level, at the last node that passes it. *)
Definition prefix_closed (go : nat -> bool) : Prop :=
  forall p q, p ∈ chain sl 0 -> q ∈ chain sl 0 -> prec sl p q -> go q = true -> go p = true.

Lemma chain_partition go l :
  prefix_closed go -> (l < Z.to_nat (max_levels_ sl))%nat ->
  chain sl l = pre sl go l ++ post sl go l.
Proof.
  intros Hgo Hl. apply sorted_partition with (R := prec sl); [apply chain_sorted; auto|].
  intros p q Hp Hq. apply chain_elem in Hp, Hq; auto. apply Hgo; tauto.
Qed.

Lemma search_spec go :
  prefix_closed go ->
  forall i, search sl go !! i =
    if (i <? Z.to_nat (current_level_ sl))%nat then Some (last_ref (pre sl go i))
    else if (i <? Z.to_nat (max_levels_ sl))%nat then Some Null else None.
Proof.
  intros Hgo i. pose proof (inv_cl _ HI) as Hcl. unfold search.
  rewrite descend_spec.
  - rewrite length_replicate.
    destruct (Nat.ltb_spec i (Z.to_nat (current_level_ sl))),
             (Nat.ltb_spec i (Z.to_nat (max_levels_ sl))); cbn; try lia; try reflexivity.
    + rewrite lookup_replicate_2 by lia. reflexivity.
    + apply lookup_ge_None_2. rewrite length_replicate. lia.
  - intros j Hj. destruct (chain_level j ltac:(lia)) as [H1 _].
    split; [exact H1|]. split; [apply chain_nodup; lia|]. apply chain_partition; auto; lia.
  - intros j k p Hjk Hp. unfold pre in *. apply list_elem_of_filter in Hp as [Hgp Hp].
    apply list_elem_of_filter. split; auto.
    apply chain_elem in Hp; [|lia]. apply chain_elem; [lia|]. split; [tauto|lia].
  - left. reflexivity.
Qed.

End Inv.

End SkipListInv.

Module SkipListErase.
Import SkipList SkipListOrder SkipListChains SkipListInv.

Lemma shrink_spec fuel lks cl :
  1 <= cl ->
  1 <= shrink fuel lks cl <= cl /\
  forall i, shrink fuel lks cl <= i < cl -> lks !! Z.to_nat i = Some [].
Proof.
  revert cl. induction fuel as [|fuel IH]; intros cl Hcl; cbn [shrink].
  { split; [lia|]. intros; lia. }
  destruct (Z.ltb_spec 1 cl); cbn; [|split; [lia|intros; lia]].
  destruct (lks !! Z.to_nat (cl - 1)) as [[|? ?]|] eqn:E; cbn; try (split; [lia|intros; lia]).
  destruct (IH (cl - 1) ltac:(lia)) as [H1 H2]. split; [lia|].
  intros i Hi. destruct (Z.eq_dec i (cl - 1)) as [->|]; auto. apply H2. lia.
Qed.

Lemma erase_absent sl uid : index_ sl !! uid = None -> erase sl uid = (false, sl).
Proof. intros H. unfold erase. rewrite H. reflexivity. Qed.

Section Erase.
Variable sl : skip_list.
Hypothesis HI : Inv sl.
Variable uid : string.
Variable t : nat.
Hypothesis Hidx : index_ sl !! uid = Some t.
Variable tn : node.
Hypothesis Htn : heap sl !! t = Some tn.
Hypothesis Hid : user_id tn = uid.

Let go := fun q => negb (Nat.eqb q t) && precedes sl (score tn) (user_id tn) q.

Lemma erase_go_closed : prefix_closed sl go.
Proof.
  intros p q Hp Hq Hpq Hgq. unfold go, precedes in *.
  apply andb_true_iff in Hgq as [Hqt Hq'].
  unfold prec in Hpq. destruct (heap sl !! p) as [np|] eqn:Ep; [|contradiction].
  destruct (heap sl !! q) as [nq|] eqn:Eq; [|contradiction].
  assert (Hok : forall p n, heap sl !! p = Some n -> ok_score (score n)) by apply (inv_ok _ HI).
  assert (cb np tn = true) as Hpt.
  { apply (cb_trans np nq tn); eauto. }
  apply andb_true_iff. split; [|exact Hpt].
  destruct (Nat.eqb_spec p t); [subst|reflexivity].
  rewrite Htn in Ep. injection Ep as <-. rewrite cb_irrefl in Hpt by eauto. discriminate.
Qed.

Lemma erase_t_height : (1 <= height tn <= Z.to_nat (current_level_ sl))%nat.
Proof. apply (inv_height _ HI _ _ Htn). Qed.

Lemma erase_post_head i :
  (i < height tn)%nat -> exists rest, post sl go i = t :: rest.
Proof.
  intros Hi. pose proof erase_t_height. pose proof (inv_cl _ HI).
  assert (Hil : (i < Z.to_nat (max_levels_ sl))%nat) by lia.
  assert (Ht : t ∈ chain sl i).
  { apply chain_elem; auto. split; [eapply heap_chain; eauto|]. unfold hgt. rewrite Htn. lia. }
  assert (Hgt : go t = false) by (unfold go; rewrite Nat.eqb_refl; reflexivity).
  assert (Htp : t ∈ post sl go i) by (apply list_elem_of_filter; auto).
  destruct (post sl go i) as [|q rest] eqn:Ep; [set_solver|].
  exists rest. destruct (Nat.eqb_spec q t) as [->|Hqt]; [reflexivity|exfalso].
  assert (Htr : t ∈ rest) by set_solver.
  pose proof (chain_partition sl HI go i erase_go_closed Hil) as Hsplit.
  pose proof (chain_sorted sl HI i Hil) as Hs. rewrite Hsplit, Ep in Hs.
  apply SS_app_inv_r in Hs. apply StronglySorted_inv in Hs as [_ Hall].
  rewrite Forall_forall in Hall. specialize (Hall t Htr).
  assert (Hgq : go q = false).
  { assert (q ∈ post sl go i) by (rewrite Ep; set_solver).
    apply list_elem_of_filter in H1. tauto. }
  unfold go, precedes in Hgq. unfold prec in Hall. rewrite Htn in Hall.
  destruct (heap sl !! q) as [nq|]; [|contradiction].
  apply Nat.eqb_neq in Hqt. rewrite Hqt in Hgq. cbn in Hgq. unfold cb in Hall. congruence.
Qed.

Lemma erase_unlink_level i :
  (i < height tn)%nat ->
  unlink (default Null (search sl go !! i)) t (chain sl i) =
    Some (filter (fun p => p <> t) (chain sl i)).
Proof.
  intros Hi. pose proof erase_t_height. pose proof (inv_cl _ HI).
  assert (Hil : (i < Z.to_nat (max_levels_ sl))%nat) by lia.
  rewrite (search_spec sl HI go erase_go_closed i).
  destruct (Nat.ltb_spec i (Z.to_nat (current_level_ sl))); [|lia]. cbn.
  destruct (erase_post_head i Hi) as [rest Hr].
  pose proof (chain_partition sl HI go i erase_go_closed Hil) as Hsplit.
  pose proof (chain_nodup sl HI i Hil) as Hnd.
  rewrite Hsplit, Hr in Hnd |- *. rewrite unlink_last_ref by exact Hnd.
  apply NoDup_app in Hnd as (_ & Hd & Hnd2). apply NoDup_cons in Hnd2 as [Htr _].
  rewrite filter_remove; auto. intros Hin. apply (Hd t Hin). set_solver.
Qed.

Lemma erase_unlink :
  let r := unlink_levels sl t (height tn) (search sl go) in
  (forall i, (i < length (links sl))%nat ->
     r.1 !! i = Some (filter (fun p => p <> t) (chain sl i))) /\
  length r.1 = length (links sl) /\ r.2 = true.
Proof.
  pose proof erase_t_height. pose proof (inv_cl _ HI). pose proof (inv_len _ HI).
  cbn. split; [|split].
  - intros i Hi. rewrite list_lookup_imap.
    destruct (chain_level sl HI i ltac:(lia)) as [E _]. rewrite E.
    cbn [fmap option_fmap option_map]. f_equal.
    destruct (decide (i < height tn)%nat) as [Hlt|Hge].
    + rewrite erase_unlink_level by lia.
      destruct (height tn) as [|m] eqn:Eh; [lia|].
      rewrite (proj2 (Nat.leb_le i m)) by lia. reflexivity.
    + destruct (height tn) as [|m] eqn:Eh.
      { symmetry. apply filter_all, Forall_forall. intros p Hp ->.
        apply (chain_elem sl HI) in Hp; [|lia]. unfold hgt in Hp. rewrite Htn in Hp. lia. }
      rewrite (proj2 (Nat.leb_gt i m)) by lia.
      symmetry. apply filter_all, Forall_forall. intros p Hp ->.
      apply (chain_elem sl HI) in Hp; [|lia]. unfold hgt in Hp. rewrite Htn in Hp. lia.
  - apply length_imap.
  - apply existsb_exists. exists 0%nat. split; [apply in_seq; lia|].
    rewrite erase_unlink_level by lia. reflexivity.
Qed.

Let lks := (unlink_levels sl t (height tn) (search sl go)).1.
Let sl' := mk_skip_list (max_levels_ sl) (probability_ sl)
             (shrink (Z.to_nat (current_level_ sl)) lks (current_level_ sl))
             (pred (size_ sl)) (rng_ sl) (rng_pos sl)
             (delete t (heap sl)) lks (delete uid (index_ sl)) (next_addr sl).

Lemma erase_eq : erase sl uid = (true, sl').
Proof.
  unfold erase. rewrite Hidx, Htn. fold go.
  destruct erase_unlink as (_ & _ & Hrm).
  unfold sl', lks in *. destruct (unlink_levels sl t (height tn) (search sl go)) as [l r].
  cbn in Hrm |- *. subst r. reflexivity.
Qed.

Lemma erase_chain_level i :
  (i < length (links sl))%nat -> chain sl' i = filter (fun p => p <> t) (chain sl i).
Proof.
  intros Hi. destruct erase_unlink as (HL & _ & _). unfold chain at 1.
  change (links sl') with lks. unfold lks. rewrite (HL i Hi). reflexivity.
Qed.

Lemma erase_hgt p : p <> t -> hgt sl' p = hgt sl p.
Proof.
  intros Hp. unfold hgt. change (heap sl') with (delete t (heap sl)).
  rewrite lookup_delete_ne by auto. reflexivity.
Qed.

Lemma erase_inv : Inv sl'.
Proof.
  pose proof (inv_max _ HI) as Hmax. pose proof (inv_len _ HI) as Hlen.
  pose proof (inv_cl _ HI) as Hcl.
  destruct erase_unlink as (HL & Hlen' & _). fold lks in HL, Hlen'.
  assert (H0 : (0 < length (links sl))%nat) by lia.
  pose proof (erase_chain_level 0 H0) as Hc0.
  pose proof (shrink_spec (Z.to_nat (current_level_ sl)) lks (current_level_ sl)
                ltac:(lia)) as [Hs1 Hs2].
  assert (Hheap : forall p n, heap sl' !! p = Some n -> p <> t /\ heap sl !! p = Some n).
  { intros p n. change (heap sl') with (delete t (heap sl)).
    rewrite lookup_delete_Some. intros [? ?]; auto. }
  split;
    change (max_levels_ sl') with (max_levels_ sl);
    change (links sl') with lks;
    change (heap sl') with (delete t (heap sl));
    change (index_ sl') with (delete uid (index_ sl));
    change (next_addr sl') with (next_addr sl);
    change (size_ sl') with (pred (size_ sl));
    change (current_level_ sl') with
      (shrink (Z.to_nat (current_level_ sl)) lks (current_level_ sl)).
  - exact Hmax.
  - rewrite Hlen'. exact Hlen.
  - lia.
  - intros l Hl. rewrite Hlen' in Hl. rewrite (HL l Hl).
    destruct (chain_level sl HI l ltac:(lia)) as [_ ->]. rewrite Hc0. f_equal.
    rewrite !list_filter_filter. apply list_filter_iff. intros p. split.
    + intros [Hp Hl']. rewrite erase_hgt; auto.
    + intros [Hl' Hp]. rewrite erase_hgt in Hl'; auto.
  - rewrite Hc0. apply NoDup_filter, (inv_nodup _ HI).
  - intros p. rewrite Hc0, list_elem_of_filter, (inv_heap _ HI), lookup_delete_is_Some.
    split; intros [? ?]; auto.
  - intros p n Hn. apply Hheap in Hn as [Hpt Hn].
    pose proof (inv_height _ HI p n Hn) as Hh. split; [lia|].
    destruct (Nat.le_gt_cases (height n)
               (Z.to_nat (shrink (Z.to_nat (current_level_ sl)) lks (current_level_ sl))))
      as [|Hgt]; auto. exfalso.
    set (i := (height n - 1)%nat).
    assert (Hi : lks !! i = Some []).
    { replace i with (Z.to_nat (Z.of_nat i)) by lia. apply Hs2. lia. }
    assert (Hil : (i < length (links sl))%nat) by lia.
    rewrite (HL i Hil) in Hi. injection Hi as Hi.
    assert (p ∈ filter (fun p => p <> t) (chain sl i)).
    { apply list_elem_of_filter. split; auto. apply (chain_elem sl HI); [lia|].
      split; [eapply heap_chain; eauto|]. unfold hgt. rewrite Hn. lia. }
    rewrite Hi in H. set_solver.
  - intros p Hp. apply (inv_fresh _ HI). apply lookup_delete_is_Some in Hp. tauto.
  - rewrite Hc0. apply SS_impl with (R := prec sl); [apply SS_filter, (inv_sorted _ HI)|].
    intros x y Hx Hy. apply list_elem_of_filter in Hx as [Hx _], Hy as [Hy _].
    unfold prec. change (heap sl') with (delete t (heap sl)).
    rewrite !lookup_delete_ne by auto. auto.
  - intros u p. rewrite lookup_delete_Some, (inv_index _ HI). split.
    + intros [Hu (n & Hn & Hnu)]. exists n. rewrite lookup_delete_ne; [auto|].
      intros ->. rewrite Htn in Hn. injection Hn as <-. congruence.
    + intros (n & Hn & Hnu). apply Hheap in Hn as [Hpt Hn]. split; [|eauto].
      intros <-. apply Hpt. symmetry.
      assert (index_ sl !! user_id n = Some p) by (apply (inv_index _ HI); eauto).
      congruence.
  - rewrite Hc0, (inv_size _ HI).
    assert (Ht : t ∈ chain sl 0) by (eapply heap_chain; eauto).
    apply list_elem_of_split in Ht as (a & r & Ear).
    pose proof (inv_nodup _ HI) as Hnd. rewrite Ear in Hnd |- *.
    apply NoDup_app in Hnd as (_ & Hd & Hnd2). apply NoDup_cons in Hnd2 as [Htr _].
    rewrite filter_remove; auto; [|intros Hin; apply (Hd t Hin); set_solver].
    rewrite !length_app. cbn. lia.
  - intros p n Hn. apply Hheap in Hn as [_ Hn]. eapply (inv_ok _ HI); eauto.
Qed.

Lemma erase_abs : abs sl' = delete uid (abs sl).
Proof.
  apply map_eq. intros u. unfold abs.
  change (index_ sl') with (delete uid (index_ sl)).
  change (heap sl') with (delete t (heap sl)).
  rewrite lookup_omap, !lookup_delete, lookup_omap.
  destruct (decide (uid = u)); [reflexivity|].
  destruct (index_ sl !! u) as [p|] eqn:Ep; [|reflexivity]. cbn.
  rewrite lookup_delete_ne; [reflexivity|].
  intros <-. apply (inv_index _ HI) in Ep as (n' & Hn' & Hu).
  rewrite Htn in Hn'. injection Hn' as <-. congruence.
Qed.

End Erase.

(** [erase] on a list satisfying the invariant. *)
Lemma erase_step sl uid :
  Inv sl ->
  let r := erase sl uid in
  Inv r.2 /\ abs r.2 = delete uid (abs sl) /\ index_ r.2 !! uid = None /\
  r.1 = bool_decide (is_Some (index_ sl !! uid)) /\
  max_levels_ r.2 = max_levels_ sl /\ probability_ r.2 = probability_ sl /\
  rng_ r.2 = rng_ sl /\ rng_pos r.2 = rng_pos sl /\ next_addr r.2 = next_addr sl.
Proof.
  intros HI. destruct (index_ sl !! uid) as [t|] eqn:Et.
  - destruct (proj1 (inv_index _ HI uid t) Et) as (tn & Htn & Hid).
    cbn zeta. rewrite (erase_eq sl HI uid t Et tn Htn Hid). cbn [fst snd].
    split; [apply erase_inv; auto|]. split; [apply erase_abs; auto|].
    split; [apply lookup_delete_eq|]. rewrite bool_decide_true by eauto.
    repeat split.
  - cbn zeta. rewrite (erase_absent sl uid Et). cbn [fst snd].
    split; [exact HI|]. split.
    + symmetry. apply delete_id. unfold abs. rewrite lookup_omap, Et. reflexivity.
    + split; [exact Et|]. rewrite bool_decide_false by (intros [? ?]; discriminate).
      repeat split.
Qed.

End SkipListErase.

Module SkipListUpsert.
Import SkipList SkipListOrder SkipListChains SkipListInv SkipListErase.

Lemma random_level_loop_range fuel max_levels level rng pos :
  1 <= level <= max_levels ->
  1 <= fst (random_level_loop fuel max_levels level rng pos) <= max_levels.
Proof.
  revert level pos. induction fuel as [|fuel IH]; intros level pos H; cbn; [lia|].
  destruct (Z.ltb_spec level max_levels); [|cbn; lia].
  destruct (rng pos); [apply IH; lia|cbn; lia].
Qed.

Lemma filter_ext_in {A} (P Q : A -> Prop) `{!forall x, Decision (P x)}
    `{!forall x, Decision (Q x)} (l : list A) :
  (forall y, y ∈ l -> P y <-> Q y) -> filter P l = filter Q l.
Proof.
  induction l as [|y l IH]; intros Hext; [reflexivity|].
  destruct (decide (P y)) as [Hp|Hp].
  - rewrite !filter_cons_True; [f_equal; apply IH; intros; apply Hext; set_solver| |auto].
    apply Hext; [set_solver|auto].
  - rewrite !filter_cons_False; [apply IH; intros; apply Hext; set_solver| |auto].
    rewrite <- Hext; [auto|set_solver].
Qed.

Section Upsert.
Variable sl : skip_list.
Hypothesis HI : Inv sl.
Variable uid : string.
Hypothesis Hnone : index_ sl !! uid = None.
Variable s : float.
Hypothesis Hs : ok_score s.
Variable ts : Z.

Let lvl := fst (random_level sl).
Let x := next_addr sl.
Let nd := mk_node uid s ts (Z.to_nat lvl).
Let go := precedes sl s uid.
Let cl := current_level_ sl.
Let update' :=
  if cl <? lvl then
    imap (fun i u => if (Z.to_nat cl <=? i)%nat && (i <? Z.to_nat lvl)%nat
                     then Header else u) (search sl go)
  else search sl go.
Let lks := insert_node sl x (Z.to_nat lvl) update'.
Let sl2 := mk_skip_list (max_levels_ sl) (probability_ sl) (if cl <? lvl then lvl else cl)
             (S (size_ sl)) (rng_ sl) (snd (random_level sl))
             (<[x := nd]> (heap sl)) lks (<[uid := x]> (index_ sl)) (S x).

Lemma upsert_eq sl0 : (erase sl0 uid).2 = sl -> upsert sl0 uid s ts = sl2.
Proof.
  intros E. unfold upsert. rewrite E. unfold sl2, lks, update', nd, x, lvl, go, cl.
  destruct (random_level sl) as [a b]. reflexivity.
Qed.

Lemma lvl_range : 1 <= lvl <= max_levels_ sl.
Proof.
  pose proof (inv_max _ HI). unfold lvl, random_level.
  apply random_level_loop_range. lia.
Qed.

Lemma x_fresh : heap sl !! x = None.
Proof.
  destruct (heap sl !! x) eqn:E; [|reflexivity].
  pose proof (inv_fresh _ HI x ltac:(eauto)). unfold x in *. lia.
Qed.

Lemma x_notin : x ∉ chain sl 0.
Proof. intros H. apply (inv_heap _ HI) in H. rewrite x_fresh in H. by destruct H. Qed.

Lemma other_ids q n : heap sl !! q = Some n -> user_id n <> uid.
Proof.
  intros Hq <-. assert (index_ sl !! user_id n = Some q) by (apply (inv_index _ HI); eauto).
  congruence.
Qed.

Lemma go_cb q n : heap sl !! q = Some n -> go q = cb n nd.
Proof. intros Hq. unfold go, precedes, cb. rewrite Hq. reflexivity. Qed.

Lemma upsert_go_closed : prefix_closed sl go.
Proof.
  intros p q Hp Hq Hpq Hgq. unfold prec in Hpq.
  destruct (heap sl !! p) as [np|] eqn:Ep; [|contradiction].
  destruct (heap sl !! q) as [nq|] eqn:Eq; [|contradiction].
  rewrite (go_cb p np Ep). rewrite (go_cb q nq Eq) in Hgq.
  pose proof (inv_ok _ HI) as Hok. apply (cb_trans np nq nd); eauto.
Qed.

Lemma update'_spec i :
  (i < Z.to_nat lvl)%nat -> update' !! i = Some (last_ref (pre sl go i)).
Proof.
  intros Hi. pose proof lvl_range. pose proof (inv_cl _ HI).
  pose proof (search_spec sl HI go upsert_go_closed) as Hsr.
  unfold update'. fold cl in Hsr |- *.
  destruct (Z.ltb_spec cl lvl).
  - rewrite list_lookup_imap, Hsr.
    destruct (Nat.ltb_spec i (Z.to_nat cl)).
    + cbn [fmap option_fmap option_map].
      rewrite (proj2 (Nat.leb_gt (Z.to_nat cl) i)) by lia. reflexivity.
    + rewrite (proj2 (Nat.ltb_lt i (Z.to_nat (max_levels_ sl)))) by lia.
      cbn [fmap option_fmap option_map].
      rewrite (proj2 (Nat.leb_le (Z.to_nat cl) i)) by lia.
      rewrite (proj2 (Nat.ltb_lt i (Z.to_nat lvl))) by lia. cbn. f_equal.
      unfold pre. rewrite (chain_above sl HI i) by (unfold cl in *; lia). reflexivity.
  - rewrite Hsr. rewrite (proj2 (Nat.ltb_lt i (Z.to_nat cl))) by lia. reflexivity.
Qed.

Lemma lks_spec i :
  (i < length (links sl))%nat ->
  lks !! i = Some (if (i <? Z.to_nat lvl)%nat then pre sl go i ++ x :: post sl go i
                   else chain sl i).
Proof.
  intros Hi. pose proof (inv_len _ HI). pose proof lvl_range.
  destruct (chain_level sl HI i ltac:(lia)) as [E _].
  unfold lks, insert_node. rewrite list_lookup_imap, E.
  cbn [fmap option_fmap option_map]. f_equal.
  destruct (Nat.ltb_spec i (Z.to_nat lvl)); [|reflexivity].
  rewrite update'_spec by lia. cbn [default].
  rewrite (chain_partition sl HI go i upsert_go_closed) at 1 by lia.
  apply link_after_last_ref. rewrite <- chain_partition by (auto using upsert_go_closed; lia).
  apply chain_nodup; auto. lia.
Qed.

Lemma chain2_0 : chain sl2 0 = pre sl go 0 ++ x :: post sl go 0.
Proof.
  pose proof (inv_len _ HI). pose proof (inv_max _ HI). pose proof lvl_range.
  unfold chain at 1. change (links sl2) with lks.
  rewrite lks_spec by lia. rewrite (proj2 (Nat.ltb_lt 0 (Z.to_nat lvl))) by lia. reflexivity.
Qed.

Lemma hgt2 p : hgt sl2 p = if decide (p = x) then Z.to_nat lvl else hgt sl p.
Proof.
  unfold hgt. change (heap sl2) with (<[x := nd]> (heap sl)).
  rewrite lookup_insert. destruct (decide (x = p)), (decide (p = x)); subst; try congruence.
  reflexivity.
Qed.

Lemma pre_post_in q : q ∈ pre sl go 0 \/ q ∈ post sl go 0 -> q ∈ chain sl 0 /\ q <> x.
Proof.
  intros Hq. assert (q ∈ chain sl 0).
  { destruct Hq as [Hq|Hq]; apply list_elem_of_filter in Hq; tauto. }
  split; auto. intros ->. apply x_notin. auto.
Qed.

Lemma filter_pre_post l (P : bool) :
  (l < Z.to_nat (max_levels_ sl))%nat ->
  filter (fun p => (l < hgt sl2 p)%nat) (filter (fun q => go q = P) (chain sl 0)) =
  filter (fun q => go q = P) (chain sl l).
Proof.
  intros Hlm. destruct (chain_level sl HI l Hlm) as [_ ->].
  rewrite (filter_ext_in (fun p => (l < hgt sl2 p)%nat) (fun p => (l < hgt sl p)%nat)).
  - rewrite !list_filter_filter. apply list_filter_iff. tauto.
  - intros y Hy. apply list_elem_of_filter in Hy as [_ Hy].
    rewrite hgt2, decide_False; [reflexivity|]. intros ->. apply x_notin. auto.
Qed.

Lemma filter_pre l :
  (l < Z.to_nat (max_levels_ sl))%nat ->
  filter (fun p => (l < hgt sl2 p)%nat) (pre sl go 0) = pre sl go l.
Proof. exact (filter_pre_post l true). Qed.

Lemma filter_post l :
  (l < Z.to_nat (max_levels_ sl))%nat ->
  filter (fun p => (l < hgt sl2 p)%nat) (post sl go 0) = post sl go l.
Proof. exact (filter_pre_post l false). Qed.

Lemma upsert_inv : Inv sl2.
Proof.
  pose proof (inv_max _ HI) as Hmax. pose proof (inv_len _ HI) as Hlen.
  pose proof (inv_cl _ HI) as Hcl. pose proof lvl_range as Hlvl.
  pose proof (inv_ok _ HI) as Hok.
  assert (Hpart : chain sl 0 = pre sl go 0 ++ post sl go 0).
  { apply chain_partition; auto using upsert_go_closed. lia. }
  assert (Hheap2 : forall p n, <[x := nd]> (heap sl) !! p = Some n ->
                   (p = x /\ n = nd) \/ (p <> x /\ heap sl !! p = Some n)).
  { intros p n. rewrite lookup_insert_Some. intros [[-> <-]|[? ?]]; auto. }
  assert (Hx : x ∉ chain sl 0) by apply x_notin.
  assert (Hprec2 : forall p q, p <> x -> q <> x -> prec sl2 p q <-> prec sl p q).
  { intros p q Hp Hq. unfold prec. change (heap sl2) with (<[x := nd]> (heap sl)).
    rewrite !lookup_insert_ne by auto. reflexivity. }
  assert (Hin : forall q, q ∈ pre sl go 0 ++ post sl go 0 -> q ∈ chain sl 0 /\ q <> x).
  { intros q Hq. rewrite <- Hpart in Hq. split; auto. intros ->. auto. }
  split;
    change (max_levels_ sl2) with (max_levels_ sl);
    change (links sl2) with lks;
    change (heap sl2) with (<[x := nd]> (heap sl));
    change (index_ sl2) with (<[uid := x]> (index_ sl));
    change (next_addr sl2) with (S x);
    change (size_ sl2) with (S (size_ sl));
    change (current_level_ sl2) with (if cl <? lvl then lvl else cl).
  - exact Hmax.
  - unfold lks, insert_node. rewrite length_imap. exact Hlen.
  - unfold cl. destruct (Z.ltb_spec (current_level_ sl) lvl); lia.
  - intros l Hl. unfold lks, insert_node in Hl. rewrite length_imap in Hl.
    rewrite lks_spec by exact Hl. f_equal. rewrite chain2_0.
    rewrite filter_app, filter_cons.
    rewrite filter_pre, filter_post by lia.
    rewrite hgt2. destruct (decide (x = x)); [|congruence].
    destruct (Nat.ltb_spec l (Z.to_nat lvl)).
    + rewrite decide_True by lia. reflexivity.
    + rewrite decide_False by lia. apply chain_partition; auto using upsert_go_closed. lia.
  - rewrite chain2_0, <- Permutation_middle. constructor.
    + rewrite <- Hpart. exact Hx.
    + rewrite <- Hpart. apply (inv_nodup _ HI).
  - intros p. rewrite chain2_0, lookup_insert_is_Some', <- (inv_heap _ HI), Hpart.
    rewrite !elem_of_app, elem_of_cons. naive_solver.
  - intros p n Hp. apply Hheap2 in Hp as [[-> ->]|[_ Hp]].
    + change (height nd) with (Z.to_nat lvl).
      unfold cl. destruct (Z.ltb_spec (current_level_ sl) lvl); lia.
    + apply (inv_height _ HI) in Hp.
      unfold cl. destruct (Z.ltb_spec (current_level_ sl) lvl); lia.
  - intros p. rewrite lookup_insert_is_Some'. intros [<-|Hp]; [lia|].
    apply (inv_fresh _ HI) in Hp. unfold x. lia.
  - rewrite chain2_0.
    assert (Hsub : forall q, q ∈ pre sl go 0 \/ q ∈ post sl go 0 ->
              q <> x /\ exists n, heap sl !! q = Some n).
    { intros q Hq. apply pre_post_in in Hq as [Hq Hqx].
      apply (inv_heap _ HI) in Hq as [n Hn]. eauto. }
    assert (Hx2 : forall q n, q <> x -> heap sl !! q = Some n ->
              prec sl2 x q <-> cb nd n = true).
    { intros q n Hqx Hn. unfold prec. change (heap sl2) with (<[x := nd]> (heap sl)).
      rewrite lookup_insert_eq, lookup_insert_ne, Hn by auto. reflexivity. }
    assert (Hx3 : forall q n, q <> x -> heap sl !! q = Some n ->
              prec sl2 q x <-> cb n nd = true).
    { intros q n Hqx Hn. unfold prec. change (heap sl2) with (<[x := nd]> (heap sl)).
      rewrite lookup_insert_eq, lookup_insert_ne, Hn by auto. reflexivity. }
    assert (Hsorted : StronglySorted (prec sl) (pre sl go 0 ++ post sl go 0))
      by (rewrite <- Hpart; apply (inv_sorted _ HI)).
    apply SS_app.
    + apply SS_impl with (R := prec sl); [unfold pre; apply SS_filter, (inv_sorted _ HI)|].
      intros y z Hy Hz. rewrite Hprec2; [auto| |];
        [apply (Hsub y)|apply (Hsub z)]; auto.
    + constructor.
      * apply SS_impl with (R := prec sl); [unfold post; apply SS_filter, (inv_sorted _ HI)|].
        intros y z Hy Hz. rewrite Hprec2; [auto| |];
          [apply (Hsub y)|apply (Hsub z)]; auto.
      * apply Forall_forall. intros q Hq.
        destruct (Hsub q (or_intror Hq)) as [Hqx [n Hn]].
        apply (Hx2 q n Hqx Hn).
        unfold post in Hq. apply list_elem_of_filter in Hq as [Hgo _].
        rewrite (go_cb q n Hn) in Hgo.
        destruct (cb_total n nd (Hok _ _ Hn) Hs (other_ids q n Hn)) as [E|E];
          [congruence|exact E].
    + intros y z Hy Hz. destruct (Hsub y (or_introl Hy)) as [Hyx [ny Hny]].
      apply elem_of_cons in Hz as [->|Hz].
      * apply (Hx3 y ny Hyx Hny).
        unfold pre in Hy. apply list_elem_of_filter in Hy as [Hgo _].
        rewrite (go_cb y ny Hny) in Hgo. exact Hgo.
      * destruct (Hsub z (or_intror Hz)) as [Hzx _].
        rewrite Hprec2 by auto. apply (SS_app_rel _ _ _ _ _ Hsorted Hy Hz).
  - intros u p. rewrite lookup_insert_Some. split.
    + intros [[<- <-]|[Hne Hu]].
      * exists nd. rewrite lookup_insert_eq. split; reflexivity.
      * apply (inv_index _ HI) in Hu as [n [Hn Hid]]. exists n.
        rewrite lookup_insert_ne; [auto|]. intros Epx. rewrite <- Epx, x_fresh in Hn. discriminate.
    + intros [n [Hn Hid]]. apply Hheap2 in Hn as [[-> ->]|[Hpx Hn]].
      * left. split; [exact Hid|reflexivity].
      * right. split; [intros <-; apply (other_ids p n Hn); auto|].
        apply (inv_index _ HI). eauto.
  - rewrite chain2_0, length_app. cbn [length].
    rewrite (inv_size _ HI), Hpart, length_app. lia.
  - intros p n Hp. apply Hheap2 in Hp as [[_ ->]|[_ Hp]]; [exact Hs|eauto].
Qed.

Lemma upsert_abs : abs sl2 = <[uid := s]> (abs sl).
Proof.
  apply map_eq. intros u. unfold abs.
  change (index_ sl2) with (<[uid := x]> (index_ sl)).
  change (heap sl2) with (<[x := nd]> (heap sl)).
  rewrite !lookup_omap. destruct (decide (u = uid)) as [->|Hne].
  - rewrite !lookup_insert_eq. cbn [mbind option_bind].
    rewrite lookup_insert_eq. reflexivity.
  - rewrite !lookup_insert_ne by auto. rewrite lookup_omap.
    destruct (index_ sl !! u) as [p|] eqn:Ep; [|reflexivity]. cbn [mbind option_bind].
    apply (inv_index _ HI) in Ep as [n [Hn _]].
    rewrite lookup_insert_ne; [reflexivity|]. intros Epx. rewrite <- Epx, x_fresh in Hn.
    discriminate.
Qed.

End Upsert.

Lemma upsert_step sl0 uid s ts :
  Inv sl0 -> ok_score s ->
  Inv (upsert sl0 uid s ts) /\ abs (upsert sl0 uid s ts) = <[uid := s]> (abs sl0).
Proof.
  intros HI Hs. destruct (erase_step sl0 uid HI) as (HI2 & Habs & Hnone & _).
  rewrite (upsert_eq (erase sl0 uid).2 uid s ts sl0 eq_refl). split.
  - apply upsert_inv; auto.
  - rewrite upsert_abs, Habs by auto. apply insert_delete_eq.
Qed.

End SkipListUpsert.

Module SkipListSort.
Import SkipList SkipListOrder SkipListChains SkipListInv.

Lemma eqb_key x y :
  is_nan x = false -> is_nan y = false ->
  (x =? y)%float = true <-> key x = key y.
Proof.
  intros Hx Hy. apply not_nan_SF in Hx, Hy. unfold key.
  rewrite FloatAxioms.eqb_spec. unfold SpecFloat.SFeqb.
  destruct (FloatOps.Prim2SF x) as [sx|sx| |sx mx ex]; try congruence;
  destruct (FloatOps.Prim2SF y) as [sy|sy| |sy my ey]; try congruence;
  try destruct sx; try destruct sy; cbn;
  try (split; intros E; first [reflexivity | discriminate | inversion E; lia]);
  destruct (Z.compare_spec ex ey); subst; cbn;
  try (split; intros E; first [reflexivity | discriminate | inversion E; lia]);
  change (Pos.compare_cont Eq mx my) with (Pos.compare mx my);
  destruct (Pos.compare_spec mx my); subst; cbn;
  split; intros E; first [reflexivity | discriminate | inversion E; lia].
Qed.

(** An entry seen as a node, to compare entries with [comes_before]. *)
Definition enode (e : string * float) : node := mk_node e.1 e.2 0 0.

Definition ok_entry (e : string * float) : Prop := ok_score e.2.

Lemma eb_cb a b :
  ok_entry a -> ok_entry b -> entry_before a b = cb (enode a) (enode b).
Proof.
  unfold ok_entry, ok_score. intros Ha Hb.
  unfold entry_before, cb, comes_before, enode. cbn [score user_id].
  destruct (b.2 <? a.2)%float eqn:E1; [reflexivity|]. cbn [orb].
  assert (N1 : ~ klt (key b.2) (key a.2)) by (rewrite <- ltb_key by auto; congruence).
  destruct (a.2 <? b.2)%float eqn:E2.
  - apply ltb_key in E2; auto. destruct (a.2 =? b.2)%float eqn:E3; [|reflexivity].
    apply eqb_key in E3; auto. rewrite E3 in E2. exfalso; eapply klt_irrefl; eauto.
  - assert (N2 : ~ klt (key a.2) (key b.2)) by (rewrite <- ltb_key by auto; congruence).
    assert (E3 : (a.2 =? b.2)%float = true).
    { apply eqb_key; auto. destruct (decide (key a.2 = key b.2)) as [?|Hne]; auto.
      destruct (klt_total _ _ Hne); tauto. }
    rewrite E3. reflexivity.
Qed.

Definition eb (a b : string * float) : Prop := entry_before a b = true.

Lemma eb_trans a b c :
  ok_entry a -> ok_entry b -> ok_entry c -> eb a b -> eb b c -> eb a c.
Proof.
  unfold eb. intros Ha Hb Hc. rewrite !eb_cb by auto. apply cb_trans; auto.
Qed.

Lemma eb_total a b :
  ok_entry a -> ok_entry b -> a.1 <> b.1 -> eb a b \/ eb b a.
Proof.
  unfold eb. intros Ha Hb Hne. rewrite !eb_cb by auto. apply cb_total; auto.
Qed.

Lemma eb_asym a b : ok_entry a -> ok_entry b -> eb a b -> ~ eb b a.
Proof.
  unfold eb. intros Ha Hb. rewrite !eb_cb by auto. intros H.
  rewrite (cb_asym (enode a) (enode b) Ha Hb H). discriminate.
Qed.

(** Insertion sort. *)
Lemma insert_entry_perm a l : insert_entry a l ≡ₚ a :: l.
Proof.
  induction l as [|b l IH]; cbn; [reflexivity|].
  destruct (entry_before a b); [reflexivity|].
  rewrite IH. apply perm_swap.
Qed.

Lemma sort_entries_perm l : sort_entries l ≡ₚ l.
Proof.
  induction l as [|a l IH]; cbn; [reflexivity|].
  rewrite insert_entry_perm. fold (sort_entries l). rewrite IH. reflexivity.
Qed.

Lemma insert_entry_sorted a l :
  ok_entry a -> Forall ok_entry l -> (forall b, b ∈ l -> a.1 <> b.1) ->
  StronglySorted eb l -> StronglySorted eb (insert_entry a l).
Proof.
  intros Ha. induction l as [|b l IH]; intros Hok Hid Hs; cbn.
  - repeat constructor.
  - apply Forall_cons in Hok as [Hb Hok]. apply StronglySorted_inv in Hs as [Hs Hall].
    destruct (entry_before a b) eqn:E.
    + constructor; [constructor; auto|]. constructor; [exact E|].
      rewrite Forall_forall in Hall, Hok |- *. intros c Hc.
      eapply eb_trans; eauto.
    + constructor; [apply IH; auto; intros c Hc; apply Hid; set_solver|].
      apply Forall_forall. intros c Hc.
      rewrite (insert_entry_perm a l) in Hc. apply elem_of_cons in Hc as [->|Hc].
      * destruct (eb_total a b Ha Hb (Hid b ltac:(set_solver))) as [E'|E'];
          [unfold eb in E'; congruence|exact E'].
      * rewrite Forall_forall in Hall. auto.
Qed.

Lemma sort_entries_sorted l :
  Forall ok_entry l -> NoDup l.*1 -> StronglySorted eb (sort_entries l).
Proof.
  induction l as [|a l IH]; intros Hok Hnd; cbn; [constructor|].
  apply Forall_cons in Hok as [Ha Hok]. cbn in Hnd. apply NoDup_cons in Hnd as [Hnin Hnd].
  fold (sort_entries l). apply insert_entry_sorted; auto.
  - rewrite Forall_forall in Hok |- *. intros c Hc. rewrite sort_entries_perm in Hc. auto.
  - intros b Hb Heq. rewrite sort_entries_perm in Hb. apply Hnin.
    rewrite Heq. apply list_elem_of_fmap. eauto.
Qed.

(** Sorted lists. *)
Lemma SS_map {A B} (f : A -> B) (R : A -> A -> Prop) (R' : B -> B -> Prop) l :
  (forall a b, a ∈ l -> b ∈ l -> R a b -> R' (f a) (f b)) ->
  StronglySorted R l -> StronglySorted R' (map f l).
Proof.
  intros Hf Hs. induction Hs as [|a l Hs IH Hall]; cbn; constructor.
  - apply IH. intros; apply Hf; auto; set_solver.
  - apply Forall_forall. intros c Hc. apply list_elem_of_In, in_map_iff in Hc as [b [<- Hb]].
    apply list_elem_of_In in Hb. rewrite Forall_forall in Hall.
    apply Hf; auto; set_solver.
Qed.

Lemma SS_nodup {A} (R : A -> A -> Prop) l :
  (forall a, a ∈ l -> ~ R a a) -> StronglySorted R l -> NoDup l.
Proof.
  intros Hirr Hs. induction Hs as [|a l Hs IH Hall]; constructor.
  - intros Ha. rewrite Forall_forall in Hall. apply (Hirr a); [set_solver|auto].
  - apply IH. intros; apply Hirr; set_solver.
Qed.

Lemma SS_perm_unique {A} (R : A -> A -> Prop) l1 l2 :
  (forall a b, a ∈ l1 -> b ∈ l1 -> R a b -> ~ R b a) ->
  StronglySorted R l1 -> StronglySorted R l2 -> l1 ≡ₚ l2 -> l1 = l2.
Proof.
  revert l2. induction l1 as [|a l1 IH]; intros l2 Hasym H1 H2 Hp.
  - symmetry. apply Permutation_nil. exact Hp.
  - destruct l2 as [|b l2]; [apply Permutation_length in Hp; discriminate|].
    apply StronglySorted_inv in H1 as [H1 F1]. apply StronglySorted_inv in H2 as [H2 F2].
    rewrite Forall_forall in F1, F2.
    assert (Ha : a ∈ b :: l2) by (rewrite <- Hp; set_solver).
    assert (Hb : b ∈ a :: l1) by (rewrite Hp; set_solver).
    apply elem_of_cons in Ha as [->|Ha].
    + f_equal. apply IH; auto.
      * intros; apply Hasym; set_solver.
      * eapply Permutation_cons_inv; eauto.
    + exfalso. apply elem_of_cons in Hb as [->|Hb].
      * apply (Hasym a a); auto; set_solver.
      * apply (Hasym a b); auto; set_solver.
Qed.

(** The level-0 list of a skip list that satisfies the invariant. *)
Section Entries.
Variable sl : skip_list.
Hypothesis HI : Inv sl.

Lemma SS_omap l :
  StronglySorted (prec sl) l ->
  StronglySorted (fun a b => cb a b = true) (omap (fun p => heap sl !! p) l).
Proof.
  induction 1 as [|p l Hs IH Hall]; cbn; [constructor|].
  destruct (heap sl !! p) as [n|] eqn:Ep; [|exact IH].
  constructor; [exact IH|]. apply Forall_forall. intros m Hm.
  apply list_elem_of_omap in Hm as [q [Hq Eq]]. rewrite Forall_forall in Hall.
  specialize (Hall q Hq). unfold prec in Hall. rewrite Ep, Eq in Hall. exact Hall.
Qed.

Lemma nodes0_elem n : n ∈ nodes0 sl <-> exists p, p ∈ chain sl 0 /\ heap sl !! p = Some n.
Proof. unfold nodes0. apply list_elem_of_omap. Qed.

Lemma entries_elem_node e : e ∈ entries sl <-> exists n, n ∈ nodes0 sl /\ e = (user_id n, score n).
Proof.
  unfold entries. rewrite list_elem_of_In, in_map_iff.
  split; intros [n [H1 H2]]; exists n; rewrite list_elem_of_In in *; auto.
Qed.

Lemma entries_ok : Forall ok_entry (entries sl).
Proof.
  apply Forall_forall. intros e He. apply entries_elem_node in He as [n [Hn ->]].
  apply nodes0_elem in Hn as [p [_ Hp]]. exact (inv_ok _ HI p n Hp).
Qed.

Lemma entries_sorted : StronglySorted eb (entries sl).
Proof.
  unfold entries. apply SS_map with (R := fun a b => cb a b = true).
  - intros a b Ha Hb H. unfold eb. rewrite eb_cb; [exact H| |].
    + apply nodes0_elem in Ha as [p [_ Hp]]. exact (inv_ok _ HI p a Hp).
    + apply nodes0_elem in Hb as [p [_ Hp]]. exact (inv_ok _ HI p b Hp).
  - apply SS_omap, (inv_sorted _ HI).
Qed.

Lemma entries_asym a b : a ∈ entries sl -> b ∈ entries sl -> eb a b -> ~ eb b a.
Proof.
  pose proof entries_ok as Hok. rewrite Forall_forall in Hok.
  intros Ha Hb. apply eb_asym; auto.
Qed.

Lemma entries_nodup : NoDup (entries sl).
Proof.
  apply SS_nodup with (R := eb); [|apply entries_sorted].
  intros a Ha H. exact (entries_asym a a Ha Ha H H).
Qed.

Lemma entries_elem e : e ∈ entries sl <-> abs sl !! e.1 = Some e.2.
Proof.
  rewrite entries_elem_node. unfold abs. rewrite lookup_omap. split.
  - intros [n [Hn ->]]. apply nodes0_elem in Hn as [p [_ Hp]]. cbn [fst snd].
    rewrite (proj2 (inv_index _ HI (user_id n) p)) by eauto. cbn. rewrite Hp. reflexivity.
  - destruct e as [u f]. cbn [fst snd].
    destruct (index_ sl !! u) as [p|] eqn:Eu; cbn; [|discriminate].
    destruct (heap sl !! p) as [n|] eqn:Ep; cbn; [|discriminate]. intros [= <-].
    apply (inv_index _ HI) in Eu as [n' [Hn' <-]]. rewrite Ep in Hn'. injection Hn' as <-.
    exists n. split; [|reflexivity]. apply nodes0_elem. exists p. split; auto.
    apply (inv_heap _ HI). eauto.
Qed.

Lemma entries_perm : entries sl ≡ₚ map_to_list (abs sl).
Proof.
  apply NoDup_Permutation; [apply entries_nodup|apply NoDup_map_to_list|].
  intros [u f]. rewrite elem_of_map_to_list, entries_elem. reflexivity.
Qed.

Lemma entries_sort : entries sl = sort_entries (map_to_list (abs sl)).
Proof.
  assert (Hok : Forall ok_entry (map_to_list (abs sl))).
  { pose proof entries_ok as Hok. rewrite Forall_forall in Hok |- *.
    intros e He. apply Hok. rewrite entries_perm. exact He. }
  apply SS_perm_unique with (R := eb).
  - apply entries_asym.
  - apply entries_sorted.
  - apply sort_entries_sorted; [exact Hok|apply NoDup_fst_map_to_list].
  - rewrite sort_entries_perm. apply entries_perm.
Qed.

End Entries.

End SkipListSort.

Module SkipListRun.
Import SkipList SkipListOrder SkipListInv SkipListErase SkipListUpsert SkipListSort.

Lemma create_inv max_levels probability rng sl :
  create max_levels probability rng = Some sl -> Inv sl /\ abs sl = ∅.
Proof.
  unfold create. destruct ((max_levels <=? 0) || (kMaxSupportedLevels <? max_levels)) eqn:E1;
    [discriminate|].
  destruct ((probability <=? 0)%float || (1 <=? probability)%float); [discriminate|].
  intros [= <-]. apply orb_false_iff in E1 as [E1 _]. apply Z.leb_gt in E1.
  assert (Hc : chain (mk_skip_list max_levels probability 1 0 rng 0 ∅
                        (replicate (Z.to_nat max_levels) []) ∅ 0) 0 = []).
  { unfold chain. cbn [links]. destruct (Z.to_nat max_levels); reflexivity. }
  split; [split|]; cbn [max_levels_ current_level_ links heap index_ size_ next_addr];
    rewrite ?Hc.
  - lia.
  - apply length_replicate.
  - lia.
  - intros l Hl. rewrite length_replicate in Hl. rewrite lookup_replicate_2 by exact Hl.
    reflexivity.
  - constructor.
  - intros p. rewrite lookup_empty. split; [set_solver|]. intros [? ?]; discriminate.
  - intros p n. rewrite lookup_empty. discriminate.
  - intros p. rewrite lookup_empty. intros [? ?]; discriminate.
  - constructor.
  - intros u p. rewrite !lookup_empty. split; [discriminate|]. intros [n [Hn _]]. discriminate.
  - reflexivity.
  - intros p n. rewrite lookup_empty. discriminate.
  - unfold abs. cbn [index_]. apply omap_empty.
Qed.

Lemma run_inv sl ops :
  Inv sl ->
  (forall uid s ts, In (Upsert uid s ts) ops -> is_nan s = false) ->
  Inv (run sl ops) /\
  abs (run sl ops) =
    fold_left (fun m o => match o with
                          | Upsert uid s _ => <[uid := s]> m
                          | Erase uid => delete uid m
                          end) ops (abs sl).
Proof.
  revert sl. induction ops as [|o ops IH]; intros sl HI Hok; [split; auto|].
  unfold run. cbn [fold_left]. fold (run (step sl o) ops).
  destruct o as [uid s ts|uid]; cbn [step].
  - destruct (upsert_step sl uid s ts HI) as [HI2 Habs].
    { apply (Hok uid s ts). left. reflexivity. }
    rewrite <- Habs. apply IH; auto. intros u s' t' H. apply (Hok u s' t'). right. exact H.
  - destruct (erase_step sl uid HI) as (HI2 & Habs & _).
    rewrite <- Habs. apply IH; auto. intros u s' t' H. apply (Hok u s' t'). right. exact H.
Qed.

End SkipListRun.


(* ------------------------------------------------------------------ *)
(** ** Leaderboard *)

Module LeaderboardFacts.
Import SkipList SkipListInv SkipListErase SkipListUpsert SkipListSort.

Lemma length_omap_some {A B} (f : A -> option B) l :
  (forall a, a ∈ l -> is_Some (f a)) -> length (omap f l) = length l.
Proof.
  induction l as [|a l IH]; intros Hf; [reflexivity|]. cbn.
  destruct (Hf a ltac:(set_solver)) as [b ->]. cbn. f_equal.
  apply IH. intros; apply Hf; set_solver.
Qed.

Lemma size_abs sl : Inv sl -> size_ sl = size (abs sl).
Proof.
  intros HI. rewrite (inv_size _ HI), <- length_map_to_list.
  rewrite <- (Permutation_length (entries_perm sl HI)). unfold entries.
  rewrite length_map. unfold nodes0. symmetry. apply length_omap_some.
  intros p Hp. apply (inv_heap _ HI). exact Hp.
Qed.

Lemma abs_lookup sl p n :
  Inv sl -> heap sl !! p = Some n -> abs sl !! user_id n = Some (score n).
Proof.
  intros HI Hp. unfold abs. rewrite lookup_omap.
  rewrite (proj2 (inv_index _ HI (user_id n) p)) by eauto. cbn. rewrite Hp. reflexivity.
Qed.

Lemma tail_some sl :
  Inv sl -> (0 < size_ sl)%nat ->
  exists p tl, tail sl = Some tl /\ heap sl !! p = Some tl.
Proof.
  intros HI Hs. rewrite (inv_size _ HI) in Hs. unfold tail.
  destruct (last (chain sl 0)) as [p|] eqn:Hl.
  - apply last_Some_elem_of in Hl. apply (inv_heap _ HI) in Hl as [tl Htl].
    exists p, tl. cbn. rewrite Htl. auto.
  - apply last_None in Hl. rewrite Hl in Hs. cbn in Hs. lia.
Qed.

Lemma evict_spec max_users uid sl :
  Inv sl -> 0 < max_users -> Z.of_nat (size_ sl) <= max_users + 1 ->
  Inv (Leaderboard.evict max_users uid sl) /\
  Z.of_nat (size_ (Leaderboard.evict max_users uid sl)) <= max_users.
Proof.
  intros HI Hm Hs. unfold Leaderboard.evict.
  destruct (Z.ltb_spec 0 max_users); [|lia]. cbn [andb].
  destruct (Z.ltb_spec max_users (Z.of_nat (size_ sl))) as [Hgt|]; [|auto].
  destruct (tail_some sl HI ltac:(lia)) as (p & tl & -> & Htl).
  rewrite orb_true_r.
  destruct (erase_step sl (user_id tl) HI) as (HI2 & Habs & _). split; [exact HI2|].
  rewrite (size_abs _ HI2), Habs, map_size_delete_Some.
  - rewrite <- (size_abs _ HI). lia.
  - rewrite (abs_lookup sl p tl HI Htl). eauto.
Qed.

Lemma evict_size_max max_users uid sl :
  Inv sl -> 0 < max_users ->
  Inv (Leaderboard.evict max_users uid sl) /\
  Z.of_nat (size_ (Leaderboard.evict max_users uid sl)) <=
    Z.max max_users (Z.of_nat (size_ sl) - 1).
Proof.
  intros HI Hm. unfold Leaderboard.evict.
  destruct (Z.ltb_spec 0 max_users); [|lia]. cbn [andb].
  destruct (Z.ltb_spec max_users (Z.of_nat (size_ sl))) as [Hgt|]; [|split; [exact HI|lia]].
  destruct (tail_some sl HI ltac:(lia)) as (p & tl & -> & Htl).
  rewrite orb_true_r.
  destruct (erase_step sl (user_id tl) HI) as (HI2 & Habs & _). split; [exact HI2|].
  rewrite (size_abs _ HI2), Habs, map_size_delete_Some.
  - rewrite <- (size_abs _ HI). lia.
  - rewrite (abs_lookup sl p tl HI Htl). eauto.
Qed.

End LeaderboardFacts.

(* ------------------------------------------------------------------ *)
(** ** JSON snapshot *)

Module SnapshotFacts.
Import Leaderboard Snapshot.

Lemma load_header_skip_list lb content o lb1 :
  load_header lb content = (o, lb1) -> skip_list_ lb1 = skip_list_ lb.
Proof.
  unfold load_header.
  destruct (extract_numeric content "decay_factor") as [v|];
    [destruct (NumIO.stod v) as [d|]; [destruct (TimeDecay.create d)|]|];
    try (intros [= _ <-]; reflexivity);
    destruct (extract_numeric content "max_users") as [w|];
    try destruct (NumIO.stoull w); intros [= _ <-]; reflexivity.
Qed.

Lemma load_header_set lb content sl :
  load_header (set_skip_list lb sl) content =
  (fst (load_header lb content), set_skip_list (snd (load_header lb content)) sl).
Proof.
  unfold load_header.
  destruct (extract_numeric content "decay_factor") as [v|];
    [destruct (NumIO.stod v) as [d|]; [destruct (TimeDecay.create d)|]|];
    destruct (extract_numeric content "max_users") as [w|];
    try destruct (NumIO.stoull w); reflexivity.
Qed.

Lemma clear_clear sl : SkipList.clear (SkipList.clear sl) = SkipList.clear sl.
Proof. unfold SkipList.clear. cbn. rewrite length_replicate. reflexivity. Qed.

Lemma entries_clear sl : SkipList.entries (SkipList.clear sl) = [].
Proof.
  unfold SkipList.entries, SkipList.nodes0, SkipList.chain, SkipList.clear. cbn.
  destruct (length (SkipList.links sl)); reflexivity.
Qed.

Lemma load_entries_skip fuel block pos sl :
  Forall (fun obj => fields obj = None) (objects fuel block pos) ->
  load_entries fuel block pos sl = (Returned, sl).
Proof.
  revert pos. induction fuel as [|fuel IH]; intros pos Hobj; [reflexivity|].
  cbn in Hobj |- *.
  destruct (find_char block "{" pos) as [s|]; [|reflexivity].
  destruct (find_char block "}" s) as [e|]; [|reflexivity].
  apply Forall_cons in Hobj as [Hf Hobj]. rewrite Hf. apply IH. exact Hobj.
Qed.

End SnapshotFacts.


(* ================================================================== *)
(** * The claims *)

(* ------------------------------------------------------------------ *)
(** ** Count-Min Sketch *)

(** Claim C2, as the code has it: for a sketch of width [2^j], depth at least
    1, and a sequence of increments in which no u64 counter overflows,
    [estimate k] is at least the true count of [k], unless every counter
    addressed by [k] holds [UINT64_MAX], in which case [estimate] returns 0. *)
Theorem cms_estimate_ge_true_count (w d s : Z) (c0 : CMS.cms)
    (ops : list (string * Z)) (k : string) :
  CMS.create w d s = Some c0 ->
  (exists j, 0 <= j /\ w = 2 ^ j) -> 1 <= d -> w * d <= UINT64_MAX ->
  CMS.no_overflow c0 ops ->
  CMS.true_count ops k <= CMS.estimate (CMS.run c0 ops) k \/
  ((forall i, 0 <= i < d ->
      CMS.table (CMS.run c0 ops) !! Z.to_nat (CMS.cell (CMS.run c0 ops) k i)
      = Some UINT64_MAX) /\
   CMS.estimate (CMS.run c0 ops) k = 0).
Proof.
  intros Hc Hpow Hd Hwd Hno.
  assert (Hv : CMSFacts.valid_dims w d) by (split; [exact Hpow|lia]).
  pose proof (CMSFacts.inv_run w d ops Hv c0 _ (CMSFacts.inv_create w d s c0 Hc Hv) Hno) as Hinv.
  exact (CMSFacts.estimate_spec w d _ _ k Hv Hinv).
Qed.

Lemma cms_estimate_ge_true_count_witness :
  CMS.no_overflow (CMS.mk_cms 4 2 7 (replicate 8 0)) [("a", 3); ("b", 5)] /\
  (CMS.true_count [("a", 3); ("b", 5)] "a"
     <= CMS.estimate (CMS.run (CMS.mk_cms 4 2 7 (replicate 8 0)) [("a", 3); ("b", 5)]) "a" \/
   ((forall i, 0 <= i < 2 ->
       CMS.table (CMS.run (CMS.mk_cms 4 2 7 (replicate 8 0)) [("a", 3); ("b", 5)])
         !! Z.to_nat (CMS.cell (CMS.run (CMS.mk_cms 4 2 7 (replicate 8 0))
                                        [("a", 3); ("b", 5)]) "a" i)
       = Some UINT64_MAX) /\
    CMS.estimate (CMS.run (CMS.mk_cms 4 2 7 (replicate 8 0)) [("a", 3); ("b", 5)]) "a" = 0)).
Proof.
  assert (Hno : CMS.no_overflow (CMS.mk_cms 4 2 7 (replicate 8 0)) [("a", 3); ("b", 5)]).
  { cbn [CMS.no_overflow CMS.depth CMS.increment]. split; [unfold UINT64_MAX; lia|]. split.
    { intros i Hi. assert (i = 0 \/ i = 1) as [-> | ->] by lia; vm_compute; discriminate. }
    split; [unfold UINT64_MAX; lia|]. split; [|exact I].
    intros i Hi. assert (i = 0 \/ i = 1) as [-> | ->] by lia; vm_compute; discriminate. }
  split; [exact Hno|].
  apply (cms_estimate_ge_true_count 4 2 7); [reflexivity|exists 2; lia|lia|vm_compute; discriminate|exact Hno].
Defined.

(** Claim C2 fails on the code: one [increment("k", UINT64_MAX)] on a 1x1
    sketch overflows nothing, yet [estimate("k")] is 0, below the true count. *)
Lemma cms_estimate_below_true_count :
  CMS.create 1 1 0 = Some (CMS.mk_cms 1 1 0 [0]) /\
  CMS.no_overflow (CMS.mk_cms 1 1 0 [0]) [("k", UINT64_MAX)] /\
  CMS.true_count [("k", UINT64_MAX)] "k" = UINT64_MAX /\
  CMS.estimate (CMS.run (CMS.mk_cms 1 1 0 [0]) [("k", UINT64_MAX)]) "k" = 0.
Proof.
  split; [reflexivity|]. split; [|split; vm_compute; reflexivity].
  cbn [CMS.no_overflow CMS.depth]. split; [unfold UINT64_MAX; lia|]. split; [|exact I].
  intros i Hi. assert (i = 0) as -> by lia. vm_compute. discriminate.
Qed.

(** Claim C6 (code bug): the constructor accepts width 0, which is not a
    power of two ([0 & (0 - 1)] is 0); the sketch it builds has an empty
    table, and the first counter an increment addresses lies outside it. *)
Theorem cms_create_accepts_width_zero :
  CMS.create 0 1 12345 = Some (CMS.mk_cms 0 1 12345 []) /\
  (length (CMS.table (CMS.mk_cms 0 1 12345 [])) <=
     Z.to_nat (CMS.cell (CMS.mk_cms 0 1 12345 []) "alpha" 0))%nat.
Proof. split; [reflexivity|]. apply Nat.le_0_l. Qed.

(* ------------------------------------------------------------------ *)
(** ** HyperLogLog *)

(** Claim C4, as the code has it: for a precision [p] in [4, 18], [add(v)]
    offers its register [rho(hash << p, 64 - p)], which is at most [64 - p]
    when the low [64 - p] bits of the hash are not all zero, and exactly
    [65 - p] when they are; so every register of a reachable state is at
    most [65 - p] (not [64 - p]). *)
Theorem hll_register_cap (p : Z) (s0 : HLL.hll) (values : list string) :
  HLL.create p = Some s0 ->
  Forall (fun r => 0 <= r <= 65 - p) (HLL.registers (HLL.run s0 values)) /\
  (forall v, let remaining := u64 (Z.shiftl (HLL.hash_value v) p) in
     (remaining <> 0 /\ 1 <= HLL.rho remaining (64 - p) <= 64 - p) \/
     (remaining = 0 /\ HLL.rho remaining (64 - p) = 65 - p)).
Proof.
  intros Hc. unfold HLL.create in Hc.
  destruct (Z.ltb_spec p 4) as [Hp4|Hp4]; [discriminate|]. destruct (Z.ltb_spec 18 p) as [Hp18|Hp18]; [discriminate|].
  injection Hc as <-.
  assert (Hrk : forall v, 1 <= HLLFacts.rk p v <= 65 - p).
  { intros v. unfold HLLFacts.rk.
    destruct (HLLFacts.rho_remaining p (HLL.hash_value v) ltac:(lia) (HLLFacts.hash_value_range v))
      as [[_ H]|[_ H]]; lia. }
  split.
  - apply Forall_lookup. intros j x Hj.
    rewrite HLLFacts.run_lookup in Hj. cbn [HLL.registers HLL.precision] in Hj.
    destruct (decide (j < Z.to_nat (2 ^ p))%nat) as [Hlt|Hge].
    + rewrite lookup_replicate_2 in Hj by exact Hlt. injection Hj as <-.
      match goal with |- context [fold_left Z.max ?l 0] =>
        destruct (HLLFacts.fold_max_ub l 0) as [H0 _];
        destruct (HLLFacts.fold_max_cases l 0) as [->|Hin] end; [lia|].
      split; [lia|]. apply list_elem_of_fmap in Hin as [v [-> _]]. apply Hrk.
    + rewrite lookup_ge_None_2 in Hj by (rewrite length_replicate; lia). discriminate.
  - intros v. apply HLLFacts.rho_remaining; [lia|]. apply HLLFacts.hash_value_range.
Qed.

Lemma hll_register_cap_witness :
  HLL.create 4 = Some (HLL.mk_hll 4 (replicate 16 0)) /\
  Forall (fun r => 0 <= r <= 65 - 4)
    (HLL.registers (HLL.run (HLL.mk_hll 4 (replicate 16 0)) ["a"; "b"; "a"])) /\
  (forall v, let remaining := u64 (Z.shiftl (HLL.hash_value v) 4) in
     (remaining <> 0 /\ 1 <= HLL.rho remaining (64 - 4) <= 64 - 4) \/
     (remaining = 0 /\ HLL.rho remaining (64 - 4) = 65 - 4)).
Proof.
  split; [reflexivity|]. apply (hll_register_cap 4). reflexivity.
Defined.

(** Claim C4 fails on the code: the 16-byte value below hashes to 0, so at
    the default precision 14 [add] stores [rho(0, 50) = 51] in register 0,
    above the cap [64 - 14]. *)
Lemma hll_register_exceeds_cap :
  HLL.create 14 = Some (HLL.mk_hll 14 (replicate (Z.to_nat (2 ^ 14)) 0)) /\
  HLL.hash_value "?4RL?AEAcG_@@1,@" = 0 /\
  HLL.registers (HLL.add (HLL.mk_hll 14 (replicate (Z.to_nat (2 ^ 14)) 0)) "?4RL?AEAcG_@@1,@") !! 0%nat
    = Some 51 /\
  64 - 14 < 51.
Proof.
  split; [vm_compute; reflexivity|]. split; [vm_compute; reflexivity|].
  split; [vm_compute; reflexivity|lia].
Qed.

(** Claim C10: [add] is idempotent and any two adds commute; so the state
    after a sequence of adds, hence [cardinality()], depends only on the
    set of values added. *)
Theorem hll_add_set_semantics :
  (forall (s : HLL.hll) (v : string), HLL.add (HLL.add s v) v = HLL.add s v) /\
  (forall (s : HLL.hll) (u v : string), HLL.add (HLL.add s u) v = HLL.add (HLL.add s v) u) /\
  (forall (s : HLL.hll) (vs1 vs2 : list string),
     (forall v, v ∈ vs1 <-> v ∈ vs2) -> HLL.run s vs1 = HLL.run s vs2).
Proof.
  split; [exact HLLFacts.add_idem|]. split; [exact HLLFacts.add_comm|].
  intros s vs1 vs2 Hsame.
  apply HLLFacts.hll_eq; [rewrite !HLLFacts.run_precision; reflexivity|].
  apply list_eq. intros j. rewrite !HLLFacts.run_lookup.
  destruct (HLL.registers s !! j); [|reflexivity]. cbn [fmap option_fmap option_map].
  f_equal. apply HLLFacts.fold_max_same. intros x.
  rewrite !list_elem_of_fmap.
  split; intros [v [-> Hv]]; exists v; split; try reflexivity;
    apply list_elem_of_filter in Hv as [Hi Hv]; apply list_elem_of_filter;
    split; try exact Hi; apply Hsame; exact Hv.
Qed.

(* ------------------------------------------------------------------ *)
(** ** Ring buffer *)

(** Claim C7 (code bug): scenario S3 holds at capacity 8, but a ring of
    capacity 1 (built with size 1, or size 0) is no bounded FIFO: the second
    push is accepted over the unread first item, and the following pop
    never returns (its loop sees [diff > 0] and reloads the same position
    forever). *)
Theorem ring_capacity_one_not_fifo :
  (exists r8 r8',
     Ring.push_all (Ring.create 8) [0; 1; 2; 3; 4; 5; 6; 7; 8] =
       Some ([true; true; true; true; true; true; true; true; false], r8) /\
     Ring.pop_n 9 r8 =
       Some ([(true, Some 0); (true, Some 1); (true, Some 2); (true, Some 3);
              (true, Some 4); (true, Some 5); (true, Some 6); (true, Some 7);
              (false, None)], r8')) /\
  (forall size, size = 0 \/ size = 1 ->
     Ring.size_ (Ring.create (T := Z) size) = 1 /\
     Ring.push_all (Ring.create size) [10; 11] =
       Some ([true; true], Ring.mk_ring 1 0 [2] [Some 11] 2 0) /\
     forall fuel, Ring.pop fuel (Ring.mk_ring 1 0 [2] [Some 11] 2 0) = None).
Proof.
  split.
  - eexists _, _. split; [vm_compute; reflexivity|]. vm_compute. reflexivity.
  - intros size Hs.
    assert (Hc : Ring.create (T := Z) size = Ring.create 1) by (destruct Hs as [-> | ->]; reflexivity).
    rewrite Hc. split; [reflexivity|]. split; [vm_compute; reflexivity|].
    apply RingFacts.pop_spins. vm_compute. reflexivity.
Qed.

(* ------------------------------------------------------------------ *)
(** ** Time decay *)

(** Claim C8, as the code has it: for int64 timestamps, [apply] returns the
    score itself when [t_now <= t_last]; when [t_last < t_now] and the
    difference fits in [int64_t], it returns
    [s * pow(decay_factor, double(t_now - t_last) / 86400.0)] (the guard
    [days <= 0.0] never fires); and when the difference overflows
    [int64_t], the subtraction is undefined behaviour. *)
Theorem time_decay_apply_spec (pow : float -> float -> float) (td : TimeDecay.time_decay)
    (s : float) (t_last t_now : Z) :
  in_int64 t_last -> in_int64 t_now ->
  (t_now <= t_last -> TimeDecay.apply pow td s t_last t_now = Some s) /\
  (t_last < t_now -> t_now - t_last <= INT64_MAX ->
     TimeDecay.apply pow td s t_last t_now =
       Some (s * pow (TimeDecay.decay_factor_ td)
                     (TimeDecay.double_of_delta (t_now - t_last) / 86400))%float) /\
  (INT64_MAX < t_now - t_last -> TimeDecay.apply pow td s t_last t_now = None).
Proof.
  intros Hl Hn. unfold TimeDecay.apply.
  split; [|split].
  - intros Hle. destruct (Z.leb_spec t_now t_last); [reflexivity|lia].
  - intros Hlt Hfit.
    destruct (Z.leb_spec t_now t_last); [lia|].
    destruct (Z.leb_spec INT64_MIN (t_now - t_last));
      [|unfold in_int64, INT64_MIN, INT64_MAX in *; lia].
    destruct (Z.leb_spec (t_now - t_last) INT64_MAX); [|lia].
    cbn [andb negb]. unfold TimeDecay.double_of_delta.
    rewrite FloatFacts.days_not_le_zero; [reflexivity|].
    rewrite Uint63.of_Z_spec, Z.mod_small; [lia|].
    unfold Uint63.wB, Uint63.size, INT64_MAX in *. simpl Z.of_nat. lia.
  - intros Hover.
    destruct (Z.leb_spec t_now t_last); [unfold INT64_MAX in *; lia|].
    destruct (Z.leb_spec (t_now - t_last) INT64_MAX); [lia|].
    rewrite andb_false_r. reflexivity.
Qed.

Lemma time_decay_apply_spec_witness :
  in_int64 0 /\ in_int64 86400 /\
  (86400 <= 0 -> TimeDecay.apply PrimFloat.mul (TimeDecay.mk_time_decay 0.5) 100 0 86400 = Some 100%float) /\
  (0 < 86400 -> 86400 - 0 <= INT64_MAX ->
     TimeDecay.apply PrimFloat.mul (TimeDecay.mk_time_decay 0.5) 100 0 86400 =
       Some (100 * PrimFloat.mul 0.5 (TimeDecay.double_of_delta (86400 - 0) / 86400))%float) /\
  (INT64_MAX < 86400 - 0 -> TimeDecay.apply PrimFloat.mul (TimeDecay.mk_time_decay 0.5) 100 0 86400 = None).
Proof.
  assert (H0 : in_int64 0) by (unfold in_int64, INT64_MIN, INT64_MAX; lia).
  assert (H1 : in_int64 86400) by (unfold in_int64, INT64_MIN, INT64_MAX; lia).
  split; [exact H0|]. split; [exact H1|].
  apply (time_decay_apply_spec PrimFloat.mul (TimeDecay.mk_time_decay 0.5) 100 0 86400 H0 H1).
Defined.

(** Claim C8 fails on the code for int64 timestamps far apart: with
    [t_last = INT64_MIN] and [t_now = 1], [t_now - t_last] overflows
    [std::int64_t] (undefined behaviour), so [apply] has no defined result.
    ([std::pow] is not reached; [mul] stands in for it.) *)
Lemma time_decay_apply_overflow :
  in_int64 INT64_MIN /\ in_int64 1 /\ INT64_MIN < 1 /\
  TimeDecay.apply PrimFloat.mul (TimeDecay.mk_time_decay 0.5) 100 INT64_MIN 1 = None.
Proof.
  unfold in_int64, INT64_MIN, INT64_MAX. split; [lia|]. split; [lia|]. split; [lia|].
  vm_compute. reflexivity.
Qed.

(* ------------------------------------------------------------------ *)
(** ** Indexed skip list *)

(** C3: from a freshly created skip list, after any sequence of upserts
    whose scores are not NaN and of erases, the level-0 list holds one node
    per present user, in the order of [(- score, user_id)]: it is the sort of
    the present pairs. *)
Theorem skiplist_level0_sorted max_levels probability rng sl0 ops :
  SkipList.create max_levels probability rng = Some sl0 ->
  (forall uid s ts, In (SkipList.Upsert uid s ts) ops -> is_nan s = false) ->
  SkipList.entries (SkipList.run sl0 ops) =
  SkipList.sort_entries (map_to_list (SkipList.present ops)).
Proof.
  intros Hc Hok. destruct (SkipListRun.create_inv _ _ _ _ Hc) as [HI Habs].
  destruct (SkipListRun.run_inv sl0 ops HI Hok) as [HI2 Habs2].
  rewrite (SkipListSort.entries_sort _ HI2), Habs2, Habs. reflexivity.
Qed.

Lemma skiplist_level0_sorted_witness :
  SkipList.entries (SkipList.run sl_example ops_example) =
  SkipList.sort_entries (map_to_list (SkipList.present ops_example)).
Proof.
  apply (skiplist_level0_sorted 16 0.5 (fun _ => false)).
  - reflexivity.
  - intros uid s ts H. cbn in H.
    repeat (destruct H as [H|H]; [first [discriminate | injection H as <- <- <-; reflexivity]|]).
    contradiction.
Defined.

(** C3 with a NaN score: the second upsert of ["b"] does not find the node
    of the first one, so the level-0 list holds two nodes for ["b"]. *)
Lemma skiplist_level0_sorted_nan_counterexample :
  SkipList.create 16 0.5 (fun _ => false) = Some sl_example /\
  SkipList.entries (SkipList.run sl_example ops_nan) =
    [("c", 10%float); ("a", 5%float); ("b", 1%float); ("b", nan)] /\
  SkipList.sort_entries (map_to_list (SkipList.present ops_nan)) =
    [("c", 10%float); ("a", 5%float); ("b", 1%float)].
Proof. split; [reflexivity|split; vm_compute; reflexivity]. Qed.

(* ------------------------------------------------------------------ *)
(** ** Leaderboard *)

(** C5: [update_user] on a skip list that satisfies its invariant, for
    [max_users > 0] and when the score it computes is not NaN: the upsert
    adds at most one user and, when the size then exceeds [max_users], the
    eviction erases the tail. The invariant is kept and the size afterwards
    is at most the larger of [max_users] and the size before. So when the
    size was at most [max_users] before the call (as from a freshly
    constructed leaderboard, through [update_user] calls) it is at most
    [max_users] after it. *)
Theorem leaderboard_capacity pow lb uid points timestamp clock_now lb' :
  SkipListInv.Inv (Leaderboard.skip_list_ lb) ->
  0 < Leaderboard.max_users_ lb ->
  (forall ns, Leaderboard.new_score pow lb uid points
                (Leaderboard.now_of timestamp clock_now) = Some ns -> is_nan ns = false) ->
  Leaderboard.update_user pow lb uid points timestamp clock_now = Some lb' ->
  SkipListInv.Inv (Leaderboard.skip_list_ lb') /\
  Leaderboard.max_users_ lb' = Leaderboard.max_users_ lb /\
  Z.of_nat (SkipList.size_ (Leaderboard.skip_list_ lb')) <=
    Z.max (Leaderboard.max_users_ lb) (Z.of_nat (SkipList.size_ (Leaderboard.skip_list_ lb))) /\
  (Z.of_nat (SkipList.size_ (Leaderboard.skip_list_ lb)) <= Leaderboard.max_users_ lb ->
   Z.of_nat (SkipList.size_ (Leaderboard.skip_list_ lb')) <= Leaderboard.max_users_ lb').
Proof.
  intros HI Hm Hns. unfold Leaderboard.update_user.
  destruct (_ && _); [intros [= <-]; split; [exact HI|]; split; [reflexivity|]; split; lia|].
  destruct (Leaderboard.new_score pow lb uid points _) as [ns|] eqn:Ens; [|discriminate].
  intros [= <-]. cbn [Leaderboard.skip_list_ Leaderboard.max_users_].
  destruct (SkipListUpsert.upsert_step (Leaderboard.skip_list_ lb) uid ns
              (Leaderboard.now_of timestamp clock_now) HI (Hns ns eq_refl)) as [HI1 Habs1].
  destruct (LeaderboardFacts.evict_size_max (Leaderboard.max_users_ lb) uid _ HI1 Hm)
    as [HI2 Hs2].
  assert (Hup : Z.of_nat (SkipList.size_ (SkipList.upsert (Leaderboard.skip_list_ lb) uid ns
                  (Leaderboard.now_of timestamp clock_now))) <=
                Z.of_nat (SkipList.size_ (Leaderboard.skip_list_ lb)) + 1).
  { rewrite (LeaderboardFacts.size_abs _ HI1), Habs1, map_size_insert,
      (LeaderboardFacts.size_abs _ HI).
    destruct (SkipListInv.abs _ !! uid); cbn; lia. }
  split; [exact HI2|]. split; [reflexivity|]. split; lia.
Qed.

(** C5 does not hold for every leaderboard. With a NaN score: at capacity
    2, after [update_user] of "a" (1), "c" (10) and "b" (NaN) the
    leaderboard holds 3 users. The NaN node is first; the erase of the tail
    "a" stops before it and fails. After [load_from_json]: it upserts every
    entry of the file with no eviction, so a file of 3 entries at
    capacity 2 gives 3 users, and a following [update_user] of a new user
    "d" erases one tail only and leaves 3 users. *)
Lemma leaderboard_capacity_counterexample :
  Leaderboard.create 0.5 2 (fun _ => false) = Some lb_example /\
  (forall pow,
    option_map (fun lb => SkipList.size_ (Leaderboard.skip_list_ lb))
      (Leaderboard.update_users pow lb_example calls_nan) = Some 3%nat) /\
  (let '(o, lb1) := Snapshot.load_from_json lb_example content_over_capacity in
   o = Snapshot.Returned /\ Leaderboard.max_users_ lb1 = 2 /\
   SkipList.size_ (Leaderboard.skip_list_ lb1) = 3%nat /\
   forall pow,
     option_map (fun lb => (Leaderboard.max_users_ lb, SkipList.size_ (Leaderboard.skip_list_ lb)))
       (Leaderboard.update_user pow lb1 "d" 1 1 0) = Some (2, 3%nat)).
Proof.
  split; [reflexivity|]. split.
  - intros pow. vm_compute. reflexivity.
  - vm_compute. split; [reflexivity|]. split; [reflexivity|]. split; [reflexivity|].
    intros pow. vm_compute. reflexivity.
Qed.

(* ------------------------------------------------------------------ *)
(** ** JSON snapshot *)

(** C1, as the code has it: the user id [a"b] is saved escaped as [a\"b],
    and [load_from_json] reads the id up to the next quote, with no
    unescaping: it loads [a\]. The id [a\b], saved as [a\\b], loads as
    [a\\b]. Score, timestamp, decay factor and capacity come back. *)
Theorem snapshot_roundtrip_user_id_mangled :
  let r1 := Snapshot.load_from_json lb_example (Snapshot.save_to_json lb_quote) in
  let r2 := Snapshot.load_from_json lb_example (Snapshot.save_to_json lb_backslash) in
  SkipList.entries (Leaderboard.skip_list_ lb_quote) =
    [(String "a" (String Snapshot.dq (String "b" EmptyString)), 1%float)] /\
  r1.1 = Snapshot.Returned /\
  SkipList.entries (Leaderboard.skip_list_ r1.2) =
    [(String "a" (String Snapshot.bs EmptyString), 1%float)] /\
  Leaderboard.decay_ r1.2 = Leaderboard.decay_ lb_quote /\
  Leaderboard.max_users_ r1.2 = Leaderboard.max_users_ lb_quote /\
  SkipList.entries (Leaderboard.skip_list_ lb_backslash) =
    [(String "a" (String Snapshot.bs (String "b" EmptyString)), 1%float)] /\
  r2.1 = Snapshot.Returned /\
  SkipList.entries (Leaderboard.skip_list_ r2.2) =
    [(String "a" (String Snapshot.bs (String Snapshot.bs (String "b" EmptyString))), 1%float)].
Proof. vm_compute. repeat split. Qed.

(** C9: once the [decay_factor] and [max_users] values (when present)
    are read without an exception, [load_from_json] clears the skip list
    before it reads the entries: its result does not depend on the
    previous entries, and a file with no [entries] array, or whose objects
    all lack a field, leaves zero entries. *)
Theorem load_from_json_clears lb content lb1 :
  Snapshot.load_header lb content = (Snapshot.Returned, lb1) ->
  Snapshot.load_from_json lb content =
    Snapshot.load_from_json
      (Snapshot.set_skip_list lb (SkipList.clear (Leaderboard.skip_list_ lb))) content /\
  (Forall (fun obj => Snapshot.fields obj = None) (Snapshot.file_objects content) ->
   Snapshot.load_from_json lb content =
     (Snapshot.Returned,
      Snapshot.set_skip_list lb1 (SkipList.clear (Leaderboard.skip_list_ lb1))) /\
   SkipList.entries (SkipList.clear (Leaderboard.skip_list_ lb1)) = []).
Proof.
  intros Hh. pose proof (SnapshotFacts.load_header_skip_list _ _ _ _ Hh) as Hsl.
  split.
  - unfold Snapshot.load_from_json. rewrite SnapshotFacts.load_header_set, Hh. cbn [fst snd].
    cbn [Snapshot.set_skip_list Leaderboard.skip_list_ Leaderboard.decay_ Leaderboard.max_users_].
    rewrite Hsl, SnapshotFacts.clear_clear. reflexivity.
  - intros Hobj. split; [|apply SnapshotFacts.entries_clear].
    unfold Snapshot.load_from_json. rewrite Hh.
    unfold Snapshot.file_objects in Hobj.
    destruct (Snapshot.entries_block content) as [block|]; [|reflexivity].
    rewrite SnapshotFacts.load_entries_skip by exact Hobj. reflexivity.
Qed.

Lemma load_from_json_clears_witness :
  Snapshot.load_from_json lb_one content_no_entries =
    (Snapshot.Returned,
     Snapshot.set_skip_list (Leaderboard.mk_leaderboard (Leaderboard.skip_list_ lb_one)
                               (TimeDecay.mk_time_decay 0.25) 10)
       (SkipList.clear (Leaderboard.skip_list_ lb_one))) /\
  SkipList.entries (SkipList.clear (Leaderboard.skip_list_ lb_one)) = [].
Proof.
  apply (load_from_json_clears lb_one content_no_entries
           (Leaderboard.mk_leaderboard (Leaderboard.skip_list_ lb_one)
              (TimeDecay.mk_time_decay 0.25) 10)).
  - vm_compute. reflexivity.
  - vm_compute. constructor.
Defined.

(** C9 when the header does not parse: [std::stoull] throws on the
    [max_users] value [x] before the clear, so [load_from_json] throws
    with the previous entry still stored (and the decay factor already
    replaced by 0.25). *)
Lemma load_from_json_throws_before_clear :
  SkipList.entries (Leaderboard.skip_list_ lb_one) = [("a", 1%float)] /\
  (Snapshot.load_from_json lb_one content_bad_max_users).1 = Snapshot.Threw /\
  SkipList.entries
    (Leaderboard.skip_list_ (Snapshot.load_from_json lb_one content_bad_max_users).2) =
    [("a", 1%float)] /\
  Leaderboard.decay_ (Snapshot.load_from_json lb_one content_bad_max_users).2 =
    TimeDecay.mk_time_decay 0.25.
Proof. vm_compute. repeat split. Qed.

(* ================================================================== *)
(** * Further properties of the code *)

(* ------------------------------------------------------------------ *)
(** ** Ring buffer: capacity and single-threaded behaviour *)

Module RingQueueFacts.
Import Ring.

(** The smearing loop of [round_up_to_power_of_two]: after the shifts by
    [1, ..., k / 2], the [k] bits from the top bit [n] down are set. *)
Definition smeared (x n k : Z) : Prop :=
  0 <= x /\ (forall i, n < i -> Z.testbit x i = false) /\
  (forall i, 0 <= i -> n + 1 - k <= i <= n -> Z.testbit x i = true).

Lemma smear_step x n k :
  0 <= n -> 0 < k -> smeared x n k -> smeared (Z.lor x (Z.shiftr x k)) n (2 * k).
Proof.
  intros Hn Hk (Hx & Hhi & Hlo). split; [|split].
  - apply Z.lor_nonneg. split; [lia|]. apply Z.shiftr_nonneg. lia.
  - intros i Hi. rewrite Z.lor_spec, Z.shiftr_spec by lia.
    rewrite !Hhi by lia. reflexivity.
  - intros i Hi0 Hi. rewrite Z.lor_spec, Z.shiftr_spec by lia.
    destruct (Z.le_gt_cases (n + 1 - k) i).
    + rewrite Hlo by lia. reflexivity.
    + rewrite (Hlo (i + k)) by lia. apply orb_true_r.
Qed.

Lemma smear_ones x :
  0 < x < 2 ^ 64 ->
  fold_left (fun v i => Z.lor v (Z.shiftr v i)) [1; 2; 4; 8; 16; 32] x = Z.ones (Z.log2 x + 1).
Proof.
  intros Hx.
  assert (Hn : 0 <= Z.log2 x <= 63).
  { split; [apply Z.log2_nonneg|].
    assert (Z.log2 x < 64) by (apply Z.log2_lt_pow2; lia). lia. }
  assert (H1 : smeared x (Z.log2 x) 1).
  { split; [lia|split].
    - intros i Hi. apply Z.bits_above_log2; lia.
    - intros i _ Hi. replace i with (Z.log2 x) by lia. apply Z.bit_log2. lia. }
  cbn [fold_left].
  pose proof (smear_step _ (Z.log2 x) 1 ltac:(lia) ltac:(lia) H1) as H2.
  pose proof (smear_step _ (Z.log2 x) 2 ltac:(lia) ltac:(lia) H2) as H4.
  pose proof (smear_step _ (Z.log2 x) 4 ltac:(lia) ltac:(lia) H4) as H8.
  pose proof (smear_step _ (Z.log2 x) 8 ltac:(lia) ltac:(lia) H8) as H16.
  pose proof (smear_step _ (Z.log2 x) 16 ltac:(lia) ltac:(lia) H16) as H32.
  pose proof (smear_step _ (Z.log2 x) 32 ltac:(lia) ltac:(lia) H32) as (_ & Hhi & Hlo).
  cbn [Z.mul] in *.
  apply Z.bits_inj'. intros i Hi. rewrite Z.testbit_ones by lia.
  destruct (Z.le_gt_cases i (Z.log2 x)).
  - rewrite Hlo by lia. symmetry. apply andb_true_iff. split; apply Z.leb_le || apply Z.ltb_lt; lia.
  - rewrite Hhi by lia. symmetry. apply andb_false_iff. right. apply Z.ltb_ge. lia.
Qed.

Lemma round_up_spec v :
  1 < v < 2 ^ 64 -> round_up_to_power_of_two v = u64 (2 ^ Z.log2_up v).
Proof.
  intros Hv. unfold round_up_to_power_of_two.
  destruct (Z.leb_spec v 1); [lia|].
  rewrite smear_ones by lia. rewrite Z.ones_equiv.
  rewrite Z.log2_up_eqn by lia. unfold Z.succ. replace (Z.pred v) with (v - 1) by lia.
  f_equal. lia.
Qed.

Lemma u64_small x : 0 <= x < 2 ^ 64 -> u64 x = x.
Proof. apply Z.mod_small. Qed.

Lemma u64_add_l a b : u64 (u64 a + b) = u64 (a + b).
Proof. apply Zplus_mod_idemp_l. Qed.

Lemma to_signed64_sub a b : to_signed64 (u64 a - u64 b) = to_signed64 (a - b).
Proof.
  unfold to_signed64. replace (u64 (u64 a - u64 b)) with (u64 (a - b)); [reflexivity|].
  unfold u64. rewrite (Zminus_mod a b). reflexivity.
Qed.

Lemma to_signed64_small x : - 2 ^ 63 <= x < 2 ^ 63 -> to_signed64 x = x.
Proof.
  intros Hx. unfold to_signed64, u64.
  destruct (Z.le_gt_cases 0 x).
  - rewrite Z.mod_small by lia. destruct (Z.ltb_spec x (2 ^ 63)); lia.
  - replace (x mod 2 ^ 64) with (x + 2 ^ 64).
    + destruct (Z.ltb_spec (x + 2 ^ 64) (2 ^ 63)); lia.
    + rewrite <- (Z_mod_plus_full x 1 (2 ^ 64)). rewrite Z.mod_small; lia.
Qed.

(** Two positions less than [c] apart use different cells. *)
Lemma mod_inj c a b lo :
  0 < c -> lo <= a < lo + c -> lo <= b < lo + c -> a mod c = b mod c -> a = b.
Proof.
  intros Hc Ha Hb Hm.
  pose proof (Z.div_mod a c ltac:(lia)). pose proof (Z.div_mod b c ltac:(lia)).
  pose proof (Z.mod_pos_bound a c Hc). pose proof (Z.mod_pos_bound b c Hc).
  assert (a / c = b / c \/ a / c < b / c \/ b / c < a / c) as [E|[E|E]] by lia; nia.
Qed.

Lemma mod_add_c a c : (a + c) mod c = a mod c.
Proof. rewrite <- (Z_mod_plus_full a 1 c). f_equal. lia. Qed.

Lemma land_mask c k p :
  1 <= k <= 63 -> c = 2 ^ k -> Z.land (u64 p) (c - 1) = p mod c.
Proof.
  intros Hk ->. replace (2 ^ k - 1) with (Z.ones k) by (rewrite Z.ones_equiv; lia).
  rewrite Z.land_ones by lia. unfold u64.
  assert (H64 : 2 ^ 64 = 2 ^ (64 - k) * 2 ^ k) by (rewrite <- Z.pow_add_r by lia; f_equal; lia).
  pose proof (Z.div_mod p (2 ^ 64) ltac:(lia)) as H.
  set (a := p / 2 ^ 64) in *. set (b := p mod 2 ^ 64) in *.
  rewrite H, H64. replace (2 ^ (64 - k) * 2 ^ k * a + b) with (b + 2 ^ (64 - k) * a * 2 ^ k) by ring.
  rewrite Z_mod_plus_full. reflexivity.
Qed.

Section Queue.
Context {T : Type}.

(** The state of a ring of capacity [c] holding the queue [q]: the
    positions [D <= p < E] are filled, [E <= p < D + c] are free; [E] and
    [D] count every push and pop, the ring keeps them modulo [2^64]. *)
Record QInv (c : Z) (r : ring T) (E D : Z) (q : list T) : Prop := {
  qi_k : exists k, 1 <= k <= 63 /\ c = 2 ^ k;
  qi_size : size_ r = c;
  qi_mask : mask_ r = c - 1;
  qi_len_seq : length (sequence r) = Z.to_nat c;
  qi_len_sto : length (storage r) = Z.to_nat c;
  qi_enq : enqueue_pos_ r = u64 E;
  qi_deq : dequeue_pos_ r = u64 D;
  qi_range : 0 <= D <= E /\ E <= D + c;
  qi_q : Z.of_nat (length q) = E - D;
  qi_full : forall p, D <= p < E ->
    sequence r !! Z.to_nat (p mod c) = Some (u64 (p + 1)) /\
    storage r !! Z.to_nat (p mod c) = Some (q !! Z.to_nat (p - D));
  qi_free : forall p, E <= p < D + c -> sequence r !! Z.to_nat (p mod c) = Some (u64 p) }.

Lemma qi_cell c r E D q p : QInv c r E D q -> cell r (u64 p) = Z.to_nat (p mod c).
Proof.
  intros I. unfold cell. rewrite (qi_mask _ _ _ _ _ I).
  destruct (qi_k _ _ _ _ _ I) as (k & Hk & Hc). erewrite land_mask; eauto.
Qed.

Lemma qi_c c r E D q : QInv c r E D q -> 2 <= c <= 2 ^ 63.
Proof.
  intros I. destruct (qi_k _ _ _ _ _ I) as (k & Hk & ->). split.
  - change 2 with (2 ^ 1). apply Z.pow_le_mono_r; lia.
  - apply Z.pow_le_mono_r; lia.
Qed.

Lemma idx_ne c a b lo :
  0 < c -> lo <= a < lo + c -> lo <= b < lo + c -> a <> b ->
  Z.to_nat (a mod c) <> Z.to_nat (b mod c).
Proof.
  intros Hc Ha Hb Hab Heq. apply Hab. apply (mod_inj c a b lo); try lia.
  pose proof (Z.mod_pos_bound a c Hc). pose proof (Z.mod_pos_bound b c Hc). lia.
Qed.

Lemma idx_lt c p : 0 < c -> (Z.to_nat (p mod c) < Z.to_nat c)%nat.
Proof. intros Hc. pose proof (Z.mod_pos_bound p c Hc). lia. Qed.

Lemma push_ok c r E D q v :
  QInv c r E D q ->
  if Z.of_nat (length q) <? c
  then exists r', push 1 r v = Some (true, r') /\ QInv c r' (E + 1) D (q ++ [v])
  else push 1 r v = Some (false, r).
Proof.
  intros I. pose proof (qi_c _ _ _ _ _ I) as Hc.
  pose proof (qi_range _ _ _ _ _ I) as Hr. pose proof (qi_q _ _ _ _ _ I) as Hq.
  unfold push. rewrite (qi_enq _ _ _ _ _ I). cbn [emplace_loop]. cbv zeta.
  rewrite (qi_cell _ _ _ _ _ E I).
  destruct (Z.ltb_spec (Z.of_nat (length q)) c) as [Hlt|Hge].
  - rewrite (qi_free _ _ _ _ _ I E) by lia. cbn [default id].
    unfold diff64. rewrite Z.sub_diag. cbn [to_signed64 u64]. rewrite Z.eqb_refl.
    rewrite (qi_enq _ _ _ _ _ I), Z.eqb_refl.
    eexists. split; [reflexivity|].
    pose proof (idx_lt c E ltac:(lia)) as HiE.
    pose proof (qi_len_seq _ _ _ _ _ I) as Ls. pose proof (qi_len_sto _ _ _ _ _ I) as Lt.
    constructor; cbn [set_cell sequence storage size_ mask_ enqueue_pos_ dequeue_pos_].
    + exact (qi_k _ _ _ _ _ I).
    + exact (qi_size _ _ _ _ _ I).
    + exact (qi_mask _ _ _ _ _ I).
    + rewrite length_insert. exact Ls.
    + rewrite length_insert. exact Lt.
    + rewrite u64_add_l. reflexivity.
    + exact (qi_deq _ _ _ _ _ I).
    + lia.
    + rewrite length_app. cbn [length]. lia.
    + intros p Hp. destruct (Z.eq_dec p E) as [->|Hne].
      * rewrite !list_lookup_insert. rewrite !decide_True by lia.
        split; [rewrite u64_add_l; reflexivity|].
        rewrite lookup_app_r by lia. f_equal.
        replace (Z.to_nat (E - D) - length q)%nat with O by lia. reflexivity.
      * rewrite !list_lookup_insert_ne by (apply (idx_ne c E p D); lia).
        destruct (qi_full _ _ _ _ _ I p ltac:(lia)) as [H1 H2]. split; [exact H1|].
        rewrite H2. rewrite lookup_app_l by lia. reflexivity.
    + intros p Hp. rewrite list_lookup_insert_ne by (apply (idx_ne c E p D); lia).
      apply (qi_free _ _ _ _ _ I). lia.
  - assert (HE : E = D + c) by lia.
    assert (Hi : Z.to_nat (E mod c) = Z.to_nat (D mod c)).
    { rewrite HE, mod_add_c. reflexivity. }
    rewrite Hi. rewrite (proj1 (qi_full _ _ _ _ _ I D ltac:(lia))). cbn [default id].
    unfold diff64. rewrite to_signed64_sub, to_signed64_small by lia.
    destruct (Z.eqb_spec (D + 1 - E) 0); [lia|].
    destruct (Z.ltb_spec (D + 1 - E) 0); [reflexivity|lia].
Qed.

Lemma pop_empty c r E D : QInv c r E D [] -> pop 1 r = Some (false, None, r).
Proof.
  intros I. pose proof (qi_c _ _ _ _ _ I) as Hc.
  pose proof (qi_range _ _ _ _ _ I) as Hr. pose proof (qi_q _ _ _ _ _ I) as Hq. cbn in Hq.
  unfold pop. rewrite (qi_deq _ _ _ _ _ I). cbn [pop_loop]. cbv zeta.
  rewrite (qi_cell _ _ _ _ _ D I), (qi_free _ _ _ _ _ I D) by lia. cbn [default id].
  unfold diff64. rewrite u64_add_l, to_signed64_sub, to_signed64_small by lia.
  replace (D - (D + 1)) with (-1) by lia. reflexivity.
Qed.

Lemma pop_ok c r E D x q :
  QInv c r E D (x :: q) ->
  exists r', pop 1 r = Some (true, Some x, r') /\ QInv c r' E (D + 1) q.
Proof.
  intros I. pose proof (qi_c _ _ _ _ _ I) as Hc.
  pose proof (qi_range _ _ _ _ _ I) as Hr. pose proof (qi_q _ _ _ _ _ I) as Hq.
  cbn [length] in Hq.
  unfold pop. rewrite (qi_deq _ _ _ _ _ I). cbn [pop_loop]. cbv zeta.
  rewrite (qi_cell _ _ _ _ _ D I).
  destruct (qi_full _ _ _ _ _ I D ltac:(lia)) as [Hs Ht].
  rewrite Hs. cbn [default id].
  unfold diff64. rewrite u64_add_l, Z.sub_diag. cbn [to_signed64 u64]. rewrite Z.eqb_refl.
  rewrite (qi_deq _ _ _ _ _ I), Z.eqb_refl, Ht, Z.sub_diag. cbn.
  eexists. split; [reflexivity|].
  pose proof (idx_lt c D ltac:(lia)) as HiD.
  pose proof (qi_len_seq _ _ _ _ _ I) as Ls. pose proof (qi_len_sto _ _ _ _ _ I) as Lt.
  constructor; cbn [set_cell sequence storage size_ mask_ enqueue_pos_ dequeue_pos_].
  - exact (qi_k _ _ _ _ _ I).
  - exact (qi_size _ _ _ _ _ I).
  - exact (qi_mask _ _ _ _ _ I).
  - rewrite length_insert. exact Ls.
  - rewrite length_insert. exact Lt.
  - exact (qi_enq _ _ _ _ _ I).
  - try rewrite u64_add_l. reflexivity.
  - lia.
  - lia.
  - intros p Hp. rewrite !list_lookup_insert_ne by (apply (idx_ne c D p D); lia).
    destruct (qi_full _ _ _ _ _ I p ltac:(lia)) as [H1 H2]. split; [exact H1|].
    rewrite H2. f_equal. replace (Z.to_nat (p - D)) with (S (Z.to_nat (p - (D + 1)))) by lia.
    reflexivity.
  - intros p Hp. rewrite (qi_size _ _ _ _ _ I).
    destruct (Z.eq_dec p (D + c)) as [->|Hne].
    + replace (Z.to_nat ((D + c) mod c)) with (Z.to_nat (D mod c))
        by (rewrite mod_add_c; reflexivity).
      rewrite list_lookup_insert, decide_True by lia. rewrite u64_add_l. reflexivity.
    + rewrite list_lookup_insert_ne by (apply (idx_ne c D p D); lia).
      apply (qi_free _ _ _ _ _ I). lia.
Qed.

Lemma run_ok c ops : forall r E D q,
  QInv c r E D q ->
  exists r' E' D', run r ops = Some ((fifo_run c q ops).1, r') /\
                   QInv c r' E' D' (fifo_run c q ops).2.
Proof.
  induction ops as [|[v|] ops IH]; intros r E D q I.
  - exists r, E, D. split; [reflexivity|exact I].
  - pose proof (push_ok c r E D q v I) as Hp. cbn [run fifo_run fifo_step].
    destruct (Z.ltb_spec (Z.of_nat (length q)) c).
    + destruct Hp as (r1 & -> & I1).
      destruct (IH _ _ _ _ I1) as (r' & E' & D' & -> & I').
      destruct (fifo_run c (q ++ [v]) ops) as [outs q'']. eauto.
    + rewrite Hp. destruct (IH _ _ _ _ I) as (r' & E' & D' & -> & I').
      destruct (fifo_run c q ops) as [outs q'']. eauto.
  - cbn [run fifo_run fifo_step]. destruct q as [|x q].
    + rewrite (pop_empty c r E D I). destruct (IH _ _ _ _ I) as (r' & E' & D' & -> & I').
      destruct (fifo_run c [] ops) as [outs q'']. eauto.
    + destruct (pop_ok c r E D x q I) as (r1 & -> & I1).
      destruct (IH _ _ _ _ I1) as (r' & E' & D' & -> & I').
      destruct (fifo_run c q ops) as [outs q'']. eauto.
Qed.

Lemma empty_ok c r E D q : QInv c r E D q -> empty r = bool_decide (q = []).
Proof.
  intros I. pose proof (qi_c _ _ _ _ _ I) as Hc.
  pose proof (qi_range _ _ _ _ _ I) as Hr. pose proof (qi_q _ _ _ _ _ I) as Hq.
  unfold empty. rewrite (qi_enq _ _ _ _ _ I), (qi_deq _ _ _ _ _ I).
  destruct q as [|x q]; cbn in Hq.
  - replace E with D by lia. rewrite Z.eqb_refl. reflexivity.
  - rewrite bool_decide_false by congruence. apply Z.eqb_neq. intros Hm.
    assert (E = D) by (apply (mod_inj (2 ^ 64) E D D); unfold u64 in Hm; lia). lia.
Qed.

Lemma create_ok (size : Z) :
  2 <= size <= 2 ^ 63 ->
  QInv (round_up_to_power_of_two size) (create (T := T) size) 0 0 [].
Proof.
  intros Hs. rewrite round_up_spec by lia.
  assert (Hk : 1 <= Z.log2_up size <= 63).
  { assert (0 < Z.log2_up size) by (apply Z.log2_up_lt_pow2; cbn; lia).
    assert (Z.log2_up size <= 63) by (apply Z.log2_up_le_pow2; lia). lia. }
  assert (Hc : 2 <= 2 ^ Z.log2_up size <= 2 ^ 63).
  { split; [change 2 with (2 ^ 1) at 1|]; apply Z.pow_le_mono_r; lia. }
  rewrite u64_small by lia.
  unfold create. destruct (Z.eqb_spec size 0); [lia|].
  rewrite round_up_spec by lia. rewrite u64_small by lia.
  set (c := 2 ^ Z.log2_up size) in *.
  constructor; cbn [sequence storage size_ mask_ enqueue_pos_ dequeue_pos_].
  - exists (Z.log2_up size). split; [lia|reflexivity].
  - reflexivity.
  - apply u64_small. lia.
  - rewrite length_fmap, length_seq. reflexivity.
  - apply length_replicate.
  - reflexivity.
  - reflexivity.
  - lia.
  - reflexivity.
  - intros p Hp. lia.
  - intros p Hp. rewrite Z.mod_small by lia.
    rewrite list_lookup_fmap, lookup_seq_lt by lia. cbn.
    rewrite u64_small by lia. f_equal. lia.
Qed.

End Queue.

End RingQueueFacts.

(* ------------------------------------------------------------------ *)
(** ** HyperLogLog merge *)

Module HLLMergeFacts.
Import HLL HLLFacts.

Lemma fold_update_lookup (g : nat -> Z -> Z) (k n : nat) (l : list Z) (j : nat) :
  fold_left (fun regs i => <[ i := g i (default 0 (regs !! i)) ]> regs) (seq k n) l !! j =
  if decide (k <= j < k + n)%nat then g j <$> l !! j else l !! j.
Proof.
  revert k l. induction n as [|n IH]; intros k l; cbn [seq fold_left].
  - rewrite decide_False by lia. reflexivity.
  - rewrite IH. destruct (decide (k = j)) as [<-|Hne].
    + rewrite decide_False by lia. rewrite decide_True by lia.
      rewrite list_lookup_insert.
      destruct (decide (k < length l))%nat as [Hlt|Hge].
      * rewrite decide_True by lia. destruct (lookup_lt_is_Some_2 _ _ Hlt) as [x ->]. reflexivity.
      * rewrite decide_False by lia. rewrite lookup_ge_None_2 by lia. reflexivity.
    + rewrite list_lookup_insert_ne by exact Hne.
      destruct (decide (S k <= j < S k + n)%nat), (decide (k <= j < k + S n)%nat);
        first [reflexivity | lia].
Qed.

Lemma fold_max_max (l : list Z) (a b : Z) :
  fold_left Z.max l (Z.max a b) = Z.max a (fold_left Z.max l b).
Proof.
  revert b. induction l as [|y l IH]; intros b; [reflexivity|]. cbn [fold_left].
  rewrite <- IH. f_equal. lia.
Qed.

Lemma merge_runs (s0 : hll) (xs ys : list string) :
  length (registers s0) = Z.to_nat (2 ^ precision s0) ->
  merge (run s0 xs) (run s0 ys) = Some (run s0 (xs ++ ys)).
Proof.
  intros Hlen. unfold merge. rewrite !run_precision, Z.eqb_refl. cbn [negb]. f_equal.
  apply hll_eq; cbn [precision registers]; [rewrite run_precision; reflexivity|].
  apply list_eq. intros j.
  rewrite (fold_update_lookup (fun i r => Z.max r (default 0 (registers (run s0 ys) !! i)))).
  rewrite !run_lookup. rewrite filter_app, fmap_app.
  destruct (registers s0 !! j) as [r0|] eqn:Ej.
  - apply lookup_lt_Some in Ej as Hj. rewrite decide_True by lia. cbn.
    rewrite fold_left_app. f_equal.
    destruct (fold_max_ub (rk (precision s0) <$> filter (fun v => idx (precision s0) v = j) xs) r0)
      as [Hub _].
    rewrite <- (Z.max_l _ r0 Hub) at 2. rewrite fold_max_max. reflexivity.
  - destruct (decide _); reflexivity.
Qed.

Lemma create_length (p : Z) (s : hll) :
  create p = Some s -> length (registers s) = Z.to_nat (2 ^ precision s).
Proof.
  unfold create. destruct ((p <? 4) || (18 <? p)); [discriminate|].
  intros [= <-]. apply length_replicate.
Qed.

End HLLMergeFacts.

(* ------------------------------------------------------------------ *)
(** ** Skip list queries *)

Module SkipListQueries.
Import SkipList SkipListOrder SkipListInv SkipListErase SkipListUpsert SkipListSort.

Lemma find_heap sl u n :
  Inv sl -> find sl u = Some n <-> n ∈ nodes0 sl /\ user_id n = u.
Proof.
  intros HI. unfold find. rewrite (nodes0_elem sl). split.
  - destruct (index_ sl !! u) as [p|] eqn:Ep; cbn; [|discriminate]. intros Hp.
    destruct (proj1 (inv_index _ HI u p) Ep) as (n' & Hn' & Hu).
    rewrite Hp in Hn'. injection Hn' as <-. split; [|exact Hu].
    exists p. split; [apply (inv_heap _ HI); eauto|exact Hp].
  - intros [[p [_ Hp]] <-].
    rewrite (proj2 (inv_index _ HI (user_id n) p)) by eauto. exact Hp.
Qed.

Lemma find_erase sl uid u :
  Inv sl -> find (erase sl uid).2 u = if decide (u = uid) then None else find sl u.
Proof.
  intros HI. destruct (index_ sl !! uid) as [t|] eqn:Et.
  - destruct (proj1 (inv_index _ HI uid t) Et) as (tn & Htn & Hid).
    rewrite (erase_eq sl HI uid t Et tn Htn Hid). cbn [snd]. unfold find. cbn [index_ heap].
    destruct (decide (u = uid)) as [->|Hne]; [rewrite lookup_delete_eq; reflexivity|].
    rewrite lookup_delete_ne by congruence.
    destruct (index_ sl !! u) as [p|] eqn:Ep; cbn; [|reflexivity].
    rewrite lookup_delete_ne; [reflexivity|]. intros <-.
    apply (inv_index _ HI) in Ep as (n' & Hn' & Hu). rewrite Htn in Hn'.
    injection Hn' as <-. congruence.
  - rewrite (erase_absent sl uid Et). cbn [snd].
    destruct (decide (u = uid)) as [->|]; [|reflexivity]. unfold find. rewrite Et. reflexivity.
Qed.

Lemma find_upsert sl uid s ts :
  Inv sl -> ok_score s ->
  (exists n, find (upsert sl uid s ts) uid = Some n /\
     user_id n = uid /\ score n = s /\ last_update n = ts) /\
  forall u, u <> uid -> find (upsert sl uid s ts) u = find sl u.
Proof.
  intros HI Hs. destruct (erase_step sl uid HI) as (HI1 & _ & Hnone & _).
  rewrite (upsert_eq (erase sl uid).2 uid s ts sl eq_refl). unfold find. cbn [index_ heap].
  split.
  - eexists. rewrite lookup_insert_eq. cbn. rewrite lookup_insert_eq. eauto.
  - intros u Hne. rewrite lookup_insert_ne by congruence.
    transitivity (find (erase sl uid).2 u);
      [|rewrite (find_erase sl uid u HI), decide_False by exact Hne; reflexivity].
    unfold find.
    destruct (index_ (erase sl uid).2 !! u) as [p|] eqn:Ep; cbn; [|reflexivity].
    apply (inv_index _ HI1) in Ep as (n' & Hn' & _).
    rewrite lookup_insert_ne; [reflexivity|]. intros Hx.
    rewrite <- Hx, (x_fresh _ HI1) in Hn'. discriminate.
Qed.

Lemma abs_find sl u : abs sl !! u = score <$> find sl u.
Proof.
  unfold abs, find. rewrite lookup_omap. destruct (index_ sl !! u); reflexivity.
Qed.

Lemma top_k_loop_take k ns res :
  top_k_loop k ns res = res ++ take (Z.to_nat k - length res) ns.
Proof.
  revert res. induction ns as [|n ns IH]; intros res; cbn [top_k_loop].
  - rewrite take_nil, app_nil_r. reflexivity.
  - destruct (Z.ltb_spec (Z.of_nat (length res)) k) as [Hlt|Hge].
    + rewrite IH, length_app. cbn [length].
      replace (Z.to_nat k - length res)%nat with (S (Z.to_nat k - (length res + 1)))
        by lia.
      rewrite <- app_assoc. reflexivity.
    + replace (Z.to_nat k - length res)%nat with 0%nat by lia.
      rewrite app_nil_r. reflexivity.
Qed.

Lemma top_k_take sl k : top_k sl k = take (Z.to_nat k) (nodes0 sl).
Proof. unfold top_k. rewrite top_k_loop_take. cbn. f_equal. lia. Qed.

Lemma rank_of_loop_find uid r ns :
  rank_of_loop uid r ns =
  match list_find (fun n => user_id n = uid) ns with
  | Some (i, _) => r + Z.of_nat i
  | None => 0
  end.
Proof.
  revert r. induction ns as [|n ns IH]; intros r; [reflexivity|]. cbn [rank_of_loop list_find].
  destruct (String.eqb_spec (user_id n) uid) as [E|E].
  - rewrite decide_True by exact E. cbn. lia.
  - rewrite decide_False by exact E. rewrite IH.
    destruct (list_find _ ns) as [[i m]|]; cbn; [lia|reflexivity].
Qed.

Lemma rank_of_spec sl u :
  Inv sl ->
  (rank_of sl u = 0 <-> find sl u = None) /\
  forall n, find sl u = Some n ->
    1 <= rank_of sl u /\ nodes0 sl !! Z.to_nat (rank_of sl u - 1) = Some n.
Proof.
  intros HI. unfold rank_of. rewrite rank_of_loop_find.
  destruct (list_find (fun n => user_id n = u) (nodes0 sl)) as [[i m]|] eqn:Ef.
  - apply list_find_Some in Ef as (Hi & Hm & _).
    assert (Hfm : find sl u = Some m).
    { apply (find_heap sl u m HI). split; [eapply list_elem_of_lookup_2; eauto|exact Hm]. }
    split; [split; [lia|congruence]|].
    intros n Hn. rewrite Hfm in Hn. injection Hn as <-. split; [lia|].
    replace (Z.to_nat (1 + Z.of_nat i - 1)) with i by lia. exact Hi.
  - apply list_find_None in Ef. rewrite Forall_forall in Ef.
    assert (Hf : find sl u = None).
    { destruct (find sl u) as [n|] eqn:En; [|reflexivity].
      apply (find_heap sl u n HI) in En as [Hn Hu]. destruct (Ef n Hn Hu). }
    split; [split; auto|]. intros n Hn. congruence.
Qed.

Lemma last_omap_all {A B} (f : A -> option B) (l : list A) :
  (forall a, a ∈ l -> is_Some (f a)) -> last (omap f l) = last l ≫= f.
Proof.
  induction l as [|a l IH] using rev_ind; intros Hf; [reflexivity|].
  rewrite omap_app, last_snoc. cbn.
  destruct (Hf a ltac:(set_solver)) as [b Hb]. rewrite Hb. cbn. apply last_snoc.
Qed.

Lemma tail_last sl :
  Inv sl -> (fun n => (user_id n, score n)) <$> tail sl = last (entries sl).
Proof.
  intros HI. unfold entries, tail, nodes0. rewrite fmap_last, last_omap_all; [reflexivity|].
  intros p Hp. apply (inv_heap _ HI). exact Hp.
Qed.

End SkipListQueries.

(* ------------------------------------------------------------------ *)
(** ** Leaderboard queries *)

Module LeaderboardQueries.
Import SkipList SkipListOrder SkipListInv SkipListErase SkipListUpsert SkipListSort
  SkipListQueries.

Section Refresh.
Variable pow : float -> float -> float.
Variable td : TimeDecay.time_decay.
Variable now : Z.

Definition decayed (n : node) := TimeDecay.apply pow td (score n) (last_update n) now.

Definition upd (n : node) : option (string * float) :=
  match decayed n with
  | Some d =>
      if (1e-6 <? PrimFloat.abs (d - score n))%float || negb (last_update n =? now)
      then Some (user_id n, d) else None
  | None => None
  end.

Lemma collect_omap ns ups :
  Leaderboard.collect_updates pow td now ns = Some ups ->
  (forall n, n ∈ ns -> is_Some (decayed n)) /\ ups = omap upd ns.
Proof.
  revert ups. induction ns as [|n ns IH]; intros ups; cbn [Leaderboard.collect_updates].
  - intros [= <-]. split; [intros n Hn; apply elem_of_nil in Hn; contradiction|reflexivity].
  - unfold decayed at 1. unfold upd at 1. fold (decayed n).
    destruct (decayed n) as [d|] eqn:Ed; [|discriminate].
    destruct (Leaderboard.collect_updates pow td now ns) as [ups'|]; [|discriminate].
    destruct (IH ups' eq_refl) as [Hall ->].
    assert (Hall' : forall m, m ∈ n :: ns -> is_Some (decayed m)).
    { intros m Hm. apply elem_of_cons in Hm as [->|Hm]; [rewrite Ed; eauto|auto]. }
    cbn [omap list_omap]. unfold upd at 1. rewrite Ed.
    destruct (_ || _); intros [= <-]; auto.
Qed.

Lemma upd_key n u d : upd n = Some (u, d) -> user_id n = u /\ decayed n = Some d.
Proof.
  unfold upd. destruct (decayed n); [|discriminate]. destruct (_ || _); [|discriminate].
  intros [= <- <-]. auto.
Qed.

Lemma omap_upd_keys ns u : u ∈ (fst <$> omap upd ns : list string) -> exists n, n ∈ ns /\ user_id n = u.
Proof.
  rewrite list_elem_of_fmap. intros [[u' d] [-> Hin]]. apply list_elem_of_omap in Hin.
  destruct Hin as (n & Hn & Hu). apply upd_key in Hu as [Hu _]. eauto.
Qed.

Lemma omap_upd_nodup ns : NoDup (user_id <$> ns) -> NoDup (fst <$> omap upd ns : list string).
Proof.
  induction ns as [|n ns IH]; intros Hnd; [constructor|]. cbn in Hnd.
  apply NoDup_cons in Hnd as [Hn Hnd]. cbn [omap list_omap].
  destruct (upd n) as [[u d]|] eqn:Eu; [|auto]. cbn. constructor; [|auto].
  intros Hin. apply omap_upd_keys in Hin as (m & Hm & Hmu). apply upd_key in Eu as [Hu _].
  apply Hn. apply list_elem_of_fmap. exists m. split; [congruence|exact Hm].
Qed.

End Refresh.

Lemma nodup_ids_omap (sl : skip_list) (l : list nat) :
  NoDup l ->
  (forall p q a b, p ∈ l -> q ∈ l -> heap sl !! p = Some a -> heap sl !! q = Some b ->
     user_id a = user_id b -> p = q) ->
  NoDup (user_id <$> omap (fun p => heap sl !! p) l).
Proof.
  induction l as [|p l IH]; intros Hnd Hinj; [constructor|].
  apply NoDup_cons in Hnd as [Hp Hnd]. cbn [omap list_omap].
  assert (IH' : NoDup (user_id <$> omap (fun p => heap sl !! p) l)).
  { apply IH; [exact Hnd|]. intros; eapply Hinj; eauto; set_solver. }
  destruct (heap sl !! p) as [a|] eqn:Ea; [|exact IH']. cbn. constructor; [|exact IH'].
  intros Hin. apply list_elem_of_fmap in Hin as (b & Hab & Hb).
  apply list_elem_of_omap in Hb as (q & Hq & Eb).
  assert (p = q) as <- by (eapply Hinj; eauto; set_solver). contradiction.
Qed.

Lemma nodes0_ids_nodup sl : Inv sl -> NoDup (user_id <$> nodes0 sl).
Proof.
  intros HI. apply nodup_ids_omap; [apply (inv_nodup _ HI)|].
  intros p q a b _ _ Ha Hb Hab.
  assert (E1 : index_ sl !! user_id a = Some p) by (apply (inv_index _ HI); eauto).
  assert (E2 : index_ sl !! user_id a = Some q) by (apply (inv_index _ HI); rewrite Hab; eauto).
  congruence.
Qed.

Lemma fold_upserts sl (ups : list (string * float)) now :
  Inv sl -> (forall u d, (u, d) ∈ ups -> ok_score d) -> NoDup (fst <$> ups) ->
  let sl' := fold_left (fun sl '(user, score) => upsert sl user score now) ups sl in
  Inv sl' /\
  (forall u d, (u, d) ∈ ups -> exists n, find sl' u = Some n /\ score n = d /\ last_update n = now) /\
  (forall u, u ∉ fst <$> ups -> find sl' u = find sl u).
Proof.
  revert sl. induction ups as [|[v e] ups IH]; intros sl HI Hok Hnd; cbn [fold_left].
  - split; [exact HI|]. split; [|auto]. intros u d Hin. apply elem_of_nil in Hin. contradiction.
  - cbn in Hnd. apply NoDup_cons in Hnd as [Hv Hnd].
    assert (He : ok_score e) by (apply (Hok v); set_solver).
    destruct (upsert_step sl v e now HI He) as [HI1 _].
    destruct (find_upsert sl v e now HI He) as [(n & Hn & _ & Hs & Ht) Hother].
    destruct (IH (upsert sl v e now) HI1) as (HI2 & Hin & Hout);
      [intros u d H; apply (Hok u d); set_solver|exact Hnd|].
    split; [exact HI2|]. split.
    + intros u d H. apply elem_of_cons in H as [[= -> ->]|H]; [|auto].
      exists n. rewrite Hout by exact Hv. auto.
    + intros u Hu. cbn in Hu. apply not_elem_of_cons in Hu as [Huv Hu].
      rewrite Hout by exact Hu. apply Hother. exact Huv.
Qed.

Lemma size_same_users sl1 sl2 :
  Inv sl1 -> Inv sl2 -> (forall u, is_Some (find sl1 u) <-> is_Some (find sl2 u)) ->
  size_ sl1 = size_ sl2.
Proof.
  intros HI1 HI2 Hu. rewrite (LeaderboardFacts.size_abs _ HI1), (LeaderboardFacts.size_abs _ HI2).
  rewrite <- (size_dom (D := gset string) (abs sl1)), <- (size_dom (D := gset string) (abs sl2)).
  f_equal. apply set_eq. intros u. rewrite !elem_of_dom, !abs_find, !fmap_is_Some. apply Hu.
Qed.

(** What [refresh_scores_locked] does to a list satisfying the invariant. *)
Lemma refresh_spec pow lb now lb' :
  Inv (Leaderboard.skip_list_ lb) ->
  (forall n d, n ∈ nodes0 (Leaderboard.skip_list_ lb) ->
     TimeDecay.apply pow (Leaderboard.decay_ lb) (score n) (last_update n) now = Some d ->
     is_nan d = false) ->
  Leaderboard.refresh_scores_locked pow lb now = Some lb' ->
  Inv (Leaderboard.skip_list_ lb') /\
  Leaderboard.decay_ lb' = Leaderboard.decay_ lb /\
  Leaderboard.max_users_ lb' = Leaderboard.max_users_ lb /\
  size_ (Leaderboard.skip_list_ lb') = size_ (Leaderboard.skip_list_ lb) /\
  forall u,
    match find (Leaderboard.skip_list_ lb) u with
    | None => find (Leaderboard.skip_list_ lb') u = None
    | Some n => exists n', find (Leaderboard.skip_list_ lb') u = Some n' /\
        TimeDecay.apply pow (Leaderboard.decay_ lb) (score n) (last_update n) now =
          Some (score n') /\
        last_update n' = now
    end.
Proof.
  intros HI Hnan. unfold Leaderboard.refresh_scores_locked.
  set (sl := Leaderboard.skip_list_ lb). set (td := Leaderboard.decay_ lb).
  destruct (Leaderboard.collect_updates pow td now (nodes0 sl)) as [ups|] eqn:Ec;
    [|discriminate].
  intros [= <-]. cbn [Leaderboard.skip_list_ Leaderboard.decay_ Leaderboard.max_users_].
  destruct (collect_omap pow td now (nodes0 sl) ups Ec) as [Hall ->].
  destruct (fold_upserts sl (omap (upd pow td now) (nodes0 sl)) now HI) as (HI2 & Hin & Hout).
  { intros u d H. apply list_elem_of_omap in H as (n & Hn & Hu).
    apply upd_key in Hu as [_ Hd]. exact (Hnan n d Hn Hd). }
  { apply omap_upd_nodup, nodes0_ids_nodup, HI. }
  set (sl' := fold_left _ _ sl) in *.
  assert (Hfind : forall u,
    match find sl u with
    | None => find sl' u = None
    | Some n => exists n', find sl' u = Some n' /\
        TimeDecay.apply pow td (score n) (last_update n) now = Some (score n') /\
        last_update n' = now
    end).
  { intros u. destruct (find sl u) as [n|] eqn:En.
    - apply (find_heap sl u n HI) in En as Hn. destruct Hn as [Hn Hu].
      destruct (Hall n Hn) as [d Hd].
      destruct ((1e-6 <? PrimFloat.abs (d - score n))%float || negb (last_update n =? now))
        eqn:Ecnd.
      + destruct (Hin u d) as (n' & Hn' & Hs & Ht).
        { apply list_elem_of_omap. exists n. split; [exact Hn|].
          unfold upd. rewrite Hd, Ecnd. rewrite Hu. reflexivity. }
        exists n'. split; [exact Hn'|]. rewrite Hs, Ht. split; [exact Hd|reflexivity].
      + assert (Hnot : u ∉ (fst <$> omap (upd pow td now) (nodes0 sl) : list string)).
        { intros Hk. apply list_elem_of_fmap in Hk. destruct Hk as ([u' d'] & Hu' & Hk).
          apply list_elem_of_omap in Hk as (m & Hm & Hum). cbn in Hu'. subst u'.
          apply upd_key in Hum as Hk'. destruct Hk' as [Hk1 _].
          assert (find sl u = Some m) as Em by (apply (find_heap sl u m HI); auto).
          assert (find sl u = Some n) as En' by (apply (find_heap sl u n HI); auto).
          rewrite Em in En'. injection En' as <-.
          unfold upd in Hum. rewrite Hd, Ecnd in Hum. discriminate. }
        exists n. split; [rewrite Hout by exact Hnot; apply (find_heap sl u n HI); auto|].
        apply orb_false_iff in Ecnd as [_ Ecnd]. apply negb_false_iff, Z.eqb_eq in Ecnd.
        split; [|exact Ecnd].
        unfold TimeDecay.apply. rewrite Ecnd, Z.leb_refl. reflexivity.
    - rewrite Hout; [exact En|]. intros Hk. apply omap_upd_keys in Hk as (m & Hm & Hmu).
      assert (find sl u = Some m) as Em by (apply (find_heap sl u m HI); auto). congruence. }
  split; [exact HI2|]. split; [reflexivity|]. split; [reflexivity|]. split; [|exact Hfind].
  apply size_same_users; [exact HI2|exact HI|]. intros u. specialize (Hfind u).
  destruct (find sl u) as [n|].
  - destruct Hfind as (n' & -> & _). split; eauto.
  - rewrite Hfind. reflexivity.
Qed.

End LeaderboardQueries.

(** The invariant on the example lists. *)
Module QueryExamples.
Import SkipList SkipListInv.

Lemma ops_example_ok uid s ts :
  In (Upsert uid s ts) ops_example -> is_nan s = false.
Proof.
  intros H. cbn in H.
  repeat (destruct H as [H|H]; [first [discriminate | injection H as <- <- <-; reflexivity]|]).
  contradiction.
Qed.

Lemma example_inv : Inv (run sl_example ops_example).
Proof.
  destruct (SkipListRun.create_inv 16 0.5 (fun _ => false) sl_example eq_refl) as [HI _].
  exact (proj1 (SkipListRun.run_inv sl_example ops_example HI ops_example_ok)).
Qed.

End QueryExamples.

(* ------------------------------------------------------------------ *)
(** ** Integer output and input *)

Module NumIOFacts.
Import NumIO.

Definition digits_value (l : list ascii) (acc : Z) : Z :=
  fold_left (fun a c => a * 10 + default 0 (digit_val c)) l acc.

Lemma digit_char_val d : 0 <= d < 10 -> digit_val (digit_char d) = Some d.
Proof.
  intros Hd. unfold digit_val, digit_char. rewrite Ascii.nat_ascii_embedding by lia.
  rewrite (proj2 (Nat.leb_le 48 _)), (proj2 (Nat.leb_le _ 57)) by lia. cbn. f_equal. lia.
Qed.

Lemma digit_shape c d l :
  digit_val c = Some d -> is_space c = false /\ read_sign (c :: l) = (false, c :: l).
Proof.
  destruct c as [[] [] [] [] [] [] [] []]; cbn; intros H; first [discriminate | split; reflexivity].
Qed.

Lemma read_digits_app l1 l2 acc k :
  Forall (fun c => is_Some (digit_val c)) l1 ->
  read_digits digit_val 10 (l1 ++ l2) acc k =
  read_digits digit_val 10 l2 (digits_value l1 acc) (k + length l1).
Proof.
  revert acc k. induction l1 as [|c l1 IH]; intros acc k Hall; cbn [app length read_digits].
  - rewrite Nat.add_0_r. reflexivity.
  - inversion Hall as [|? ? [d Hd] Hall']; subst. rewrite Hd, IH by exact Hall'.
    unfold digits_value. cbn [fold_left]. rewrite Hd. cbn [default]. f_equal. lia.
Qed.

Lemma digits_rev_spec fuel n :
  0 <= n < 2 ^ Z.of_nat fuel ->
  Forall (fun c => is_Some (digit_val c)) (digits_rev fuel n) /\
  digits_value (rev (digits_rev fuel n)) 0 = n /\
  (0 < n -> digits_rev fuel n <> []).
Proof.
  revert n. induction fuel as [|fuel IH]; intros n Hn; cbn [digits_rev].
  - cbn in Hn. assert (n = 0) as -> by lia. split; [constructor|]. split; [reflexivity|lia].
  - destruct (Z.leb_spec n 0) as [Hle|Hgt].
    + assert (n = 0) as -> by lia. split; [constructor|]. split; [reflexivity|lia].
    + assert (Hq : 0 <= n / 10 < 2 ^ Z.of_nat fuel).
      { split; [apply Z.div_pos; lia|]. rewrite Nat2Z.inj_succ, Z.pow_succ_r in Hn by lia.
        apply Z.div_lt_upper_bound; lia. }
      destruct (IH (n / 10) Hq) as (HF & Hv & _).
      assert (Hm : 0 <= n mod 10 < 10) by (apply Z.mod_pos_bound; lia).
      split; [constructor; [rewrite digit_char_val by exact Hm; eauto|exact HF]|].
      split; [|discriminate].
      cbn [rev]. unfold digits_value in *. rewrite fold_left_app, Hv. cbn.
      rewrite digit_char_val by exact Hm. cbn. pose proof (Z.div_mod n 10). lia.
Qed.

Lemma decimal_spec n :
  0 < n ->
  exists c rest, decimal n = c :: rest /\ is_Some (digit_val c) /\
    read_digits digit_val 10 (c :: rest) 0 0 = (n, length (c :: rest), []).
Proof.
  intros Hn. unfold decimal.
  destruct (digits_rev_spec (S (Z.to_nat (Z.log2 n))) n) as (HF & Hv & Hne).
  { split; [lia|]. rewrite Nat2Z.inj_succ, Z2Nat.id by (apply Z.log2_nonneg).
    apply Z.log2_spec. exact Hn. }
  apply Forall_rev in HF.
  destruct (rev (digits_rev (S (Z.to_nat (Z.log2 n))) n)) as [|c rest] eqn:E.
  - destruct (Hne Hn). apply (f_equal (@rev ascii)) in E. rewrite rev_involutive in E.
    exact E.
  - exists c, rest. split; [reflexivity|]. split; [exact (Forall_inv HF)|].
    rewrite <- (app_nil_r (c :: rest)), read_digits_app by exact HF. rewrite app_nil_r.
    cbn [read_digits]. rewrite Hv. reflexivity.
Qed.

End NumIOFacts.

(* ------------------------------------------------------------------ *)
(** ** Event statistics: the time windows *)

Module EventFacts.
Import EventProcessor.

Lemma drop_old_in c ws w : In w (drop_old c ws) -> In w ws.
Proof.
  induction ws as [|v ws IH]; cbn; [auto|].
  destruct (window_start v <? c); [intros H; right; auto|auto].
Qed.

Lemma drop_old_sorted c ws :
  StronglySorted Z.lt (map window_start ws) -> StronglySorted Z.lt (map window_start (drop_old c ws)).
Proof.
  induction ws as [|v ws IH]; cbn; [auto|]. intros Hs.
  destruct (window_start v <? c); [|exact Hs]. apply IH. exact (proj1 (StronglySorted_inv Hs)).
Qed.

Lemma drop_old_ge c ws w :
  StronglySorted Z.lt (map window_start ws) -> In w (drop_old c ws) -> c <= window_start w.
Proof.
  induction ws as [|v ws IH]; cbn; [contradiction|]. intros Hs.
  apply StronglySorted_inv in Hs as [Hs Hall].
  destruct (Z.ltb_spec (window_start v) c); [auto|].
  intros [<-|Hw]; [lia|]. rewrite Forall_forall in Hall.
  pose proof (Hall (window_start w) (proj2 (list_elem_of_In _ _) (in_map _ _ _ Hw))). lia.
Qed.

Lemma insert_window_perm w ws : Permutation (insert_window w ws) (w :: ws).
Proof.
  induction ws as [|v ws IH]; cbn; [reflexivity|].
  destruct (window_start w <=? window_start v); [reflexivity|].
  rewrite IH. apply perm_swap.
Qed.

Lemma insert_window_sorted w ws :
  StronglySorted Z.lt (map window_start ws) -> ~ In (window_start w) (map window_start ws) ->
  StronglySorted Z.lt (map window_start (insert_window w ws)).
Proof.
  induction ws as [|v ws IH]; intros Hs Hn; cbn; [repeat constructor|].
  apply StronglySorted_inv in Hs as [Hs Hall]. cbn in Hn.
  destruct (Z.leb_spec (window_start w) (window_start v)).
  - cbn. constructor; [constructor; auto|]. constructor; [lia|].
    rewrite Forall_forall in Hall |- *. intros s Hsin. pose proof (Hall s Hsin). lia.
  - cbn. constructor; [apply IH; auto|]. rewrite Forall_forall in Hall |- *.
    intros s Hsin. apply list_elem_of_In, in_map_iff in Hsin as (u & <- & Hu).
    apply (Permutation_in _ (insert_window_perm w ws)) in Hu as [<-|Hu]; [lia|].
    apply Hall, list_elem_of_In, in_map, Hu.
Qed.

Lemma foldr_insert_sorted l acc :
  StronglySorted Z.lt (map window_start acc) -> NoDup (map window_start (l ++ acc)) ->
  StronglySorted Z.lt (map window_start (foldr insert_window acc l)) /\
  Permutation (foldr insert_window acc l) (l ++ acc).
Proof.
  induction l as [|w l IH]; intros Hs Hnd; cbn; [split; [exact Hs|reflexivity]|].
  cbn in Hnd. apply NoDup_cons in Hnd as [Hw Hnd]. destruct (IH Hs Hnd) as [Hs' Hp].
  split.
  - apply insert_window_sorted; [exact Hs'|]. intros Hin. apply Hw.
    apply list_elem_of_In. apply in_map_iff in Hin as (u & Hu & Hin).
    rewrite <- Hu. apply in_map. exact (Permutation_in _ Hp Hin).
  - rewrite insert_window_perm, Hp. reflexivity.
Qed.

Lemma sorted_nodup ws :
  StronglySorted Z.lt (map window_start ws) -> NoDup (map window_start ws).
Proof. apply SkipListSort.SS_nodup. intros a _. lia. Qed.

Lemma map_insert_same {A B} (f : A -> B) (l : list A) i x y :
  l !! i = Some y -> f x = f y -> map f (<[i := x]> l) = map f l.
Proof.
  revert i. induction l as [|a l IH]; intros [|i]; cbn; try discriminate.
  - intros [= ->] ->. reflexivity.
  - intros Hi Hf. f_equal. apply IH; auto.
Qed.

Lemma in_insert {A} (l : list A) i x v : In v (<[i := x]> l) -> v = x \/ In v l.
Proof.
  revert i. induction l as [|a l IH]; intros [|i] Hv; cbn in *; try tauto.
  - destruct Hv as [<-|Hv]; auto.
  - destruct Hv as [<-|Hv]; [auto|]. destruct (IH i Hv); auto.
Qed.

Lemma bucket_start_mod t clk : bucket_start t clk mod kBucketSpanSeconds = 0.
Proof. unfold bucket_start. apply Z.mod_mul. unfold kBucketSpanSeconds. lia. Qed.

(** The windows: sorted by their distinct starts, each a multiple of a
    minute, each the sketch of users of events of its minute. *)
Definition WInv (st : stats) (evs : list (event * Z)) : Prop :=
  StronglySorted Z.lt (map window_start (windows_ st)) /\
  forall w, In w (windows_ st) ->
    window_start w mod kBucketSpanSeconds = 0 /\
    exists xs, sketch w = HLL.run hll_default xs /\
      forall x, In x xs -> exists e clk, In (e, clk) evs /\ user_id e = x /\
        bucket_start (timestamp e) clk = window_start w.

Lemma process_event_inv st evs e clk :
  WInv st evs ->
  let st' := process_event st e clk in
  let b := bucket_start (timestamp e) clk in
  WInv st' (evs ++ [(e, clk)]) /\
  (forall w, In w (windows_ st') -> b - kWindowSpanSeconds <= window_start w) /\
  exists w xs, In w (windows_ st') /\ window_start w = b /\ sketch w = HLL.run hll_default xs /\
    In (user_id e) xs.
Proof.
  intros [Hs Hw]. cbn zeta. unfold WInv, process_event.
  set (b := bucket_start (timestamp e) clk).
  set (ws0 := drop_old (b - kWindowSpanSeconds) (windows_ st)).
  assert (Hs0 : StronglySorted Z.lt (map window_start ws0)) by (apply drop_old_sorted, Hs).
  assert (Hin0 : forall w, In w ws0 -> In w (windows_ st)) by (intros w; apply drop_old_in).
  assert (Hge0 : forall w, In w ws0 -> b - kWindowSpanSeconds <= window_start w)
    by (intros w; apply drop_old_ge, Hs).
  assert (Hmono : forall x w, (exists e' clk', In (e', clk') evs /\ user_id e' = x /\
                     bucket_start (timestamp e') clk' = window_start w) ->
                   exists e' clk', In (e', clk') (evs ++ [(e, clk)]) /\ user_id e' = x /\
                     bucket_start (timestamp e') clk' = window_start w).
  { intros x w (e' & clk' & H1 & H2 & H3). exists e', clk'. split; [apply in_or_app; auto|auto]. }
  destruct (list_find (fun w => window_start w = b) ws0) as [[i w]|] eqn:Ef;
    change (windows_ (mk_stats ?a ?b ?c)) with b.
  - apply list_find_Some in Ef as (Hi & Hwb & _).
    assert (HwIn : In w ws0) by (apply list_elem_of_In; eapply list_elem_of_lookup_2; eauto).
    destruct (Hw w (Hin0 w HwIn)) as (Hmod & xs & Hxs & Hx).
    set (w' := mk_window (window_start w) (HLL.add (sketch w) (user_id e))).
    assert (Hsk : sketch w' = HLL.run hll_default (xs ++ [user_id e])).
    { cbn. rewrite Hxs. unfold HLL.run. rewrite fold_left_app. reflexivity. }
    split; [split|split].
    + rewrite (map_insert_same _ _ _ _ w Hi) by reflexivity. exact Hs0.
    + intros v Hv. apply in_insert in Hv as [->|Hv].
      * split; [exact Hmod|]. exists (xs ++ [user_id e]). split; [exact Hsk|].
        intros x Hx'. apply in_app_or in Hx' as [Hx'|[<-|[]]]; [apply Hmono, Hx, Hx'|].
        exists e, clk. split; [apply in_or_app; right; left; reflexivity|]. split; [reflexivity|].
        cbn. rewrite Hwb. reflexivity.
      * destruct (Hw v (Hin0 v Hv)) as (Hm & ys & Hys & Hy). split; [exact Hm|].
        exists ys. split; [exact Hys|]. intros x Hx'. apply Hmono, Hy, Hx'.
    + intros v Hv. apply in_insert in Hv as [->|Hv]; [|auto].
      unfold w'. cbn [window_start]. rewrite Hwb. unfold kWindowSpanSeconds. lia.
    + exists w', (xs ++ [user_id e]). split; [|split; [exact Hwb|split; [exact Hsk|]]].
      * apply list_elem_of_In, list_elem_of_insert. apply lookup_lt_Some in Hi. exact Hi.
      * apply in_or_app. right. left. reflexivity.
  - apply list_find_None in Ef. rewrite Forall_forall in Ef.
    set (n := mk_window b (HLL.add hll_default (user_id e))).
    assert (Hnd : NoDup (map window_start ((ws0 ++ [n]) ++ []))).
    { rewrite app_nil_r, map_app. apply NoDup_app. split; [apply sorted_nodup, Hs0|].
      split; [|apply NoDup_singleton]. intros s Hs1 Hs2.
      apply list_elem_of_In, in_map_iff in Hs1 as (u & <- & Hu).
      apply list_elem_of_singleton in Hs2. apply (Ef u); [apply list_elem_of_In, Hu|exact Hs2]. }
    destruct (foldr_insert_sorted (ws0 ++ [n]) [] ltac:(constructor) Hnd) as [Hs' Hp].
    rewrite app_nil_r in Hp. fold (sort_windows (ws0 ++ [n])) in Hs', Hp.
    assert (Hmem : forall v, In v (sort_windows (ws0 ++ [n])) -> In v ws0 \/ v = n).
    { intros v Hv. apply (Permutation_in _ Hp), in_app_or in Hv as [Hv|[<-|[]]]; auto. }
    split; [split|split].
    + exact Hs'.
    + intros v Hv. destruct (Hmem v Hv) as [Hv' | ->].
      * destruct (Hw v (Hin0 v Hv')) as (Hm & ys & Hys & Hy). split; [exact Hm|].
        exists ys. split; [exact Hys|]. intros x Hx'. apply Hmono, Hy, Hx'.
      * split; [apply bucket_start_mod|]. exists [user_id e]. split; [reflexivity|].
        intros x [<-|[]]. exists e, clk. split; [apply in_or_app; right; left; reflexivity|].
        auto.
    + intros v Hv. destruct (Hmem v Hv) as [Hv' | ->]; [auto|cbn; unfold kWindowSpanSeconds; lia].
    + exists n, [user_id e]. split; [|split; [reflexivity|split; [reflexivity|left; reflexivity]]].
      apply (Permutation_in _ (Permutation_sym Hp)). apply in_or_app. right. left. reflexivity.
Qed.

Lemma process_events_inv st evs :
  windows_ st = [] -> WInv (process_events st evs) evs.
Proof.
  intros H0. rewrite <- (app_nil_l evs) at 2. unfold process_events.
  assert (Hb : WInv st []) by (unfold WInv; rewrite H0; split; [constructor|intros w []]).
  revert Hb. generalize st (@nil (event * Z)). clear H0.
  induction evs as [|[e clk] evs IH]; intros s acc Hb; cbn [fold_left]; [rewrite app_nil_r; exact Hb|].
  replace (acc ++ (e, clk) :: evs) with ((acc ++ [(e, clk)]) ++ evs) by (rewrite <- app_assoc; reflexivity).
  apply IH. exact (proj1 (process_event_inv s acc e clk Hb)).
Qed.

Lemma hll_default_length :
  length (HLL.registers hll_default) = Z.to_nat (2 ^ HLL.precision hll_default).
Proof. apply length_replicate. Qed.

Lemma fold_merge (Q : string -> Prop) (ws : list window) (acc : list string) :
  (forall w, In w ws -> exists xs, sketch w = HLL.run hll_default xs /\ forall x, In x xs -> Q x) ->
  exists ys, fold_left (fun acc w => acc ≫= fun a => HLL.merge a (sketch w)) ws
               (Some (HLL.run hll_default acc)) = Some (HLL.run hll_default (acc ++ ys)) /\
             forall x, In x ys -> Q x.
Proof.
  revert acc. induction ws as [|w ws IH]; intros acc Hw; cbn [fold_left].
  - exists []. rewrite app_nil_r. split; [reflexivity|intros x []].
  - destruct (Hw w (or_introl eq_refl)) as (xs & Hxs & Hq). cbn [mbind option_bind].
    rewrite Hxs, (HLLMergeFacts.merge_runs _ _ _ hll_default_length).
    destruct (IH (acc ++ xs)) as (ys & Hf & Hy); [intros v Hv; apply Hw; right; exact Hv|].
    exists (xs ++ ys). rewrite Hf, app_assoc. split; [reflexivity|].
    intros x Hx. apply in_app_or in Hx as [Hx|Hx]; auto.
Qed.

End EventFacts.

(* ================================================================== *)
(** * Further properties: the statements *)

(* ------------------------------------------------------------------ *)
(** ** Ring buffer *)

(** [round_up_to_power_of_two v], for [1 <= v <= 2^63], is the least power
    of two at least [v]. *)
Theorem ring_round_up_least_pow2 (v : Z) :
  1 <= v <= 2 ^ 63 -> Ring.round_up_to_power_of_two v = 2 ^ Z.log2_up v.
Proof.
  intros Hv. destruct (Z.eq_dec v 1) as [->|Hne]; [reflexivity|].
  rewrite RingQueueFacts.round_up_spec by lia. apply RingQueueFacts.u64_small.
  split; [lia|]. apply Z.pow_lt_mono_r; [lia|lia|].
  assert (Z.log2_up v <= 63) by (apply Z.log2_up_le_pow2; lia). lia.
Qed.

Lemma ring_round_up_least_pow2_witness :
  1 <= 5 <= 2 ^ 63 /\ Ring.round_up_to_power_of_two 5 = 2 ^ Z.log2_up 5.
Proof. split; [lia|]. apply ring_round_up_least_pow2. lia. Defined.

(** For a size above [2^63] (and within [std::size_t]) the rounding wraps
    to [0]: the runtime-sized ring gets capacity [0] and no cells. *)
Theorem ring_round_up_wraps_to_zero (size : Z) :
  2 ^ 63 < size < 2 ^ 64 ->
  Ring.round_up_to_power_of_two size = 0 /\
  Ring.size_ (Ring.create (T := Z) size) = 0 /\
  Ring.sequence (Ring.create (T := Z) size) = [].
Proof.
  intros Hs.
  assert (Hr : Ring.round_up_to_power_of_two size = 0).
  { rewrite RingQueueFacts.round_up_spec by lia.
    assert (Z.log2_up size = 64) as ->.
    { apply Z.log2_up_unique; [lia|]. cbn [Z.pred]. lia. }
    reflexivity. }
  unfold Ring.create. destruct (Z.eqb_spec size 0); [lia|].
  rewrite Hr. split; [reflexivity|]. split; reflexivity.
Qed.

Lemma ring_round_up_wraps_to_zero_witness :
  2 ^ 63 < 2 ^ 63 + 1 < 2 ^ 64 /\
  Ring.round_up_to_power_of_two (2 ^ 63 + 1) = 0 /\
  Ring.size_ (Ring.create (T := Z) (2 ^ 63 + 1)) = 0 /\
  Ring.sequence (Ring.create (T := Z) (2 ^ 63 + 1)) = [].
Proof. split; [lia|]. apply ring_round_up_wraps_to_zero. lia. Defined.

(** Single-threaded, a runtime-sized ring of size [2 <= size <= 2^63]
    behaves as a FIFO queue bounded by its capacity
    [round_up_to_power_of_two(size)]: every [push] and [pop] returns after
    one round of its loop, a [push] succeeds exactly when fewer than
    capacity items are held, a [pop] returns the oldest item or [false]
    when none is held, and [empty()] tells whether none is held. *)
Theorem ring_bounded_fifo {T} (size : Z) (ops : list (Ring.op T)) :
  2 <= size <= 2 ^ 63 ->
  let c := Ring.round_up_to_power_of_two size in
  exists r',
    Ring.run (Ring.create size) ops = Some ((Ring.fifo_run c [] ops).1, r') /\
    Ring.empty r' = bool_decide ((Ring.fifo_run c [] ops).2 = []) /\
    Ring.size_ r' = c.
Proof.
  intros Hs c.
  destruct (RingQueueFacts.run_ok c ops _ _ _ _ (RingQueueFacts.create_ok size Hs))
    as (r' & E' & D' & Hrun & I').
  exists r'. split; [exact Hrun|]. split.
  - exact (RingQueueFacts.empty_ok _ _ _ _ _ I').
  - exact (RingQueueFacts.qi_size _ _ _ _ _ I').
Qed.

Lemma ring_bounded_fifo_witness :
  2 <= 2 <= 2 ^ 63 /\
  exists r',
    Ring.run (Ring.create 2) [Ring.Push 1; Ring.Push 2; Ring.Push 3; Ring.Pop; Ring.Push 4; Ring.Pop] =
      Some ([(true, None); (true, None); (false, None); (true, Some 1); (true, None); (true, Some 2)], r') /\
    Ring.empty r' = false /\ Ring.size_ r' = 2.
Proof.
  split; [lia|].
  exact (ring_bounded_fifo 2 [Ring.Push 1; Ring.Push 2; Ring.Push 3; Ring.Pop; Ring.Push 4; Ring.Pop]
           ltac:(lia)).
Defined.

(* ------------------------------------------------------------------ *)
(** ** HyperLogLog merge *)

(** Merging two sketches built by [add] from the same fresh sketch gives
    the sketch of all their values: [merge] is the union of the added
    sets. *)
Theorem hll_merge_union (p : Z) (s0 : HLL.hll) (xs ys : list string) :
  HLL.create p = Some s0 ->
  HLL.merge (HLL.run s0 xs) (HLL.run s0 ys) = Some (HLL.run s0 (xs ++ ys)).
Proof.
  intros Hc. apply HLLMergeFacts.merge_runs. exact (HLLMergeFacts.create_length p s0 Hc).
Qed.

Lemma hll_merge_union_witness :
  exists s0, HLL.create 4 = Some s0 /\
  HLL.merge (HLL.run s0 ["a"; "b"]) (HLL.run s0 ["c"]) = Some (HLL.run s0 ["a"; "b"; "c"]).
Proof.
  eexists. split; [reflexivity|].
  exact (hll_merge_union 4 _ ["a"; "b"] ["c"] eq_refl).
Defined.

(* ------------------------------------------------------------------ *)
(** ** Skip list queries *)

(** [upsert] on a list satisfying the invariant, with a score that is not
    NaN: [find] then returns a node of the user with the new score and
    timestamp, returns what it returned before for every other user, and
    the invariant holds. *)
Theorem skiplist_upsert_find sl uid s ts :
  SkipListInv.Inv sl -> is_nan s = false ->
  (exists n, SkipList.find (SkipList.upsert sl uid s ts) uid = Some n /\
     SkipList.user_id n = uid /\ SkipList.score n = s /\ SkipList.last_update n = ts) /\
  (forall u, u <> uid -> SkipList.find (SkipList.upsert sl uid s ts) u = SkipList.find sl u) /\
  SkipListInv.Inv (SkipList.upsert sl uid s ts).
Proof.
  intros HI Hs. destruct (SkipListQueries.find_upsert sl uid s ts HI Hs) as [H1 H2].
  split; [exact H1|]. split; [exact H2|].
  exact (proj1 (SkipListUpsert.upsert_step sl uid s ts HI Hs)).
Qed.

Lemma skiplist_upsert_find_witness :
  exists n, SkipList.find (SkipList.upsert (SkipList.run sl_example ops_example) "b" 7 3) "b" = Some n /\
    SkipList.user_id n = "b" /\ SkipList.score n = 7%float /\ SkipList.last_update n = 3.
Proof.
  exact (proj1 (skiplist_upsert_find (SkipList.run sl_example ops_example) "b" 7 3
                  QueryExamples.example_inv eq_refl)).
Defined.

(** [erase] on a list satisfying the invariant returns whether the user
    was found; afterwards [find] no longer finds the user, finds every
    other user as before, and the invariant holds. *)
Theorem skiplist_erase_find sl uid :
  SkipListInv.Inv sl ->
  let r := SkipList.erase sl uid in
  r.1 = bool_decide (is_Some (SkipList.find sl uid)) /\
  SkipList.find r.2 uid = None /\
  (forall u, u <> uid -> SkipList.find r.2 u = SkipList.find sl u) /\
  SkipListInv.Inv r.2.
Proof.
  intros HI. destruct (SkipListErase.erase_step sl uid HI) as (HI2 & _ & _ & Hb & _).
  cbn zeta. split; [|split; [|split; [|exact HI2]]].
  - rewrite Hb. apply bool_decide_ext. unfold SkipList.find.
    destruct (SkipList.index_ sl !! uid) as [p|] eqn:Ep; cbn;
      [|split; intros [? ?]; discriminate].
    apply (SkipListInv.inv_index _ HI) in Ep as (n & Hn & _). rewrite Hn. split; eauto.
  - rewrite SkipListQueries.find_erase, decide_True by (exact HI || reflexivity). reflexivity.
  - intros u Hu. rewrite SkipListQueries.find_erase, decide_False by (exact HI || exact Hu).
    reflexivity.
Qed.

Lemma skiplist_erase_find_witness :
  (SkipList.erase (SkipList.run sl_example ops_example) "b").1 = true /\
  SkipList.find (SkipList.erase (SkipList.run sl_example ops_example) "b").2 "b" = None.
Proof.
  destruct (skiplist_erase_find (SkipList.run sl_example ops_example) "b"
              QueryExamples.example_inv) as (H1 & H2 & _).
  split; [rewrite H1; vm_compute; reflexivity|exact H2].
Defined.

(** [top_k k] on a list satisfying the invariant returns the first [k]
    stored users, with their scores, in the order of [(- score, user_id)]
    (all of them when fewer are stored). *)
Theorem skiplist_top_k_best sl k :
  SkipListInv.Inv sl ->
  map (fun n => (SkipList.user_id n, SkipList.score n)) (SkipList.top_k sl k) =
  take (Z.to_nat k) (SkipList.sort_entries (map_to_list (SkipListInv.abs sl))).
Proof.
  intros HI. rewrite SkipListQueries.top_k_take, <- (SkipListSort.entries_sort sl HI).
  unfold SkipList.entries. apply fmap_take.
Qed.

Lemma skiplist_top_k_best_witness :
  map (fun n => (SkipList.user_id n, SkipList.score n))
    (SkipList.top_k (SkipList.run sl_example ops_example) 2) =
  take 2 (SkipList.sort_entries (map_to_list (SkipListInv.abs (SkipList.run sl_example ops_example)))).
Proof. exact (skiplist_top_k_best _ 2 QueryExamples.example_inv). Defined.

(** [tail] on a list satisfying the invariant returns the last stored user
    in the order of [(- score, user_id)], and [nullptr] when none is
    stored. *)
Theorem skiplist_tail_lowest sl :
  SkipListInv.Inv sl ->
  (fun n => (SkipList.user_id n, SkipList.score n)) <$> SkipList.tail sl =
  last (SkipList.sort_entries (map_to_list (SkipListInv.abs sl))).
Proof.
  intros HI. rewrite SkipListQueries.tail_last by exact HI.
  rewrite (SkipListSort.entries_sort sl HI). reflexivity.
Qed.

Lemma skiplist_tail_lowest_witness :
  (fun n => (SkipList.user_id n, SkipList.score n)) <$> SkipList.tail (SkipList.run sl_example ops_example) =
  last (SkipList.sort_entries (map_to_list (SkipListInv.abs (SkipList.run sl_example ops_example)))).
Proof. exact (skiplist_tail_lowest _ QueryExamples.example_inv). Defined.

(** [rank_of] on a list satisfying the invariant returns [0] exactly for
    the users [find] does not find; for a stored user it returns its
    position, from [1], in the order of [(- score, user_id)]. *)
Theorem skiplist_rank_of_position sl u :
  SkipListInv.Inv sl ->
  (SkipList.rank_of sl u = 0 <-> SkipList.find sl u = None) /\
  forall n, SkipList.find sl u = Some n ->
    1 <= SkipList.rank_of sl u /\
    SkipList.sort_entries (map_to_list (SkipListInv.abs sl)) !! Z.to_nat (SkipList.rank_of sl u - 1) =
      Some (u, SkipList.score n).
Proof.
  intros HI. destruct (SkipListQueries.rank_of_spec sl u HI) as [H0 Hpos].
  split; [exact H0|]. intros n Hn. destruct (Hpos n Hn) as [H1 H2]. split; [exact H1|].
  rewrite <- (SkipListSort.entries_sort sl HI). unfold SkipList.entries.
  rewrite list_lookup_fmap, H2. cbn.
  apply (SkipListQueries.find_heap sl u n HI) in Hn as [_ ->]. reflexivity.
Qed.

Lemma skiplist_rank_of_position_witness :
  SkipList.rank_of (SkipList.run sl_example ops_example) "b" = 2 /\
  SkipList.sort_entries (map_to_list (SkipListInv.abs (SkipList.run sl_example ops_example))) !! 1%nat =
    Some ("b", 1%float).
Proof.
  destruct (skiplist_rank_of_position (SkipList.run sl_example ops_example) "b"
              QueryExamples.example_inv) as [_ H].
  assert (E : SkipList.rank_of (SkipList.run sl_example ops_example) "b" = 2)
    by (vm_compute; reflexivity).
  split; [exact E|].
  destruct (H (SkipList.mk_node "b" 1 0 1)) as [_ H2]; [vm_compute; reflexivity|].
  rewrite E in H2. exact H2.
Defined.

(* ------------------------------------------------------------------ *)
(** ** Leaderboard queries *)

(** [refresh_scores_locked now] on a list satisfying the invariant, when
    the decayed scores are not NaN: every stored user stays stored, with
    the score [decay_.apply(score, last_update, now)] and the timestamp
    [now]; no user is added, the size is kept and the invariant holds. *)
Theorem leaderboard_refresh_decays_all pow lb now lb' :
  SkipListInv.Inv (Leaderboard.skip_list_ lb) ->
  (forall n d, n ∈ SkipList.nodes0 (Leaderboard.skip_list_ lb) ->
     TimeDecay.apply pow (Leaderboard.decay_ lb) (SkipList.score n) (SkipList.last_update n) now =
       Some d -> is_nan d = false) ->
  Leaderboard.refresh_scores_locked pow lb now = Some lb' ->
  SkipListInv.Inv (Leaderboard.skip_list_ lb') /\
  SkipList.size_ (Leaderboard.skip_list_ lb') = SkipList.size_ (Leaderboard.skip_list_ lb) /\
  forall u,
    match SkipList.find (Leaderboard.skip_list_ lb) u with
    | None => SkipList.find (Leaderboard.skip_list_ lb') u = None
    | Some n => exists n', SkipList.find (Leaderboard.skip_list_ lb') u = Some n' /\
        TimeDecay.apply pow (Leaderboard.decay_ lb) (SkipList.score n) (SkipList.last_update n) now =
          Some (SkipList.score n') /\
        SkipList.last_update n' = now
    end.
Proof.
  intros HI Hnan Hr.
  destruct (LeaderboardQueries.refresh_spec pow lb now lb' HI Hnan Hr) as (H1 & _ & _ & H2 & H3).
  auto.
Qed.

Lemma leaderboard_refresh_decays_all_witness :
  exists lb', Leaderboard.refresh_scores_locked (fun _ _ => 0.5%float) lb_queries_example 86400 =
    Some lb' /\
  SkipList.size_ (Leaderboard.skip_list_ lb') = 3%nat.
Proof.
  destruct (Leaderboard.refresh_scores_locked (fun _ _ => 0.5%float) lb_queries_example 86400)
    as [lb'|] eqn:E; [|vm_compute in E; discriminate].
  exists lb'. split; [reflexivity|].
  destruct (leaderboard_refresh_decays_all (fun _ _ => 0.5%float) lb_queries_example 86400 lb'
              QueryExamples.example_inv) as (_ & Hs & _).
  - intros n d Hn Hd. apply list_elem_of_In in Hn. vm_compute in Hn.
    repeat (destruct Hn as [<-|Hn]; [vm_compute in Hd; injection Hd as <-; reflexivity|]).
    contradiction.
  - exact E.
  - rewrite Hs. vm_compute. reflexivity.
Defined.

(** [get_user_rank] and [get_top_users] at the same time agree: on a list
    satisfying the invariant, when the decayed scores are not NaN,
    [get_user_rank] returns [std::nullopt] exactly for the users not
    stored; otherwise it returns the user with a rank [r >= 1], and
    [get_top_users k] for any [k >= r] has that same entry at position
    [r]. *)
Theorem leaderboard_user_rank_consistent pow lb u now r lb' :
  SkipListInv.Inv (Leaderboard.skip_list_ lb) ->
  (forall n d, n ∈ SkipList.nodes0 (Leaderboard.skip_list_ lb) ->
     TimeDecay.apply pow (Leaderboard.decay_ lb) (SkipList.score n) (SkipList.last_update n) now =
       Some d -> is_nan d = false) ->
  Leaderboard.get_user_rank pow lb u now = Some (r, lb') ->
  (r = None <-> SkipList.find (Leaderboard.skip_list_ lb) u = None) /\
  forall info, r = Some info ->
    Leaderboard.entry_user_id info = u /\ 1 <= Leaderboard.entry_rank info /\
    forall k, Leaderboard.entry_rank info <= k ->
      exists res, Leaderboard.get_top_users pow lb k now = Some (res, lb') /\
        res !! Z.to_nat (Leaderboard.entry_rank info - 1) = Some info.
Proof.
  intros HI Hnan. unfold Leaderboard.get_user_rank, Leaderboard.get_top_users.
  destruct (Leaderboard.refresh_scores_locked pow lb now) as [lb1|] eqn:Er; [|discriminate].
  destruct (LeaderboardQueries.refresh_spec pow lb now lb1 HI Hnan Er) as (HI1 & _ & _ & _ & Hf).
  specialize (Hf u).
  destruct (SkipList.find (Leaderboard.skip_list_ lb1) u) as [n|] eqn:En; intros [= <- <-].
  - split.
    + split; [discriminate|]. intros E. rewrite E in Hf. discriminate.
    + intros info [= <-]. cbn [Leaderboard.entry_user_id Leaderboard.entry_rank].
      destruct (SkipListQueries.rank_of_spec _ u HI1) as [_ Hpos].
      destruct (Hpos n En) as [H1 H2].
      apply (SkipListQueries.find_heap _ u n HI1) in En as [_ Hu].
      split; [exact Hu|]. split; [exact H1|]. intros k Hk. eexists. split; [reflexivity|].
      rewrite list_lookup_imap, SkipListQueries.top_k_take, lookup_take_lt by lia.
      rewrite H2. cbn. rewrite Hu. f_equal. f_equal. lia.
  - split; [|intros info; discriminate]. split; [intros _|reflexivity].
    destruct (SkipList.find (Leaderboard.skip_list_ lb) u); [|reflexivity].
    destruct Hf as (n' & E & _). discriminate.
Qed.

Lemma leaderboard_user_rank_consistent_witness :
  exists info lb',
    Leaderboard.get_user_rank (fun _ _ => 0.5%float) lb_queries_example "b" 86400 =
      Some (Some info, lb') /\
    Leaderboard.entry_rank info = 2 /\
    exists res, Leaderboard.get_top_users (fun _ _ => 0.5%float) lb_queries_example 3 86400 =
      Some (res, lb') /\ res !! 1%nat = Some info.
Proof.
  destruct (Leaderboard.get_user_rank (fun _ _ => 0.5%float) lb_queries_example "b" 86400)
    as [[[info|] lb']|] eqn:E; [|vm_compute in E; discriminate..].
  exists info, lb'. split; [reflexivity|].
  destruct (leaderboard_user_rank_consistent (fun _ _ => 0.5%float) lb_queries_example "b" 86400
              (Some info) lb' QueryExamples.example_inv) as [_ H].
  - intros n d Hn Hd. apply list_elem_of_In in Hn. vm_compute in Hn.
    repeat (destruct Hn as [<-|Hn]; [vm_compute in Hd; injection Hd as <-; reflexivity|]).
    contradiction.
  - exact E.
  - assert (Hr : Leaderboard.entry_rank info = 2).
    { vm_compute in E. injection E as <- _. reflexivity. }
    destruct (H info eq_refl) as (_ & _ & Hk). split; [exact Hr|].
    rewrite Hr in Hk. exact (Hk 3 ltac:(lia)).
Defined.

(** [get_top_users k] on a list satisfying the invariant, when the
    decayed scores are not NaN: the entries are the first [k] users of the
    refreshed leaderboard in the order of [(- score, user_id)], ranked
    [1], [2], ... in that order. *)
Theorem leaderboard_top_users_sorted pow lb k now res lb' :
  SkipListInv.Inv (Leaderboard.skip_list_ lb) ->
  (forall n d, n ∈ SkipList.nodes0 (Leaderboard.skip_list_ lb) ->
     TimeDecay.apply pow (Leaderboard.decay_ lb) (SkipList.score n) (SkipList.last_update n) now =
       Some d -> is_nan d = false) ->
  Leaderboard.get_top_users pow lb k now = Some (res, lb') ->
  map (fun e => (Leaderboard.entry_user_id e, Leaderboard.entry_score e)) res =
    take (Z.to_nat k)
      (SkipList.sort_entries (map_to_list (SkipListInv.abs (Leaderboard.skip_list_ lb')))) /\
  forall i e, res !! i = Some e -> Leaderboard.entry_rank e = Z.of_nat i + 1.
Proof.
  intros HI Hnan. unfold Leaderboard.get_top_users.
  destruct (Leaderboard.refresh_scores_locked pow lb now) as [lb1|] eqn:Er; [|discriminate].
  destruct (LeaderboardQueries.refresh_spec pow lb now lb1 HI Hnan Er) as (HI1 & _).
  intros [= <- <-]. split.
  - rewrite <- (SkipListSort.entries_sort _ HI1). unfold SkipList.entries.
    rewrite SkipListQueries.top_k_take, firstn_map. generalize (take (Z.to_nat k) (SkipList.nodes0 (Leaderboard.skip_list_ lb1))).
    intros l. apply list_eq. intros i. rewrite !list_lookup_fmap, list_lookup_imap.
    destruct (l !! i); reflexivity.
  - intros i e. rewrite list_lookup_imap. destruct (_ !! i); cbn; [|discriminate].
    intros [= <-]. reflexivity.
Qed.

Lemma leaderboard_top_users_sorted_witness :
  exists res lb',
    Leaderboard.get_top_users (fun _ _ => 0.5%float) lb_queries_example 2 86400 = Some (res, lb') /\
    map (fun e => (Leaderboard.entry_user_id e, Leaderboard.entry_score e)) res =
      take 2 (SkipList.sort_entries (map_to_list (SkipListInv.abs (Leaderboard.skip_list_ lb')))).
Proof.
  destruct (Leaderboard.get_top_users (fun _ _ => 0.5%float) lb_queries_example 2 86400)
    as [[res lb']|] eqn:E; [|vm_compute in E; discriminate].
  exists res, lb'. split; [reflexivity|].
  apply (leaderboard_top_users_sorted (fun _ _ => 0.5%float) lb_queries_example 2 86400 res lb').
  - exact QueryExamples.example_inv.
  - intros n d Hn Hd. apply list_elem_of_In in Hn. vm_compute in Hn.
    repeat (destruct Hn as [<-|Hn]; [vm_compute in Hd; injection Hd as <-; reflexivity|]).
    contradiction.
  - exact E.
Defined.

(* ------------------------------------------------------------------ *)
(** ** Integer output and input *)

(** [std::stoull] reads back what [operator<<] writes for every
    [std::size_t]. *)
Theorem stoull_show_size n :
  0 <= n < 2 ^ 64 -> NumIO.stoull (NumIO.show_size n) = Some n.
Proof.
  intros Hn. unfold NumIO.show_size. destruct (Z.eqb_spec n 0) as [->|Hne]; [reflexivity|].
  destruct (NumIOFacts.decimal_spec n ltac:(lia)) as (c & rest & Hd & [d Hc] & Hr).
  unfold NumIO.stoull. rewrite list_ascii_of_string_of_list_ascii, Hd.
  destruct (NumIOFacts.digit_shape c d rest Hc) as [Hsp Hsg].
  cbn [NumIO.skip_space NumIO.drop_while]. rewrite Hsp, Hsg, Hr. cbn [length Nat.eqb].
  destruct (Z.ltb_spec (2 ^ 64 - 1) n); [lia|reflexivity].
Qed.

Lemma stoull_show_size_witness :
  NumIO.show_size (2 ^ 64 - 1) = "18446744073709551615" /\
  NumIO.stoull (NumIO.show_size (2 ^ 64 - 1)) = Some (2 ^ 64 - 1).
Proof. split; [vm_compute; reflexivity|apply stoull_show_size; lia]. Defined.

(** [std::stoll] reads back what [operator<<] writes for every
    [std::int64_t]. *)
Theorem stoll_show_int64 n :
  - 2 ^ 63 <= n < 2 ^ 63 -> NumIO.stoll (NumIO.show_int64 n) = Some n.
Proof.
  intros Hn. unfold NumIO.show_int64, NumIO.stoll.
  destruct (Z.ltb_spec n 0) as [Hneg|Hpos].
  - unfold NumIO.show_size. rewrite (proj2 (Z.eqb_neq (- n) 0)) by lia.
    destruct (NumIOFacts.decimal_spec (- n) ltac:(lia)) as (c & rest & Hd & _ & Hr).
    cbn [list_ascii_of_string]. rewrite list_ascii_of_string_of_list_ascii, Hd.
    cbn [NumIO.skip_space NumIO.drop_while]. change (NumIO.is_space "-"%char) with false.
    cbn [NumIO.read_sign]. rewrite Hr. cbn [length Nat.eqb]. rewrite Z.opp_involutive.
    destruct (Z.ltb_spec n (- 2 ^ 63)); [lia|]. destruct (Z.ltb_spec (2 ^ 63 - 1) n); [lia|].
    reflexivity.
  - unfold NumIO.show_size. destruct (Z.eqb_spec n 0) as [->|Hne]; [reflexivity|].
    destruct (NumIOFacts.decimal_spec n ltac:(lia)) as (c & rest & Hd & [d Hc] & Hr).
    rewrite list_ascii_of_string_of_list_ascii, Hd.
    destruct (NumIOFacts.digit_shape c d rest Hc) as [Hsp Hsg].
    cbn [NumIO.skip_space NumIO.drop_while]. rewrite Hsp, Hsg, Hr. cbn [length Nat.eqb].
    destruct (Z.ltb_spec n (- 2 ^ 63)); [lia|]. destruct (Z.ltb_spec (2 ^ 63 - 1) n); [lia|].
    reflexivity.
Qed.

Lemma stoll_show_int64_witness :
  NumIO.show_int64 (- 2 ^ 63) = "-9223372036854775808" /\
  NumIO.stoll (NumIO.show_int64 (- 2 ^ 63)) = Some (- 2 ^ 63).
Proof. split; [vm_compute; reflexivity|apply stoll_show_int64; lia]. Defined.

(* ------------------------------------------------------------------ *)
(** ** Event statistics: the time windows *)

(** From the state of a new processor, after any sequence of
    [process_event] calls: the windows are sorted by strictly increasing
    starts (one window per minute at most), each start is a multiple of
    60 seconds, and after the last event every window starts at most an
    hour before the minute of that event; the window of that minute holds
    the sketch of a list of users that contains the event's user. *)
Theorem event_windows_invariant st0 evs e clk :
  EventProcessor.windows_ st0 = [] ->
  let st := EventProcessor.process_events st0 (evs ++ [(e, clk)]) in
  let b := EventProcessor.bucket_start (EventProcessor.timestamp e) clk in
  StronglySorted Z.lt (map EventProcessor.window_start (EventProcessor.windows_ st)) /\
  (forall w, In w (EventProcessor.windows_ st) ->
     EventProcessor.window_start w mod 60 = 0 /\ b - 3600 <= EventProcessor.window_start w) /\
  exists w xs, In w (EventProcessor.windows_ st) /\ EventProcessor.window_start w = b /\
    EventProcessor.sketch w = HLL.run EventProcessor.hll_default xs /\
    In (EventProcessor.user_id e) xs.
Proof.
  intros H0. cbn zeta. unfold EventProcessor.process_events at 1 2 3.
  rewrite fold_left_app. cbn [fold_left].
  fold (EventProcessor.process_events st0 evs).
  pose proof (EventFacts.process_events_inv st0 evs H0) as HI.
  destruct (EventFacts.process_event_inv _ _ e clk HI) as ([Hs Hw] & Hge & Hex).
  split; [exact Hs|]. split; [|exact Hex].
  intros w Hin. split; [exact (proj1 (Hw w Hin))|exact (Hge w Hin)].
Qed.

Lemma event_windows_invariant_witness :
  StronglySorted Z.lt (map EventProcessor.window_start
    (EventProcessor.windows_ (EventProcessor.process_events stats_example events_example))).
Proof.
  exact (proj1 (event_windows_invariant stats_example (removelast events_example)
                  (EventProcessor.mk_event "like" "u3" "c2" 7230) 0 eq_refl)).
Defined.

(** From the state of a new processor, after any sequence of
    [process_event] calls, [get_unique_users_last_hour] at [now_seconds]
    never throws from [merge]: its [aggregate] is the sketch of a list of
    users, each the user of a processed event whose minute starts at most
    an hour before [now_seconds]. *)
Theorem event_unique_users_last_hour st0 evs now_seconds :
  EventProcessor.windows_ st0 = [] ->
  exists xs,
    (EventProcessor.unique_users_aggregate (EventProcessor.process_events st0 evs) now_seconds).1 =
      Some (HLL.run EventProcessor.hll_default xs) /\
    forall x, In x xs -> exists e clk, In (e, clk) evs /\ EventProcessor.user_id e = x /\
      now_seconds - 3600 <= EventProcessor.bucket_start (EventProcessor.timestamp e) clk.
Proof.
  intros H0. destruct (EventFacts.process_events_inv st0 evs H0) as [Hs Hw].
  unfold EventProcessor.unique_users_aggregate. cbn [fst].
  set (ws := EventProcessor.windows_ (EventProcessor.process_events st0 evs)) in *.
  set (ws0 := EventProcessor.drop_old (now_seconds - EventProcessor.kWindowSpanSeconds) ws).
  destruct (EventFacts.fold_merge
              (fun x => exists e clk, In (e, clk) evs /\ EventProcessor.user_id e = x /\
                 now_seconds - 3600 <= EventProcessor.bucket_start (EventProcessor.timestamp e) clk)
              ws0 []) as (ys & Hf & Hy).
  - intros w Hin. pose proof (EventFacts.drop_old_ge _ _ _ Hs Hin) as Hge.
    destruct (Hw w (EventFacts.drop_old_in _ _ _ Hin)) as (_ & xs & Hxs & Hx).
    exists xs. split; [exact Hxs|]. intros x Hxin.
    destruct (Hx x Hxin) as (e & clk & He & Hu & Hb). exists e, clk.
    split; [exact He|]. split; [exact Hu|]. rewrite Hb. exact Hge.
  - exists ys. split; [exact Hf|exact Hy].
Qed.

Lemma event_unique_users_last_hour_witness :
  exists xs,
    (EventProcessor.unique_users_aggregate
       (EventProcessor.process_events stats_example events_example) 7260).1 =
      Some (HLL.run EventProcessor.hll_default xs) /\
    forall x, In x xs -> exists e clk, In (e, clk) events_example /\ EventProcessor.user_id e = x /\
      7260 - 3600 <= EventProcessor.bucket_start (EventProcessor.timestamp e) clk.
Proof. exact (event_unique_users_last_hour stats_example events_example 7260 eq_refl). Defined.

(** The witness of C5, at a full leaderboard: the upsert of a new user "d"
    makes 4 users at a capacity of 3, and the eviction erases the tail. *)
Lemma leaderboard_capacity_witness :
  SkipList.size_ (Leaderboard.skip_list_ lb_full) = 3%nat /\
  exists lb',
    Leaderboard.update_user (fun _ _ => 1%float) lb_full "d" 1 1 0 = Some lb' /\
    SkipList.size_ (SkipList.upsert (Leaderboard.skip_list_ lb_full) "d" 1 1) = 4%nat /\
    SkipListInv.Inv (Leaderboard.skip_list_ lb') /\
    Leaderboard.max_users_ lb' = 3 /\
    Z.of_nat (SkipList.size_ (Leaderboard.skip_list_ lb')) <= 3.
Proof.
  split; [vm_compute; reflexivity|].
  eexists. split; [reflexivity|]. split; [vm_compute; reflexivity|].
  destruct (leaderboard_capacity (fun _ _ => 1%float) lb_full "d" 1 1 0 _
              QueryExamples.example_inv ltac:(vm_compute; reflexivity)
              ltac:(intros ns Hns; vm_compute in Hns; injection Hns as <-; reflexivity)
              eq_refl) as (HI & Hm & _ & Hs).
  split; [exact HI|]. split; [exact Hm|].
  apply Hs. vm_compute. discriminate.
Defined.
